(** * MinedMap: region-to-tile rendering pipeline (src/MinedMap.cpp)

    A shallow embedding of [addChunk], [writePNG], [doRegion] and [main],
    together with the libc calls they rely on, and the properties of the
    pipeline: staleness detection, chunk compositing, publication through a
    temporary file, filename validation and batch traversal. *)

From Stdlib Require Import ZArith Lia String Ascii.
From Stdlib Require Import DecimalString DecimalFacts DecimalPos.
From stdpp Require Import base option list gmap strings.

Local Open Scope string_scope.
Local Open Scope list_scope.
Local Open Scope Z_scope.

(** ** Collaborator types

    [World::Chunk], its [Blocks] layer and the per-block colour are declared
    in headers outside this file; only the members used here are modelled.
    [blocks] is the array [blocks[SIZE][SIZE]], read at in-range indices. *)

Record Block := { getColor : Z }.
Record Blocks := { blocks : nat → nat → Block }.
Record Chunk := { getTopLayer : Blocks }.

(** A chunk delivered by the region visitor: the arguments [X], [Z], [chunk]
    of the callback (the source's [Z] is written [Zc] below, [Z] being the
    type of integers). *)
Definition Visit : Type := nat * nat * Chunk.

Definition slot (v : Visit) : nat * nat := (v.1.1, v.1.2).

(** ** Byte order *)

(** [bswap_32] as the C library writes it. *)
Definition bswap_32 (x : Z) : Z :=
  Z.lor
    (Z.lor (Z.shiftr (Z.land x 0xff000000) 24) (Z.shiftr (Z.land x 0x00ff0000) 8))
    (Z.lor (Z.shiftl (Z.land x 0x0000ff00) 8) (Z.shiftl (Z.land x 0x000000ff) 24)).

(** Byte [k] (0 = least significant) of a 32-bit word. *)
Definition byte_of (v : Z) (k : Z) : Z := Z.land (Z.shiftr v (8 * k)) 0xff.

(** The bytes of a colour in network byte order: most significant first. *)
Definition network_bytes (v : Z) : list Z :=
  [byte_of v 3; byte_of v 2; byte_of v 1; byte_of v 0].

(** ** Files, time stamps and the error stream *)

(** [struct timespec]. *)
Record timespec := { tv_sec : Z; tv_nsec : Z }.

(** What a path holds. Region files and anything else this program did not
    write are [Bytes]; [PNG image] is the complete encoding of a grid;
    [Partial n] is an output stream cut off after [n] bytes ([Partial 0] is
    the empty file [fopen] leaves before anything is written). *)
Inductive Content :=
| Bytes (data : list Z)
| PNG (image : list Z)
| Partial (written : nat).

Record File := { content : Content; st_mtim : timespec; st_atim : timespec }.

(** The lines the program prints on [stderr] (the [strerror] text is left
    out). *)
Inductive Msg :=
| MsgUsage (argv0 : string)
| MsgUnableToReadDir
| MsgUnableToStat (input : string)
| MsgUpToDate (output : string)
| MsgGenerating (output input : string)
| MsgWarnUtime (tmpfile : string)
| MsgUnableToSave (output : string)
| MsgFailedToGenerate (output what : string).

(** The part of the machine the program acts on: the files by path, the
    directories that [opendir] can open with the names [readdir] returns for
    them in order, and what was printed on [stderr] so far. A path and a
    directory are known by their spelling. *)
Record World := {
  files : gmap string File;
  dirs : gmap string (list string);
  stderr : list Msg
}.

(** A path cut at its last slash: the directory it names an entry of, and
    the name of that entry. *)
Fixpoint split_path (path : string) : option (string * string) :=
  match path with
  | EmptyString => None
  | String c t =>
      match split_path t with
      | Some (d, b) => Some (String c d, b)
      | None => if Ascii.eqb c "/" then Some ("", t) else None
      end
  end.

Definition dirname (path : string) : string :=
  match split_path path with
  | Some (d, _) => d
  | None => "."
  end.

Definition basename (path : string) : string :=
  match split_path path with
  | Some (_, b) => b
  | None => path
  end.

(** A name enters a listing (where [readdir] will deliver a new name is up
    to the file system; here it comes last), or leaves it. *)
Definition add_name (n : string) (l : list string) : list string :=
  if bool_decide (n ∈ l) then l else l ++ [n].

Definition remove_name (n : string) (l : list string) : list string :=
  filter (λ m, m ≠ n) l.

(** The listings once [path] names a file, and once it names none. *)
Definition add_entry (ds : gmap string (list string)) (path : string)
  : gmap string (list string) :=
  alter (add_name (basename path)) (dirname path) ds.

Definition remove_entry (ds : gmap string (list string)) (path : string)
  : gmap string (list string) :=
  alter (remove_name (basename path)) (dirname path) ds.

(** The listings [ds'] are those of [ds] but for the directory [dir], where
    names outside [P] may have come or gone. *)
Definition same_listings (P : string → Prop) `{!∀ x, Decision (P x)} (dir : string)
    (ds ds' : gmap string (list string)) : Prop :=
  ∀ d, (d ≠ dir → ds' !! d = ds !! d)
       ∧ filter P <$> ds' !! d = filter P <$> ds !! d.

(** A change to the files that creates and removes no name. *)
Definition set_files (w : World) (fs : gmap string File) : World :=
  {| files := fs; dirs := dirs w; stderr := stderr w |}.

Definition fprintf_stderr (w : World) (m : Msg) : World :=
  {| files := files w; dirs := dirs w; stderr := stderr w ++ [m] |}.

(** How the calls into libpng and stdio inside [writePNG] fare. With
    [WriteError] a write inside [png_write_png] fails after [written] bytes
    and libpng jumps back to the [setjmp]. With [FcloseFails] every call of
    libpng succeeds, and the final [fclose] fails to write out what the
    stream still buffers, so that [written] bytes have reached the file.
    With [PngWritten] the whole encoding has reached the file. *)
Inductive PngOutcome :=
| FopenFails
| CreateWriteStructFails
| CreateInfoStructFails
| WriteError (written : nat)
| FcloseFails (written : nat)
| PngWritten.

#[global] Instance PngOutcome_eq_dec : EqDecision PngOutcome.
Proof. solve_decision. Defined.

(** A normal return, or a thrown [std::exception] with its [what()]. *)
Inductive Except (A : Type) :=
| Return (a : A)
| Throw (what : string).
Arguments Return {A} a.
Arguments Throw {A} what.

(** What the surroundings decide during one call of [doRegion]: what
    [World::Region::visitChunks] does on the input (it throws, or calls the
    callback on these chunks in this order), how encoding fares, the text of
    [errno] when [fopen] fails, the clock while the temporary file is
    written, and whether [utimensat], [rename] and [unlink] succeed. *)
Record Env := {
  visitChunks : Except (list Visit);
  png_outcome : PngOutcome;
  fopen_strerror : string;
  clock : timespec;
  utimensat_ok : bool;
  rename_ok : bool;
  unlink_ok : bool
}.

(** [stat]: succeeds on the paths that hold a file. *)
Definition stat (w : World) (path : string) : option File := files w !! path.

(** [fopen(filename, "wb")] when it succeeds: the file is created, or
    truncated to length zero. *)
Definition fopen_wb (w : World) (now : timespec) (filename : string) : World :=
  let atime := match files w !! filename with
               | Some f => st_atim f
               | None => now
               end in
  {| files := <[filename := {| content := Partial 0; st_mtim := now; st_atim := atime |}]>
                (files w);
     dirs := add_entry (dirs w) filename;
     stderr := stderr w |}.

(** The stream's content once the writes so far have reached the file. *)
Definition write_stream (w : World) (now : timespec) (filename : string) (c : Content) : World :=
  set_files w (alter (λ f, {| content := c; st_mtim := now; st_atim := st_atim f |}) filename (files w)).

(** [utimensat(AT_FDCWD, path, times, 0)] with [times = {atime, mtime}]. *)
Definition utimensat (w : World) (path : string) (atime mtime : timespec) : World :=
  set_files w (alter (λ f, {| content := content f; st_mtim := mtime; st_atim := atime |}) path (files w)).

(** [rename(from, to)] when it succeeds: [to] is replaced in one step and
    the name [from] is gone. When it fails nothing is changed. *)
Definition rename (w : World) (from to : string) : World :=
  match files w !! from with
  | Some f =>
      {| files := <[to := f]> (delete from (files w));
         dirs := add_entry (remove_entry (dirs w) from) to;
         stderr := stderr w |}
  | None => w
  end.

(** [unlink(path)] when it succeeds: the path names no file afterwards. When
    it fails (the path names a directory, or its directory cannot be written)
    nothing is changed. *)
Definition unlink (w : World) (path : string) : World :=
  {| files := delete path (files w);
     dirs := remove_entry (dirs w) path;
     stderr := stderr w |}.

(** The lines added to [stderr] between the world [w] and a later [w']. *)
Definition new_messages (w w' : World) : list Msg :=
  drop (length (stderr w)) (stderr w').

(** The lines that report neither a warning nor an error. *)
Definition quiet (m : Msg) : bool :=
  match m with
  | MsgUpToDate _ | MsgGenerating _ _ => true
  | _ => false
  end.

(** The characters of a string, and the last of them. *)
Definition chars (s : string) : list ascii := list_ascii_of_string s.
Definition last_char (s : string) : option ascii := last (chars s).

(** ** Time stamp comparison *)

(** The condition of lines 109-110: the input is not newer than the output. *)
Definition mtime_not_newer (instat outstat : File) : bool :=
  (tv_sec (st_mtim instat) <? tv_sec (st_mtim outstat))
  || ((tv_sec (st_mtim instat) =? tv_sec (st_mtim outstat))
      && (tv_nsec (st_mtim instat) <=? tv_nsec (st_mtim outstat))).

(** The order of the specification: pairs (seconds, nanoseconds) compared on
    the seconds first, the nanoseconds breaking ties. *)
Definition timespec_compare (a b : timespec) : comparison :=
  match tv_sec a ?= tv_sec b with
  | Eq => tv_nsec a ?= tv_nsec b
  | c => c
  end.

Definition timespec_ge (a b : timespec) : Prop := timespec_compare a b ≠ Lt.

(** ** Scanning and printing file names

    [sscanf] and [snprintf] are the C library's; they are modelled for the one
    format string the program uses, ["r.%i.%i.mca"], with [int] of 32 bits and
    [long] of 64. *)

Definition INT_MAX : Z := 2147483647.
Definition INT_MIN : Z := -2147483648.
Definition LONG_MAX : Z := 9223372036854775807.
Definition LONG_MIN : Z := -9223372036854775808.

(** [isspace] in the C locale. *)
Definition isspace (c : ascii) : bool :=
  let n := nat_of_ascii c in (n =? 32)%nat || ((9 <=? n)%nat && (n <=? 13)%nat).

Fixpoint skip_space (s : string) : string :=
  match s with
  | String c t => if isspace c then skip_space t else s
  | EmptyString => s
  end.

(** The value of [c] as a digit in [base], if it is one. *)
Definition digit_value (base : Z) (c : ascii) : option Z :=
  let n := Z.of_nat (nat_of_ascii c) in
  let v := if (48 <=? n) && (n <=? 57) then Some (n - 48)
           else if (97 <=? n) && (n <=? 102) then Some (n - 87)
           else if (65 <=? n) && (n <=? 70) then Some (n - 55)
           else None in
  match v with
  | Some d => if d <? base then Some d else None
  | None => None
  end.

(** The longest run of digits of [base] at the head of [s]: how many there
    are, their value after [acc], and the rest of the input. *)
Fixpoint scan_digits (base : Z) (count : nat) (acc : Z) (s : string) : nat * Z * string :=
  match s with
  | String c t =>
      match digit_value base c with
      | Some d => scan_digits base (S count) (acc * base + d) t
      | None => (count, acc, s)
      end
  | EmptyString => (count, acc, s)
  end.

(** [strtol] saturates at the range of [long]; the result is then stored
    through an [int *]. *)
Definition clamp_long (v : Z) : Z := Z.max LONG_MIN (Z.min LONG_MAX v).
Definition to_int (v : Z) : Z := (v + 2147483648) mod 4294967296 - 2147483648.

(** The conversion [%i]: white space is skipped, then an optional sign, then
    a number whose base follows its prefix ([0x] or [0X]: 16, [0]: 8,
    otherwise 10). After [0x] the C library at hand accepts an empty run of
    hexadecimal digits and reads the value 0. [None] is a matching or input
    failure. *)
Definition scan_i (s : string) : option (Z * string) :=
  let s := skip_space s in
  let '(negative, s) :=
    match s with
    | String "-" t => (true, t)
    | String "+" t => (false, t)
    | _ => (false, s)
    end in
  let '(count, v, rest) :=
    match s with
    | String "0" (String "x" t) | String "0" (String "X" t) =>
        let '(count, v, rest) := scan_digits 16 0 0 t in (S count, v, rest)
    | String "0" t => scan_digits 8 1 0 t
    | _ => scan_digits 10 0 0 s
    end in
  match count with
  | O => None
  | S _ => Some (to_int (clamp_long (if negative then - v else v)), rest)
  end.

(** [sscanf(d_name, "r.%i.%i.mca", &x, &z) == 2]: both conversions were made;
    whether the trailing [".mca"] of the format matches does not change the
    count. *)
Definition sscanf_r_i_i_mca (d_name : string) : option (Z * Z) :=
  match d_name with
  | String "r" (String "." s) =>
      match scan_i s with
      | Some (x, String "." s) =>
          match scan_i s with
          | Some (z, _) => Some (x, z)
          | None => None
          end
      | _ => None
      end
  | _ => None
  end.

(** The conversion [%i] of [printf]. *)
Definition print_i (v : Z) : string := NilZero.string_of_int (Z.to_int v).

(** The full output of the format ["r.%i.%i.mca"]. *)
Definition format_r_i_i_mca (x z : Z) : string :=
  "r." +:+ print_i x +:+ "." +:+ print_i z +:+ ".mca".

(** The first [n] characters of a string. *)
Definition substr_0 (s : string) (n : nat) : string := substring 0 n s.

(** The value of a sequence of decimal digits read from the left after the
    value [acc]. *)
Fixpoint uint_acc (d : Decimal.uint) (acc : Z) : Z :=
  match d with
  | Decimal.Nil => acc
  | Decimal.D0 l => uint_acc l (acc * 10 + 0)
  | Decimal.D1 l => uint_acc l (acc * 10 + 1)
  | Decimal.D2 l => uint_acc l (acc * 10 + 2)
  | Decimal.D3 l => uint_acc l (acc * 10 + 3)
  | Decimal.D4 l => uint_acc l (acc * 10 + 4)
  | Decimal.D5 l => uint_acc l (acc * 10 + 5)
  | Decimal.D6 l => uint_acc l (acc * 10 + 6)
  | Decimal.D7 l => uint_acc l (acc * 10 + 7)
  | Decimal.D8 l => uint_acc l (acc * 10 + 8)
  | Decimal.D9 l => uint_acc l (acc * 10 + 9)
  end.

(** The value of the decimal digits at the head of a string, read from the
    left after the value [acc]. *)
Fixpoint dec_value (acc : Z) (s : string) : Z :=
  match s with
  | String c t =>
      match digit_value 10 c with
      | Some d => dec_value (acc * 10 + d) t
      | None => acc
      end
  | EmptyString => acc
  end.

(** A string that is empty or goes on with a dot. *)
Definition stops (rest : string) : Prop :=
  match rest with
  | String c _ => c = "."%char
  | EmptyString => True
  end.

(** The names [r.X.Z], [r.X.Z.], [r.X.Z.m], [r.X.Z.mc] and [r.X.Z.mca]
    ([k] = 0 to 4 characters of the extension). *)
Definition region_name (x z : Z) (k : nat) : string :=
  "r." +:+ print_i x +:+ "." +:+ print_i z +:+ substr_0 ".mca" k.

(** [snprintf(buf, l, "r.%i.%i.mca", x, z)]: at most [l - 1] characters of the
    output are stored, then the terminating zero byte. The result is the
    bytes of [buf] that were written. *)
Definition snprintf_r_i_i_mca (l : nat) (x z : Z) : string :=
  match l with
  | O => ""
  | S n => substr_0 (format_r_i_i_mca x z) n +:+ String zero ""
  end.

(** [memcmp(a, b, l) == 0] on the first [l] bytes; bytes of [b] that were
    never written count as different (the comparison has then already found
    a difference at the zero byte that ends [b]). *)
Definition memcmp_eq (a b : string) (l : nat) : bool :=
  String.eqb (substr_0 a l) (substr_0 b l) && (l <=? String.length b)%nat.

(** Lines 163-168 of [main]: the entry is taken as a region file with the
    coordinates [(x, z)]. A [d_name] is a C string: it holds no zero byte. *)
Definition region_filename (d_name : string) : option (Z * Z) :=
  match sscanf_r_i_i_mca d_name with
  | Some (x, z) =>
      let l := (String.length d_name + 1)%nat in
      let buf := snprintf_r_i_i_mca l x z in
      if memcmp_eq (d_name +:+ String zero "") buf l then Some (x, z) else None
  | None => None
  end.

(** [name.length() - 3] in [size_t]: below 3 the difference wraps around to a
    count beyond any length, which [std::string::substr] cuts down to the
    length of the string. *)
Definition size_sub (len k : nat) : nat := if (len <? k)%nat then len else (len - k)%nat.

(** ** Sample data

    A small world used to run the definitions: one region file of time
    stamp 50 s in [data/region], and surroundings in which everything
    succeeds, or one step fails. The clock stands at 10 s, before the time
    stamp of the region file. *)

Definition sample_chunk : Chunk :=
  {| getTopLayer :=
       {| blocks := λ x z, {| getColor := 0x11223344 + Z.of_nat x + 16 * Z.of_nat z |} |} |}.

Definition sample_region : File :=
  {| content := Bytes [];
     st_mtim := {| tv_sec := 50; tv_nsec := 0 |};
     st_atim := {| tv_sec := 50; tv_nsec := 0 |} |}.

Definition sample_world : World :=
  {| files := {[ "data/region/r.0.0.mca" := sample_region ]};
     dirs := {[ "data/region" := [".."; "."; "r.0.0.mca"] ]};
     stderr := [] |}.

(** The same region with an image written at 40 s, before the region file
    was last changed, and with one written at 50 s; the output directory is
    listed too. *)
Definition sample_image (sec : Z) : File :=
  {| content := PNG [];
     st_mtim := {| tv_sec := sec; tv_nsec := 0 |};
     st_atim := {| tv_sec := sec; tv_nsec := 0 |} |}.

Definition sample_older_world : World :=
  {| files := {[ "data/region/r.0.0.mca" := sample_region;
                 "out/r.0.0.png" := sample_image 40 ]};
     dirs := {[ "data/region" := [".."; "."; "r.0.0.mca"];
                "out" := ["."; ".."; "r.0.0.png"] ]};
     stderr := [] |}.

Definition sample_newer_world : World :=
  {| files := {[ "data/region/r.0.0.mca" := sample_region;
                 "out/r.0.0.png" := sample_image 50 ]};
     dirs := {[ "data/region" := [".."; "."; "r.0.0.mca"];
                "out" := ["."; ".."; "r.0.0.png"] ]};
     stderr := [] |}.

(** An empty output directory. *)
Definition sample_out_world : World :=
  {| files := {[ "data/region/r.0.0.mca" := sample_region ]};
     dirs := {[ "data/region" := [".."; "."; "r.0.0.mca"];
                "out" := ["."; ".."] ]};
     stderr := [] |}.


(** A directory with the regions (-2, 3) and (4, -1) and a stray file. *)
Definition sample_box_world : World :=
  {| files := {[ "data/region/r.-2.3.mca" := sample_region;
                 "data/region/r.4.-1.mca" := sample_region;
                 "data/region/notes.txt" := sample_region ]};
     dirs := {[ "data/region" := ["."; "r.-2.3.mca"; "notes.txt"; "r.4.-1.mca"; ".."] ]};
     stderr := [] |}.

Definition sample_argv : list string := ["MinedMap"; "data"; "out"].

Definition all_succeeds : Env :=
  {| visitChunks := Return [(0%nat, 0%nat, sample_chunk)];
     png_outcome := PngWritten;
     fopen_strerror := "Permission denied";
     clock := {| tv_sec := 10; tv_nsec := 0 |};
     utimensat_ok := true;
     rename_ok := true;
     unlink_ok := true |}.

Definition utimensat_fails : Env :=
  {| visitChunks := Return [(0%nat, 0%nat, sample_chunk)];
     png_outcome := PngWritten;
     fopen_strerror := "Permission denied";
     clock := {| tv_sec := 10; tv_nsec := 0 |};
     utimensat_ok := false;
     rename_ok := true;
     unlink_ok := true |}.

Definition rename_fails : Env :=
  {| visitChunks := Return [(0%nat, 0%nat, sample_chunk)];
     png_outcome := PngWritten;
     fopen_strerror := "Permission denied";
     clock := {| tv_sec := 10; tv_nsec := 0 |};
     utimensat_ok := true;
     rename_ok := false;
     unlink_ok := true |}.

Definition decode_fails : Env :=
  {| visitChunks := Throw "bad region";
     png_outcome := PngWritten;
     fopen_strerror := "Permission denied";
     clock := {| tv_sec := 10; tv_nsec := 0 |};
     utimensat_ok := true;
     rename_ok := true;
     unlink_ok := true |}.

(** The rename fails, and so does the [unlink] after it. *)
Definition unlink_fails : Env :=
  {| visitChunks := Return [(0%nat, 0%nat, sample_chunk)];
     png_outcome := PngWritten;
     fopen_strerror := "Permission denied";
     clock := {| tv_sec := 10; tv_nsec := 0 |};
     utimensat_ok := true;
     rename_ok := false;
     unlink_ok := false |}.

(** The final [fclose] fails with 4096 bytes in the file. *)
Definition fclose_fails : Env :=
  {| visitChunks := Return [(0%nat, 0%nat, sample_chunk)];
     png_outcome := FcloseFails 4096;
     fopen_strerror := "Permission denied";
     clock := {| tv_sec := 10; tv_nsec := 0 |};
     utimensat_ok := true;
     rename_ok := true;
     unlink_ok := true |}.


Section MinedMap.

(** [World::Region::SIZE] and [World::Chunk::SIZE] (header constants), and the
    byte order of the host. *)
Variables Region_SIZE Chunk_SIZE : nat.
Variable host_big_endian : bool.

Definition DIM : nat := (Region_SIZE * Chunk_SIZE)%nat.

(** [htonl]: the argument is a [uint32_t]. *)
Definition htonl (hostlong : Z) : Z :=
  if host_big_endian then Z.land hostlong 0xffffffff else bswap_32 hostlong.

(** The bytes of a stored 32-bit cell in address order, as [writePNG] reads
    them through its [uint8_t] row pointers. *)
Definition memory_bytes (v : Z) : list Z :=
  if host_big_endian
  then [byte_of v 3; byte_of v 2; byte_of v 1; byte_of v 0]
  else [byte_of v 0; byte_of v 1; byte_of v 2; byte_of v 3].

(** ** Tile compositor *)

(** The grid [uint32_t image[DIM][DIM]] is one block of [DIM * DIM] cells;
    [image[r][c]] is the cell at offset [r * DIM + c]. A store outside the
    block is undefined in the source; here it leaves the grid as it is. *)
Definition cell_index (r c : nat) : nat := (r * DIM + c)%nat.

Definition cell (image : list Z) (r c : nat) : option Z := image !! cell_index r c.

(** One assignment [image[r][c] = v], as the pair of its offset and value. *)
Definition store (image : list Z) (w : nat * Z) : list Z := <[w.1 := w.2]> image.

(** The assignment of the loop body for the column [(x, z)]. *)
Definition column_store (X Zc : nat) (layer : Blocks) (x z : nat) : nat * Z :=
  (cell_index (Zc * Chunk_SIZE + z) (X * Chunk_SIZE + x),
   htonl (getColor (blocks layer x z))).

Definition addChunk (image : list Z) (X Zc : nat) (chunk : Chunk) : list Z :=
  let layer := getTopLayer chunk in
  foldl (λ image x,
           foldl (λ image z, store image (column_store X Zc layer x z))
                 image (seq 0 Chunk_SIZE))
        image (seq 0 Chunk_SIZE).

(** The assignments [addChunk] performs, in the order of its two loops. *)
Definition addChunk_stores (X Zc : nat) (chunk : Chunk) : list (nat * Z) :=
  let layer := getTopLayer chunk in
  x ← seq 0 Chunk_SIZE; z ← seq 0 Chunk_SIZE; [column_store X Zc layer x z].

(** [uint32_t image[DIM][DIM] = {}]. *)
Definition empty_image : list Z := replicate (DIM * DIM) 0.

(** The callback of [doRegion] applied to every chunk the visitor delivers. *)
Definition compose (image : list Z) (chunks : list Visit) : list Z :=
  foldl (λ image v, addChunk image v.1.1 v.1.2 v.2) image chunks.

Definition compose_stores (chunks : list Visit) : list (nat * Z) :=
  v ← chunks; addChunk_stores v.1.1 v.1.2 v.2.

(** The iteration contract of the region visitor: every chunk it delivers
    has its coordinates in [[0, Region_SIZE)], and no slot is delivered
    twice. *)
Definition in_range (v : Visit) : Prop :=
  (v.1.1 < Region_SIZE)%nat ∧ (v.1.2 < Region_SIZE)%nat.

Definition visitor_contract (chunks : list Visit) : Prop :=
  Forall in_range chunks ∧ NoDup (slot <$> chunks).

(** ** Image publisher *)

(** [writePNG]. The [std::system_error] thrown when [fopen] fails carries
    the text of [errno] after the message. The two [throw]s after it leave
    the file as [fopen] made it. The source does not examine the result of
    the final [fclose]: the function returns normally whether the stream
    reached the file or not. *)
Definition writePNG (e : Env) (w : World) (filename : string) (data : list Z)
  : World * Except unit :=
  match png_outcome e with
  | FopenFails => (w, Throw ("unable to open output file: " +:+ fopen_strerror e))
  | CreateWriteStructFails =>
      (fopen_wb w (clock e) filename, Throw "unable to create PNG write struct")
  | CreateInfoStructFails =>
      (fopen_wb w (clock e) filename, Throw "unable to create PNG info struct")
  | WriteError n =>
      (write_stream (fopen_wb w (clock e) filename) (clock e) filename (Partial n),
       Throw "unable to write PNG file")
  | FcloseFails n =>
      (write_stream (fopen_wb w (clock e) filename) (clock e) filename (Partial n),
       Return ())
  | PngWritten =>
      (write_stream (fopen_wb w (clock e) filename) (clock e) filename (PNG data),
       Return ())
  end.

(** The body of the [try] block of [doRegion]. The result of [unlink] is
    not examined: whether the temporary file is gone after a failed [rename]
    is up to the surroundings. *)
Definition doRegion_try (e : Env) (w : World) (instat : File)
    (input output tmpfile : string) : World * Except unit :=
  match visitChunks e with
  | Throw what => (w, Throw what)
  | Return chunks =>
      let image := compose empty_image chunks in
      match writePNG e w tmpfile image with
      | (w, Throw what) => (w, Throw what)
      | (w, Return _) =>
          let w :=
            if utimensat_ok e
            then utimensat w tmpfile (st_mtim instat) (st_mtim instat)
            else fprintf_stderr w (MsgWarnUtime tmpfile) in
          if rename_ok e
          then (rename w tmpfile output, Return ())
          else
            let w := fprintf_stderr w (MsgUnableToSave output) in
            (if unlink_ok e then unlink w tmpfile else w, Return ())
      end
  end.

(** [doRegion]. The [catch] block prints the [what()] of the exception and
    calls [unlink] on the temporary path, again without examining the
    result. *)
Definition doRegion (e : Env) (w : World) (input output : string) : World :=
  match stat w input with
  | None => fprintf_stderr w (MsgUnableToStat input)
  | Some instat =>
      let up_to_date :=
        match stat w output with
        | Some outstat => mtime_not_newer instat outstat
        | None => false
        end in
      if up_to_date then fprintf_stderr w (MsgUpToDate output)
      else
        let w := fprintf_stderr w (MsgGenerating output input) in
        let tmpfile := output +:+ ".tmp" in
        match doRegion_try e w instat input output tmpfile with
        | (w, Return _) => w
        | (w, Throw what) =>
            let w := fprintf_stderr w (MsgFailedToGenerate output what) in
            if unlink_ok e then unlink w tmpfile else w
        end
  end.

(** What the stream of [writePNG] left in the file when the function
    returned normally. *)
Definition written (e : Env) (chunks : list Visit) : Content :=
  match png_outcome e with
  | FcloseFails n => Partial n
  | _ => PNG (compose empty_image chunks)
  end.

(** The file a pass leaves at the output path when it gets through the
    [rename]: what was written, with the time stamps of the input when
    [utimensat] succeeded, and those of its writing otherwise ([old_tmp] is
    what the temporary path held before). *)
Definition renamed_file (e : Env) (instat : File) (old_tmp : option File)
    (chunks : list Visit) : File :=
  {| content := written e chunks;
     st_mtim := if utimensat_ok e then st_mtim instat else clock e;
     st_atim := if utimensat_ok e then st_mtim instat
                else match old_tmp with
                     | Some f => st_atim f
                     | None => clock e
                     end |}.

(** The same when the whole encoding had reached the file. *)
Definition published_file (e : Env) (instat : File) (old_tmp : option File)
    (chunks : list Visit) : File :=
  {| content := PNG (compose empty_image chunks);
     st_mtim := if utimensat_ok e then st_mtim instat else clock e;
     st_atim := if utimensat_ok e then st_mtim instat
                else match old_tmp with
                     | Some f => st_atim f
                     | None => clock e
                     end |}.

(** The input is newer than what the output path holds, if anything. *)
Definition stale (w : World) (instat : File) (output : string) : Prop :=
  match stat w output with
  | Some outstat => mtime_not_newer instat outstat = false
  | None => True
  end.

(** The output path holds a file that is not older than the input. *)
Definition settled (w : World) (input output : string) : Prop :=
  ∃ instat outstat,
    stat w input = Some instat ∧ stat w output = Some outstat
    ∧ mtime_not_newer instat outstat = true.

(** ** Region batch driver *)

(** What [main] keeps across the [readdir] loop. *)
Record Loop := {
  world : World;
  minX : Z; maxX : Z; minZ : Z; maxZ : Z
}.

(** The two path arguments [main] passes to [doRegion] for the entry
    [name]. *)
Definition input_path (inputdir name : string) : string :=
  inputdir +:+ "/" +:+ name.

Definition output_path (outputdir name : string) : string :=
  outputdir +:+ "/" +:+ substr_0 name (size_sub (String.length name) 3) +:+ "png".

(** The body of the [while] loop for one directory entry; [e] is what the
    surroundings decide during this entry's [doRegion]. *)
Definition main_entry (inputdir outputdir : string) (e : Env) (st : Loop)
    (d_name : string) : Loop :=
  match region_filename d_name with
  | None => st
  | Some (x, z) =>
      let name := d_name in
      {| world := doRegion e (world st)
                    (input_path inputdir name) (output_path outputdir name);
         minX := if x <? minX st then x else minX st;
         maxX := if x >? maxX st then x else maxX st;
         minZ := if z <? minZ st then z else minZ st;
         maxZ := if z >? maxZ st then z else maxZ st |}
  end.

(** The [while ((entry = readdir(dir)) != nullptr)] loop over the entries
    [readdir] returns; [oracle i] belongs to the entry number [i]. *)
Fixpoint main_loop (inputdir outputdir : string) (oracle : nat → Env) (i : nat)
    (entries : list string) (st : Loop) : Loop :=
  match entries with
  | [] => st
  | d_name :: entries =>
      main_loop inputdir outputdir oracle (S i) entries
        (main_entry inputdir outputdir (oracle i) st d_name)
  end.

(** [main]: [argv] holds the [argc] arguments; the result is the world left
    behind, the bounding box and the exit code. *)
Definition main (oracle : nat → Env) (argv : list string) (w : World) : Loop * Z :=
  let start w := {| world := w; minX := INT_MAX; maxX := INT_MIN;
                    minZ := INT_MAX; maxZ := INT_MIN |} in
  if Z.of_nat (length argv) <? 3 then
    (start (fprintf_stderr w (MsgUsage (nth 0 argv ""))), 1)
  else
    let inputdir := nth 1 argv "" +:+ "/region" in
    let outputdir := nth 2 argv "" in
    match dirs w !! inputdir with
    | None => (start (fprintf_stderr w MsgUnableToReadDir), 1)
    | Some entries => (main_loop inputdir outputdir oracle 0 entries (start w), 0)
    end.

(** The entries of a directory listing that the filename check accepts. *)
Definition accepted (entries : list string) : list string :=
  filter (λ name, is_Some (region_filename name)) entries.

(** The coordinates [main] reads from the accepted entries, in the order of
    the listing. *)
Definition coordinates (entries : list string) : list (Z * Z) :=
  omap region_filename entries.

(** Lines 90-92 of [writePNG]: [row_pointers[i]] points at row [i] of the
    grid, read as bytes in address order. *)
Definition image_row (data : list Z) (i : nat) : list Z :=
  take DIM (drop (i * DIM) data).

Definition row_pointers (data : list Z) : list (list Z) :=
  (λ i, image_row data i ≫= memory_bytes) <$> seq 0 DIM.

(** The four bytes of the pixel in column [c] of a row of bytes. *)
Definition pixel_bytes (row : list Z) (c : nat) : list Z :=
  take 4 (drop (4 * c) row).

(** * Properties *)

(** ** Sequences of stores *)

Lemma foldl_bind {A B C} (f : A → B → A) (g : C → list B) (l : list C) (a : A) :
  foldl f a (l ≫= g) = foldl (λ a x, foldl f a (g x)) a l.
Proof.
  revert a. induction l as [|x l IH]; intros a; [done|].
  cbn [mbind list_bind foldl]. by rewrite foldl_app, <- IH.
Qed.

Lemma foldl_pointwise {A B} (f g : A → B → A) (l : list B) (a : A) :
  (∀ a x, f a x = g a x) → foldl f a l = foldl g a l.
Proof.
  intros Hfg. revert a. induction l as [|x l IH]; intros a; [done|].
  cbn [foldl]. by rewrite Hfg, IH.
Qed.

Lemma foldl_singleton_bind {A B C} (f : A → B → A) (g : C → B) (l : list C) (a : A) :
  foldl f a (l ≫= λ x, [g x]) = foldl (λ a x, f a (g x)) a l.
Proof. by rewrite foldl_bind. Qed.

Lemma foldl_store_length (ws : list (nat * Z)) (image : list Z) :
  length (foldl store image ws) = length image.
Proof.
  revert image. induction ws as [|w ws IH]; intros image; [done|].
  cbn [foldl]. rewrite IH. apply length_insert.
Qed.

Lemma foldl_store_notin (ws : list (nat * Z)) (image : list Z) (i : nat) :
  i ∉ ws.*1 → foldl store image ws !! i = image !! i.
Proof.
  revert image. induction ws as [|[j v] ws IH]; intros image Hi; [done|].
  rewrite fmap_cons, not_elem_of_cons in Hi. destruct Hi as [Hne Hi].
  cbn [foldl]. rewrite IH by done. unfold store; cbn [fst snd].
  by rewrite list_lookup_insert_ne.
Qed.

Lemma foldl_store_in (ws : list (nat * Z)) (image : list Z) (i : nat) (v : Z) :
  NoDup ws.*1 → (i, v) ∈ ws → (i < length image)%nat →
  foldl store image ws !! i = Some v.
Proof.
  revert image. induction ws as [|[j u] ws IH]; intros image Hnd Hin Hlt.
  { by apply elem_of_nil in Hin. }
  rewrite fmap_cons in Hnd. apply NoDup_cons in Hnd as [Hj Hnd].
  cbn [foldl]. apply elem_of_cons in Hin as [Heq|Hin].
  - injection Heq as -> ->. rewrite foldl_store_notin by done.
    unfold store; cbn [fst snd]. by apply list_lookup_insert_eq.
  - apply IH; [done..|]. unfold store. by rewrite length_insert.
Qed.

Lemma store_foldl_store (ws : list (nat * Z)) (image : list Z) (w : nat * Z) :
  w.1 ∉ ws.*1 → foldl store (store image w) ws = store (foldl store image ws) w.
Proof.
  revert image. induction ws as [|u ws IH]; intros image Hw; [done|].
  rewrite fmap_cons, not_elem_of_cons in Hw. destruct Hw as [Hne Hw].
  cbn [foldl]. rewrite <- IH by done. f_equal.
  unfold store. by apply list_insert_insert_ne.
Qed.

(** Two runs of stores on disjoint cells can be swapped. *)
Lemma foldl_store_swap (ws us : list (nat * Z)) (image : list Z) :
  (∀ i, i ∈ ws.*1 → i ∉ us.*1) →
  foldl store (foldl store image ws) us = foldl store (foldl store image us) ws.
Proof.
  revert image. induction ws as [|w ws IH]; intros image Hd; [done|].
  cbn [foldl]. rewrite IH.
  - f_equal. apply store_foldl_store. apply Hd. rewrite fmap_cons. left.
  - intros i Hi. apply Hd. rewrite fmap_cons. by right.
Qed.

(** ** Byte order *)

Lemma testbit_mask (x s m : Z) :
  0 ≤ s → 0 ≤ m →
  Z.testbit (Z.land x (Z.shiftl (Z.ones 8) s)) m
  = Z.testbit x m && ((s <=? m) && (m <? s + 8)).
Proof.
  intros Hs Hm. rewrite Z.land_spec. f_equal.
  destruct (Z.leb_spec s m).
  - rewrite Z.shiftl_spec, Z.testbit_ones_nonneg by lia.
    destruct (Z.ltb_spec (m - s) 8), (Z.ltb_spec m (s + 8)); try reflexivity; lia.
  - by rewrite Z.shiftl_spec_low by lia.
Qed.

Lemma testbit_shiftl_nonneg (y s m : Z) :
  0 ≤ s → 0 ≤ m →
  Z.testbit (Z.shiftl y s) m = (s <=? m) && Z.testbit y (m - s).
Proof.
  intros Hs Hm. destruct (Z.leb_spec s m).
  - by rewrite Z.shiftl_spec by lia.
  - by rewrite Z.shiftl_spec_low by lia.
Qed.

Lemma testbit_bswap_32 (x m : Z) :
  0 ≤ m →
  Z.testbit (bswap_32 x) m =
  if m <? 8 then Z.testbit x (m + 24)
  else if m <? 16 then Z.testbit x (m + 8)
  else if m <? 24 then Z.testbit x (m - 8)
  else if m <? 32 then Z.testbit x (m - 24)
  else false.
Proof.
  intros Hm. unfold bswap_32.
  change 0xff000000 with (Z.shiftl (Z.ones 8) 24).
  change 0x00ff0000 with (Z.shiftl (Z.ones 8) 16).
  change 0x0000ff00 with (Z.shiftl (Z.ones 8) 8).
  change 0x000000ff with (Z.shiftl (Z.ones 8) 0).
  rewrite !Z.lor_spec, !Z.shiftr_spec, !testbit_shiftl_nonneg by lia.
  rewrite !(testbit_mask x _ (m + _)) by lia.
  destruct (Z.ltb_spec m 8); [|destruct (Z.ltb_spec m 16);
    [|destruct (Z.ltb_spec m 24); [|destruct (Z.ltb_spec m 32)]]];
  repeat match goal with
  | |- context [?a <=? ?b] => destruct (Z.leb_spec a b); try lia
  | |- context [?a <? ?b] => destruct (Z.ltb_spec a b); try lia
  end; cbn [andb orb]; rewrite ?testbit_mask by lia;
  repeat match goal with
  | |- context [?a <=? ?b] => destruct (Z.leb_spec a b); try lia
  | |- context [?a <? ?b] => destruct (Z.ltb_spec a b); try lia
  end; cbn [andb orb]; rewrite ?andb_false_r, ?andb_true_r, ?orb_false_r; reflexivity.
Qed.

Lemma testbit_byte_of (v k n : Z) :
  0 ≤ k → 0 ≤ n →
  Z.testbit (byte_of v k) n = Z.testbit v (n + 8 * k) && (n <? 8).
Proof.
  intros Hk Hn. unfold byte_of. change 0xff with (Z.ones 8).
  by rewrite Z.land_spec, Z.shiftr_spec, Z.testbit_ones_nonneg by lia.
Qed.

Lemma byte_of_bswap_32 (x k : Z) :
  0 ≤ k ≤ 3 → byte_of (bswap_32 x) k = byte_of x (3 - k).
Proof.
  intros Hk. apply Z.bits_inj'. intros n Hn.
  rewrite !testbit_byte_of, testbit_bswap_32 by lia.
  destruct (Z.ltb_spec n 8); [|by rewrite !andb_false_r].
  rewrite !andb_true_r.
  assert (k = 0 ∨ k = 1 ∨ k = 2 ∨ k = 3) as [->|[->|[->| ->]]] by lia;
  repeat match goal with
  | |- context [?a <? ?b] => destruct (Z.ltb_spec a b); try lia
  end; f_equal; lia.
Qed.

Lemma byte_of_land_32 (x k : Z) :
  0 ≤ k ≤ 3 → byte_of (Z.land x 0xffffffff) k = byte_of x k.
Proof.
  intros Hk. unfold byte_of.
  change 0xffffffff with (Z.ones 32). change 0xff with (Z.ones 8).
  apply Z.bits_inj'. intros n Hn.
  rewrite !Z.land_spec, !Z.shiftr_spec, Z.land_spec by lia.
  destruct (Z.lt_ge_cases n 8) as [Hlt|Hge].
  - rewrite (Z.testbit_ones_nonneg 32 (n + 8 * k)) by lia.
    replace (n + 8 * k <? 32) with true by (symmetry; apply Z.ltb_lt; lia).
    by rewrite andb_true_r.
  - rewrite (Z.testbit_ones_nonneg 8 n) by lia.
    replace (n <? 8) with false by (symmetry; apply Z.ltb_ge; lia).
    by rewrite !andb_false_r.
Qed.

(** Whatever the byte order of the host, the cell [htonl] produces lies in
    memory with the most significant byte of the colour first. *)
Lemma htonl_network_order (color : Z) :
  memory_bytes (htonl color) = network_bytes color.
Proof.
  unfold memory_bytes, htonl, network_bytes. destruct host_big_endian.
  - by rewrite !byte_of_land_32 by lia.
  - by rewrite !byte_of_bswap_32 by lia.
Qed.

(** ** Offsets of the stores of [addChunk] *)

Lemma cell_index_inj (r c r' c' : nat) :
  (c < DIM)%nat → (c' < DIM)%nat →
  cell_index r c = cell_index r' c' → r = r' ∧ c = c'.
Proof.
  unfold cell_index. generalize DIM. intros d Hc Hc' Heq.
  assert (r = r') as -> by (destruct (Nat.lt_trichotomy r r') as [H|[H|H]]; [|done|]; nia).
  split; [done|lia].
Qed.

Lemma column_inj (X x X' x' : nat) :
  (x < Chunk_SIZE)%nat → (x' < Chunk_SIZE)%nat →
  (X * Chunk_SIZE + x = X' * Chunk_SIZE + x')%nat → X = X' ∧ x = x'.
Proof.
  intros Hx Hx' Heq.
  assert (X = X') as -> by (destruct (Nat.lt_trichotomy X X') as [H|[H|H]]; [|done|]; nia).
  split; [done|lia].
Qed.

Lemma column_lt_DIM (X x : nat) :
  (X < Region_SIZE)%nat → (x < Chunk_SIZE)%nat → (X * Chunk_SIZE + x < DIM)%nat.
Proof. unfold DIM. intros HX Hx. nia. Qed.

Lemma cell_index_lt (r c : nat) :
  (r < DIM)%nat → (c < DIM)%nat → (cell_index r c < DIM * DIM)%nat.
Proof. unfold cell_index. intros Hr Hc. nia. Qed.

Lemma column_store_inj (X Zc X' Zc' : nat) (layer layer' : Blocks) (x z x' z' : nat) :
  (X < Region_SIZE)%nat → (X' < Region_SIZE)%nat →
  (x < Chunk_SIZE)%nat → (z < Chunk_SIZE)%nat →
  (x' < Chunk_SIZE)%nat → (z' < Chunk_SIZE)%nat →
  (column_store X Zc layer x z).1 = (column_store X' Zc' layer' x' z').1 →
  X = X' ∧ Zc = Zc' ∧ x = x' ∧ z = z'.
Proof.
  intros HX HX' Hx Hz Hx' Hz'. unfold column_store; cbn [fst].
  intros Heq. apply cell_index_inj in Heq as [Hr Hc]; [|by apply column_lt_DIM..].
  apply column_inj in Hr as [-> ->]; [|done..].
  by apply column_inj in Hc as [-> ->].
Qed.

Lemma elem_of_addChunk_stores (X Zc : nat) (chunk : Chunk) (w : nat * Z) :
  w ∈ addChunk_stores X Zc chunk ↔
  ∃ x z, (x < Chunk_SIZE)%nat ∧ (z < Chunk_SIZE)%nat
         ∧ w = column_store X Zc (getTopLayer chunk) x z.
Proof.
  unfold addChunk_stores. rewrite list_elem_of_bind. split.
  - intros (x & Hw & Hx). apply list_elem_of_bind in Hw as (z & Hw & Hz).
    apply list_elem_of_singleton in Hw. apply elem_of_seq in Hx, Hz.
    exists x, z. split_and!; [lia..|done].
  - intros (x & z & Hx & Hz & ->). exists x. split; [|apply elem_of_seq; lia].
    apply list_elem_of_bind. exists z. split; [|apply elem_of_seq; lia].
    by apply list_elem_of_singleton.
Qed.

Lemma elem_of_addChunk_offsets (X Zc : nat) (chunk : Chunk) (i : nat) :
  i ∈ (addChunk_stores X Zc chunk).*1 ↔
  ∃ x z, (x < Chunk_SIZE)%nat ∧ (z < Chunk_SIZE)%nat
         ∧ i = cell_index (Zc * Chunk_SIZE + z) (X * Chunk_SIZE + x).
Proof.
  rewrite list_elem_of_fmap. split.
  - intros (w & -> & Hw). apply elem_of_addChunk_stores in Hw as (x & z & Hx & Hz & ->).
    by exists x, z.
  - intros (x & z & Hx & Hz & ->).
    exists (column_store X Zc (getTopLayer chunk) x z). split; [done|].
    apply elem_of_addChunk_stores. by exists x, z.
Qed.

Lemma addChunk_as_stores (image : list Z) (X Zc : nat) (chunk : Chunk) :
  addChunk image X Zc chunk = foldl store image (addChunk_stores X Zc chunk).
Proof.
  unfold addChunk, addChunk_stores. rewrite foldl_bind.
  apply foldl_pointwise. intros img x. by rewrite foldl_singleton_bind.
Qed.

Lemma compose_as_stores (image : list Z) (chunks : list Visit) :
  compose image chunks = foldl store image (compose_stores chunks).
Proof.
  unfold compose, compose_stores. rewrite foldl_bind.
  apply foldl_pointwise. intros img v. apply addChunk_as_stores.
Qed.

Lemma addChunk_stores_inj (X Zc X' Zc' : nat) (chunk chunk' : Chunk) (w w' : nat * Z) :
  (X < Region_SIZE)%nat → (X' < Region_SIZE)%nat →
  w ∈ addChunk_stores X Zc chunk → w' ∈ addChunk_stores X' Zc' chunk' →
  w.1 = w'.1 → X = X' ∧ Zc = Zc' ∧ (chunk = chunk' → w = w').
Proof.
  intros HX HX' Hw Hw' Heq.
  apply elem_of_addChunk_stores in Hw as (x & z & Hx & Hz & ->).
  apply elem_of_addChunk_stores in Hw' as (x' & z' & Hx' & Hz' & ->).
  apply column_store_inj in Heq as (-> & -> & -> & ->); [|done..].
  split_and!; [done..|]. by intros ->.
Qed.

Lemma addChunk_stores_NoDup (X Zc : nat) (chunk : Chunk) :
  (X < Region_SIZE)%nat → NoDup (addChunk_stores X Zc chunk).
Proof.
  intros HX. unfold addChunk_stores.
  apply NoDup_bind; [| |apply NoDup_seq].
  - intros x1 x2 w Hx1 Hx2 H1 H2. apply elem_of_seq in Hx1, Hx2.
    apply list_elem_of_bind in H1 as (z1 & H1 & Hz1), H2 as (z2 & H2 & Hz2).
    apply elem_of_seq in Hz1, Hz2.
    apply list_elem_of_singleton in H1, H2. subst w.
    apply (f_equal fst) in H2.
    apply column_store_inj in H2 as (_ & _ & ? & _); [done|lia..].
  - intros x Hx. apply elem_of_seq in Hx.
    apply NoDup_bind; [| |apply NoDup_seq].
    + intros z1 z2 w Hz1 Hz2 H1 H2. apply elem_of_seq in Hz1, Hz2.
      apply list_elem_of_singleton in H1, H2. subst w.
      apply (f_equal fst) in H2.
      apply column_store_inj in H2 as (_ & _ & _ & ?); [done|lia..].
    + intros z _. apply NoDup_singleton.
Qed.

(** Within one [addChunk], no cell is assigned twice. *)
Lemma addChunk_offsets_NoDup (X Zc : nat) (chunk : Chunk) :
  (X < Region_SIZE)%nat → NoDup (addChunk_stores X Zc chunk).*1.
Proof.
  intros HX. apply NoDup_fmap_2_strong; [|by apply addChunk_stores_NoDup].
  intros w w' Hw Hw' Heq.
  by eapply (addChunk_stores_inj X Zc X Zc chunk chunk w w').
Qed.

(** Chunks at different slots assign different cells. *)
Lemma addChunk_offsets_disjoint (X Zc X' Zc' : nat) (chunk chunk' : Chunk) (i : nat) :
  (X < Region_SIZE)%nat → (X' < Region_SIZE)%nat → (X, Zc) ≠ (X', Zc') →
  i ∈ (addChunk_stores X Zc chunk).*1 → i ∉ (addChunk_stores X' Zc' chunk').*1.
Proof.
  intros HX HX' Hne Hi Hi'.
  apply list_elem_of_fmap in Hi as (w & -> & Hw), Hi' as (w' & Heq & Hw').
  destruct (addChunk_stores_inj X Zc X' Zc' chunk chunk' w w') as (-> & -> & _); done.
Qed.

Lemma elem_of_compose_offsets (chunks : list Visit) (i : nat) :
  i ∈ (compose_stores chunks).*1 ↔
  ∃ v, v ∈ chunks ∧ i ∈ (addChunk_stores v.1.1 v.1.2 v.2).*1.
Proof.
  unfold compose_stores. rewrite list_elem_of_fmap. split.
  - intros (w & -> & Hw). apply list_elem_of_bind in Hw as (v & Hw & Hv).
    exists v. split; [done|]. by apply list_elem_of_fmap_2.
  - intros (v & Hv & Hi). apply list_elem_of_fmap in Hi as (w & -> & Hw).
    exists w. split; [done|]. apply list_elem_of_bind. by exists v.
Qed.

(** Under the visitor's contract no cell is assigned twice in a whole pass. *)
Lemma compose_offsets_NoDup (chunks : list Visit) :
  visitor_contract chunks → NoDup (compose_stores chunks).*1.
Proof.
  intros [Hrange Hslots]. induction chunks as [|v chunks IH]; [constructor|].
  apply Forall_cons in Hrange as [[HX HZ] Hrange].
  rewrite fmap_cons in Hslots. apply NoDup_cons in Hslots as [Hv Hslots].
  unfold compose_stores. cbn [mbind list_bind]. rewrite fmap_app.
  apply NoDup_app. split_and!.
  - by apply addChunk_offsets_NoDup.
  - intros i Hi Hi'. apply elem_of_compose_offsets in Hi' as (v' & Hv' & Hi').
    apply (addChunk_offsets_disjoint v.1.1 v.1.2 v'.1.1 v'.1.2 v.2 v'.2 i); [done| |  |done..].
    + rewrite Forall_forall in Hrange. by apply Hrange.
    + intros Heq. apply Hv. apply list_elem_of_fmap. exists v'. split; [|done].
      unfold slot. done.
  - by apply IH.
Qed.

(** A chunk's column is in the grid at its place afterwards. *)
Lemma addChunk_lookup (image : list Z) (X Zc : nat) (chunk : Chunk) (x z : nat) :
  (X < Region_SIZE)%nat → (Zc < Region_SIZE)%nat →
  (x < Chunk_SIZE)%nat → (z < Chunk_SIZE)%nat →
  length image = (DIM * DIM)%nat →
  cell (addChunk image X Zc chunk) (Zc * Chunk_SIZE + z) (X * Chunk_SIZE + x)
  = Some (htonl (getColor (blocks (getTopLayer chunk) x z))).
Proof.
  intros HX HZ Hx Hz Hlen. unfold cell. rewrite addChunk_as_stores.
  apply foldl_store_in.
  - by apply addChunk_offsets_NoDup.
  - apply elem_of_addChunk_stores. by exists x, z.
  - rewrite Hlen. apply cell_index_lt; by apply column_lt_DIM.
Qed.

(** The cells outside a chunk's block are left as they were. *)
Lemma addChunk_frame (image : list Z) (X Zc : nat) (chunk : Chunk) (i : nat) :
  i ∉ (addChunk_stores X Zc chunk).*1 → addChunk image X Zc chunk !! i = image !! i.
Proof. intros Hi. rewrite addChunk_as_stores. by apply foldl_store_notin. Qed.

Lemma addChunk_length (image : list Z) (X Zc : nat) (chunk : Chunk) :
  length (addChunk image X Zc chunk) = length image.
Proof. rewrite addChunk_as_stores. apply foldl_store_length. Qed.

Lemma addChunk_swap (image : list Z) (X Zc X' Zc' : nat) (chunk chunk' : Chunk) :
  (X < Region_SIZE)%nat → (X' < Region_SIZE)%nat → (X, Zc) ≠ (X', Zc') →
  addChunk (addChunk image X Zc chunk) X' Zc' chunk'
  = addChunk (addChunk image X' Zc' chunk') X Zc chunk.
Proof.
  intros HX HX' Hne. rewrite !addChunk_as_stores. apply foldl_store_swap.
  intros i. by apply addChunk_offsets_disjoint.
Qed.

Lemma visitor_contract_Permutation (l l' : list Visit) :
  l ≡ₚ l' → visitor_contract l → visitor_contract l'.
Proof.
  intros Hp [Hr Hs]. split.
  - by rewrite <- Hp.
  - by rewrite <- Hp.
Qed.

Lemma compose_Permutation (image : list Z) (l l' : list Visit) :
  l ≡ₚ l' → visitor_contract l → compose image l = compose image l'.
Proof.
  intros Hp. revert image. induction Hp as [|v l l' Hp IH|v v' l|l l' l'' Hp IH Hp' IH'];
    intros image Hc.
  - done.
  - cbn [compose foldl]. apply IH. destruct Hc as [Hr Hs]. split.
    + by apply Forall_cons in Hr as [_ ?].
    + rewrite fmap_cons in Hs. by apply NoDup_cons in Hs as [_ ?].
  - unfold compose. cbn [foldl]. f_equal. destruct Hc as [Hr Hs].
    apply Forall_cons in Hr as [[HX' _] Hr]. apply Forall_cons in Hr as [[HX _] _].
    rewrite !fmap_cons in Hs. apply NoDup_cons in Hs as [Hne _].
    apply addChunk_swap; [done..|]. intros Heq. apply Hne.
    apply elem_of_cons. by left.
  - rewrite IH by done. apply IH'. by eapply visitor_contract_Permutation.
Qed.

Lemma visitor_contract_NoDup (l : list Visit) : visitor_contract l → NoDup l.
Proof. intros [_ Hs]. by eapply NoDup_fmap_1. Qed.

Lemma empty_image_length : length empty_image = (DIM * DIM)%nat.
Proof. apply length_replicate. Qed.

Lemma empty_image_lookup (i : nat) : (i < DIM * DIM)%nat → empty_image !! i = Some 0.
Proof. intros Hi. by apply lookup_replicate_2. Qed.

(** The block of a slot no delivered chunk has stays as it was. *)
Lemma compose_absent (image : list Z) (chunks : list Visit) (X Zc x z : nat) :
  Forall in_range chunks →
  (X < Region_SIZE)%nat → (x < Chunk_SIZE)%nat → (z < Chunk_SIZE)%nat →
  (X, Zc) ∉ slot <$> chunks →
  cell (compose image chunks) (Zc * Chunk_SIZE + z) (X * Chunk_SIZE + x)
  = cell image (Zc * Chunk_SIZE + z) (X * Chunk_SIZE + x).
Proof.
  intros Hr HX Hx Hz Habs. unfold cell. rewrite compose_as_stores.
  apply foldl_store_notin. intros Hi.
  apply elem_of_compose_offsets in Hi as (v & Hv & Hi).
  apply elem_of_addChunk_offsets in Hi as (x' & z' & Hx' & Hz' & Heq).
  rewrite Forall_forall in Hr. destruct (Hr v Hv) as [HvX HvZ].
  apply cell_index_inj in Heq as [Hrow Hcol]; [|by apply column_lt_DIM..].
  apply column_inj in Hrow as [-> ->]; [|done..].
  apply column_inj in Hcol as [-> ->]; [|done..].
  apply Habs. apply list_elem_of_fmap. by exists v.
Qed.

(** ** Files and the error stream *)

Lemma string_app_length (a b : string) :
  String.length (a +:+ b) = (String.length a + String.length b)%nat.
Proof.
  induction a as [|c a IH]; [done|].
  change (String c a +:+ b) with (String c (a +:+ b)). cbn. by rewrite IH.
Qed.

Lemma tmpfile_ne (output : string) : output +:+ ".tmp" ≠ output.
Proof.
  intros Heq. apply (f_equal String.length) in Heq.
  rewrite string_app_length in Heq. cbn in Heq. lia.
Qed.

Ltac by_path p tmp output :=
  apply map_eq; intros p;
  destruct (decide (p = tmp)) as [->|?];
  [|destruct (decide (p = output)) as [->|?]];
  repeat first
    [ rewrite lookup_insert_eq | rewrite lookup_delete_eq
    | rewrite lookup_alter_eq
    | rewrite lookup_insert_ne by done | rewrite lookup_delete_ne by done
    | rewrite lookup_alter_ne by done ];
  try done.


(** ** Paths and listings *)

Lemma split_path_no_slash (t : string) :
  "/"%char ∉ chars t → split_path t = None.
Proof.
  induction t as [|c t IH]; [done|]. intros Hn. cbn [split_path].
  rewrite IH by (intros H; apply Hn; by right).
  destruct (Ascii.eqb_spec c "/") as [->|?]; [|done].
  exfalso. apply Hn. left.
Qed.

Lemma split_path_app (s t : string) :
  "/"%char ∉ chars t →
  split_path (s +:+ t) = (λ db, (db.1, db.2 +:+ t)) <$> split_path s.
Proof.
  intros Hn. induction s as [|c s IH].
  - change ("" +:+ t) with t. by rewrite split_path_no_slash.
  - change (String c s +:+ t) with (String c (s +:+ t)). cbn [split_path].
    rewrite IH. destruct (split_path s) as [[d b]|]; cbn; [done|].
    by destruct (Ascii.eqb c "/").
Qed.

Lemma dirname_app (s t : string) : "/"%char ∉ chars t → dirname (s +:+ t) = dirname s.
Proof.
  intros Hn. unfold dirname. rewrite split_path_app by done.
  by destruct (split_path s) as [[d b]|].
Qed.

Lemma basename_app (s t : string) :
  "/"%char ∉ chars t → basename (s +:+ t) = basename s +:+ t.
Proof.
  intros Hn. unfold basename. rewrite split_path_app by done.
  by destruct (split_path s) as [[d b]|].
Qed.

Lemma split_path_join (d n : string) :
  "/"%char ∉ chars n → split_path (d +:+ "/" +:+ n) = Some (d, n).
Proof.
  intros Hn. induction d as [|c d IH].
  - change ("" +:+ "/" +:+ n) with (String "/" n). cbn [split_path].
    by rewrite split_path_no_slash.
  - change (String c d +:+ "/" +:+ n) with (String c (d +:+ "/" +:+ n)).
    cbn [split_path]. by rewrite IH.
Qed.

Lemma tmp_no_slash : "/"%char ∉ chars ".tmp".
Proof. intros H. apply list_elem_of_In in H. cbn in H. intuition discriminate. Qed.

Lemma dirname_tmpfile (output : string) : dirname (output +:+ ".tmp") = dirname output.
Proof. apply dirname_app, tmp_no_slash. Qed.

Lemma basename_tmpfile (output : string) :
  basename (output +:+ ".tmp") = basename output +:+ ".tmp".
Proof. apply basename_app, tmp_no_slash. Qed.

Lemma filter_add_name (P : string → Prop) `{!∀ x, Decision (P x)} (n : string)
    (l : list string) :
  ¬ P n → filter P (add_name n l) = filter P l.
Proof.
  intros Hn. unfold add_name. destruct (bool_decide (n ∈ l)); [done|].
  rewrite filter_app, filter_cons, decide_False by done. apply app_nil_r.
Qed.

Lemma filter_remove_name (P : string → Prop) `{!∀ x, Decision (P x)} (n : string)
    (l : list string) :
  ¬ P n → filter P (remove_name n l) = filter P l.
Proof.
  intros Hn. unfold remove_name. induction l as [|m l IH]; [done|].
  rewrite (filter_cons (λ m, m ≠ n)).
  destruct (decide (m ≠ n)) as [Hm|Hm].
  - rewrite !(filter_cons P). destruct (decide (P m)); by rewrite IH.
  - assert (m = n) as -> by (by destruct (decide (m = n))).
    by rewrite IH, (filter_cons P), decide_False.
Qed.

Section listings.
Context (P : string → Prop) `{!∀ x, Decision (P x)}.

Lemma same_listings_refl (dir : string) (ds : gmap string (list string)) :
  same_listings P dir ds ds.
Proof. done. Qed.

Lemma same_listings_trans (dir : string) (ds1 ds2 ds3 : gmap string (list string)) :
  same_listings P dir ds1 ds2 → same_listings P dir ds2 ds3 →
  same_listings P dir ds1 ds3.
Proof.
  intros H12 H23 d. destruct (H12 d) as [Ha Hb], (H23 d) as [Hc Hd]. split.
  - intros Hne. by rewrite Hc, Ha.
  - by rewrite Hd, Hb.
Qed.

Lemma same_listings_add (ds : gmap string (list string)) (path : string) :
  ¬ P (basename path) → same_listings P (dirname path) ds (add_entry ds path).
Proof.
  intros Hn d. unfold add_entry. split.
  - intros Hne. by rewrite lookup_alter_ne.
  - destruct (decide (d = dirname path)) as [->|Hne].
    + rewrite lookup_alter_eq. destruct (ds !! dirname path) as [l|]; [|done].
      cbn. by rewrite filter_add_name.
    + by rewrite lookup_alter_ne.
Qed.

Lemma same_listings_remove (ds : gmap string (list string)) (path : string) :
  ¬ P (basename path) → same_listings P (dirname path) ds (remove_entry ds path).
Proof.
  intros Hn d. unfold remove_entry. split.
  - intros Hne. by rewrite lookup_alter_ne.
  - destruct (decide (d = dirname path)) as [->|Hne].
    + rewrite lookup_alter_eq. destruct (ds !! dirname path) as [l|]; [|done].
      cbn. by rewrite filter_remove_name.
    + by rewrite lookup_alter_ne.
Qed.

End listings.

(** ** [writePNG] *)

(** [writePNG] touches no path but the one it writes, prints nothing, and
    changes no listing but for the name of its file. *)
Lemma writePNG_frame (e : Env) (w : World) (filename : string) (data : list Z) (p : string) :
  p ≠ filename → files (writePNG e w filename data).1 !! p = files w !! p.
Proof.
  intros Hp. unfold writePNG, write_stream, fopen_wb, set_files.
  destruct (png_outcome e); cbn [fst files]; try done;
    rewrite ?lookup_alter_ne by done; by rewrite ?lookup_insert_ne by done.
Qed.

Lemma writePNG_stderr (e : Env) (w : World) (filename : string) (data : list Z) :
  stderr (writePNG e w filename data).1 = stderr w.
Proof. unfold writePNG. by destruct (png_outcome e). Qed.

Lemma writePNG_dirs (P : string → Prop) `{!∀ x, Decision (P x)} (e : Env) (w : World)
    (filename : string) (data : list Z) :
  ¬ P (basename filename) →
  same_listings P (dirname filename) (dirs w) (dirs (writePNG e w filename data).1).
Proof.
  intros Hn. unfold writePNG.
  destruct (png_outcome e); cbn; try apply same_listings_refl;
    by apply same_listings_add.
Qed.

(** The outcomes in which [writePNG] returns instead of throwing. *)
Lemma writePNG_returns (e : Env) (w : World) (filename : string) (data : list Z) :
  (writePNG e w filename data).2 = Return ()
  ↔ png_outcome e = PngWritten ∨ ∃ n, png_outcome e = FcloseFails n.
Proof.
  unfold writePNG. destruct (png_outcome e) as [| | |n|n|]; cbn; split;
    try done; try (intros [?|[? ?]]; done); try (by left); try (right; by eexists).
Qed.

(** [writePNG] throws, or it returns. *)
Lemma png_outcome_cases (o : PngOutcome) :
  (o ≠ PngWritten ∧ ∀ n, o ≠ FcloseFails n)
  ∨ (o = PngWritten ∨ ∃ n, o = FcloseFails n).
Proof.
  destruct o as [| | |n|n|]; try (left; by split);
    right; [right; by eexists|by left].
Qed.

(** ** The branches of [doRegion] *)

Lemma doRegion_input_missing (e : Env) (w : World) (input output : string) :
  stat w input = None →
  doRegion e w input output = fprintf_stderr w (MsgUnableToStat input).
Proof. intros H. unfold doRegion. by rewrite H. Qed.

Lemma doRegion_up_to_date (e : Env) (w : World) (input output : string)
    (instat outstat : File) :
  stat w input = Some instat → stat w output = Some outstat →
  mtime_not_newer instat outstat = true →
  doRegion e w input output = fprintf_stderr w (MsgUpToDate output).
Proof. intros Hi Ho Hm. unfold doRegion. by rewrite Hi, Ho, Hm. Qed.

Lemma doRegion_stale (e : Env) (w : World) (input output : string) (instat : File) :
  stat w input = Some instat → stale w instat output →
  doRegion e w input output =
  let tmpfile := output +:+ ".tmp" in
  match doRegion_try e (fprintf_stderr w (MsgGenerating output input))
          instat input output tmpfile with
  | (w, Return _) => w
  | (w, Throw what) =>
      let w := fprintf_stderr w (MsgFailedToGenerate output what) in
      if unlink_ok e then unlink w tmpfile else w
  end.
Proof.
  intros Hi Hs. unfold doRegion, stale in *. rewrite Hi.
  destruct (stat w output) as [outstat|]; [by rewrite Hs|done].
Qed.

(** The input is either up-to-date or stale. *)
Lemma stale_or_not (w : World) (instat : File) (output : string) :
  stale w instat output
  ∨ ∃ outstat, stat w output = Some outstat ∧ mtime_not_newer instat outstat = true.
Proof.
  unfold stale. destruct (stat w output) as [outstat|]; [|by left].
  destruct (mtime_not_newer instat outstat) eqn:Hm; [right; by eexists|by left].
Qed.

(** Decoding fails: the visitor throws. Nothing was written; [unlink] is
    called on the temporary path all the same. *)
Lemma doRegion_decode_fails (e : Env) (w : World) (input output what : string)
    (instat : File) :
  stat w input = Some instat → stale w instat output →
  visitChunks e = Throw what →
  stderr (doRegion e w input output)
  = stderr w ++ [MsgGenerating output input; MsgFailedToGenerate output what]
  ∧ files (doRegion e w input output)
    = if unlink_ok e then delete (output +:+ ".tmp") (files w) else files w.
Proof.
  intros Hi Hs Hv. rewrite (doRegion_stale _ _ _ _ instat) by done.
  unfold doRegion_try. rewrite Hv. cbn.
  destruct (unlink_ok e); cbn; by rewrite <- app_assoc.
Qed.

(** Encoding fails: [writePNG] throws. *)
Lemma doRegion_encode_fails (e : Env) (w : World) (input output : string)
    (instat : File) (chunks : list Visit) :
  stat w input = Some instat → stale w instat output →
  visitChunks e = Return chunks →
  png_outcome e ≠ PngWritten → (∀ n, png_outcome e ≠ FcloseFails n) →
  ∃ what,
    stderr (doRegion e w input output)
    = stderr w ++ [MsgGenerating output input; MsgFailedToGenerate output what]
    ∧ (∀ p, p ≠ output +:+ ".tmp" → files (doRegion e w input output) !! p = files w !! p)
    ∧ (unlink_ok e = true → files (doRegion e w input output) !! (output +:+ ".tmp") = None).
Proof.
  intros Hi Hs Hv Hp Hc. rewrite (doRegion_stale _ _ _ _ instat) by done.
  unfold doRegion_try, writePNG. rewrite Hv.
  destruct (png_outcome e) as [| | |n|n|]; [..|by destruct (Hc n)|done];
    destruct (unlink_ok e); cbn; eexists;
    (split; [by rewrite <- app_assoc|]);
    (split; [intros p Hne|intros Hu; try done]);
    repeat first
      [ rewrite lookup_delete_eq | rewrite lookup_delete_ne by done
      | rewrite lookup_alter_ne by done | rewrite lookup_insert_ne by done ];
    done.
Qed.

(** [writePNG] returned and the final [rename] fails. *)
Lemma doRegion_rename_fails (e : Env) (w : World) (input output : string)
    (instat : File) (chunks : list Visit) :
  stat w input = Some instat → stale w instat output →
  visitChunks e = Return chunks →
  png_outcome e = PngWritten ∨ (∃ n, png_outcome e = FcloseFails n) →
  rename_ok e = false →
  stderr (doRegion e w input output)
  = stderr w ++ MsgGenerating output input
      :: (if utimensat_ok e then [] else [MsgWarnUtime (output +:+ ".tmp")])
      ++ [MsgUnableToSave output]
  ∧ (∀ p, p ≠ output +:+ ".tmp" → files (doRegion e w input output) !! p = files w !! p)
  ∧ files (doRegion e w input output) !! (output +:+ ".tmp")
    = if unlink_ok e then None
      else Some (renamed_file e instat (files w !! (output +:+ ".tmp")) chunks).
Proof.
  intros Hi Hs Hv Hp Hr. rewrite (doRegion_stale _ _ _ _ instat) by done.
  unfold doRegion_try, writePNG, renamed_file, written. rewrite Hv, Hr.
  destruct Hp as [Hp|[n Hp]]; rewrite Hp;
    destruct (utimensat_ok e), (unlink_ok e); cbn;
    (split; [by rewrite <- !app_assoc|]);
    (split; [intros p Hne|]);
    repeat first
      [ rewrite lookup_delete_eq | rewrite lookup_delete_ne by done
      | rewrite lookup_alter_eq | rewrite lookup_insert_eq
      | rewrite lookup_alter_ne by done | rewrite lookup_insert_ne by done ];
    done.
Qed.

(** [writePNG] returned and its file was renamed onto the output path. *)
Lemma doRegion_renames (e : Env) (w : World) (input output : string)
    (instat : File) (chunks : list Visit) :
  stat w input = Some instat → stale w instat output →
  visitChunks e = Return chunks →
  png_outcome e = PngWritten ∨ (∃ n, png_outcome e = FcloseFails n) →
  rename_ok e = true →
  stderr (doRegion e w input output)
  = stderr w ++ MsgGenerating output input
      :: (if utimensat_ok e then [] else [MsgWarnUtime (output +:+ ".tmp")])
  ∧ files (doRegion e w input output)
    = <[output := renamed_file e instat (files w !! (output +:+ ".tmp")) chunks]>
        (delete (output +:+ ".tmp") (files w)).
Proof.
  intros Hi Hs Hv Hp Hr. rewrite (doRegion_stale _ _ _ _ instat) by done.
  pose proof (tmpfile_ne output) as Hne.
  unfold doRegion_try, writePNG, rename, utimensat, write_stream, fopen_wb,
    renamed_file, written.
  rewrite Hv, Hr.
  destruct Hp as [Hp|[n Hp]]; rewrite Hp;
    destruct (utimensat_ok e); cbn;
    rewrite ?lookup_alter_eq, ?lookup_insert_eq; cbn;
    (split; [by rewrite <- ?app_assoc|]);
    by_path p (output +:+ ".tmp") output.
Qed.

(** The whole image was written and renamed onto the output path. *)
Lemma doRegion_publishes (e : Env) (w : World) (input output : string)
    (instat : File) (chunks : list Visit) :
  stat w input = Some instat → stale w instat output →
  visitChunks e = Return chunks → png_outcome e = PngWritten →
  rename_ok e = true →
  stderr (doRegion e w input output)
  = stderr w ++ MsgGenerating output input
      :: (if utimensat_ok e then [] else [MsgWarnUtime (output +:+ ".tmp")])
  ∧ files (doRegion e w input output)
    = <[output := published_file e instat (files w !! (output +:+ ".tmp")) chunks]>
        (delete (output +:+ ".tmp") (files w)).
Proof.
  intros Hi Hs Hv Hp Hr.
  destruct (doRegion_renames e w input output instat chunks) as [Hl Hf];
    [done..|by left|done|].
  split; [done|]. rewrite Hf. unfold renamed_file, published_file, written.
  by rewrite Hp.
Qed.

(** [doRegion] changes no listing but for the names of the output and the
    temporary file. *)
Lemma doRegion_same_listings (P : string → Prop) `{!∀ x, Decision (P x)} (e : Env)
    (w : World) (input output : string) :
  ¬ P (basename output) → ¬ P (basename output +:+ ".tmp") →
  same_listings P (dirname output) (dirs w) (dirs (doRegion e w input output)).
Proof.
  intros Ho Ht. rewrite <- basename_tmpfile in Ht.
  assert (∀ ds, same_listings P (dirname output) ds (add_entry ds (output +:+ ".tmp")))
    as Hadd_t.
  { intros ds. rewrite <- (dirname_tmpfile output). by apply same_listings_add. }
  assert (∀ ds, same_listings P (dirname output) ds (remove_entry ds (output +:+ ".tmp")))
    as Hrem_t.
  { intros ds. rewrite <- (dirname_tmpfile output). by apply same_listings_remove. }
  assert (∀ ds, same_listings P (dirname output) ds (add_entry ds output)) as Hadd_o.
  { intros ds. by apply same_listings_add. }
  unfold doRegion. destruct (stat w input) as [instat|]; [|apply same_listings_refl].
  destruct (match stat w output with
            | Some outstat => mtime_not_newer instat outstat
            | None => false
            end); [apply same_listings_refl|].
  unfold doRegion_try, writePNG, rename, utimensat, write_stream, fopen_wb, unlink.
  destruct (visitChunks e) as [chunks|what];
    [destruct (png_outcome e) as [| | |n|n|]|];
    destruct (utimensat_ok e), (rename_ok e), (unlink_ok e); cbn;
    rewrite ?lookup_alter_eq, ?lookup_insert_eq; cbn;
    repeat first
      [ apply same_listings_refl
      | eapply same_listings_trans; [|apply Hadd_o]
      | eapply same_listings_trans; [|apply Hrem_t]
      | eapply same_listings_trans; [|apply Hadd_t] ].
Qed.


(** ** The staleness check *)

(** The condition the source tests is the order on (seconds, nanoseconds)
    pairs. *)
Lemma mtime_not_newer_spec (instat outstat : File) :
  mtime_not_newer instat outstat = true
  ↔ timespec_ge (st_mtim outstat) (st_mtim instat).
Proof.
  unfold mtime_not_newer, timespec_ge, timespec_compare.
  destruct (Z.compare_spec (tv_sec (st_mtim outstat)) (tv_sec (st_mtim instat)));
    destruct (Z.compare_spec (tv_nsec (st_mtim outstat)) (tv_nsec (st_mtim instat)));
    destruct (Z.ltb_spec (tv_sec (st_mtim instat)) (tv_sec (st_mtim outstat)));
    destruct (Z.eqb_spec (tv_sec (st_mtim instat)) (tv_sec (st_mtim outstat)));
    destruct (Z.leb_spec (tv_nsec (st_mtim instat)) (tv_nsec (st_mtim outstat)));
    cbn; split; try done; lia.
Qed.

Lemma mtime_not_newer_false (instat outstat : File) :
  mtime_not_newer instat outstat = false
  ↔ timespec_compare (st_mtim outstat) (st_mtim instat) = Lt.
Proof.
  pose proof (mtime_not_newer_spec instat outstat) as [H1 H2].
  unfold timespec_ge in *.
  destruct (mtime_not_newer instat outstat),
    (timespec_compare (st_mtim outstat) (st_mtim instat)); split; try done.
  - intros _. by destruct H1.
  - intros _. by discriminate H2.
  - intros _. by discriminate H2.
Qed.

Lemma mtime_not_newer_refl (instat outstat : File) :
  st_mtim outstat = st_mtim instat → mtime_not_newer instat outstat = true.
Proof.
  intros Heq. unfold mtime_not_newer. rewrite Heq, Z.eqb_refl, Z.leb_refl.
  by rewrite orb_true_r.
Qed.

(** If [o] is not older than [i'] and older than [i], then [i] is not older
    than [i'] either. *)
Lemma mtime_not_newer_trans (i i' o f : File) :
  mtime_not_newer i' o = true → mtime_not_newer i o = false →
  st_mtim f = st_mtim i → mtime_not_newer i' f = true.
Proof.
  unfold mtime_not_newer. intros H1 H2 ->.
  repeat match goal with
  | H : context [?a <? ?b] |- _ => destruct (Z.ltb_spec a b)
  | H : context [?a =? ?b] |- _ => destruct (Z.eqb_spec a b)
  | H : context [?a <=? ?b] |- _ => destruct (Z.leb_spec a b)
  end; cbn in *; try done;
  repeat match goal with
  | |- context [?a <? ?b] => destruct (Z.ltb_spec a b)
  | |- context [?a =? ?b] => destruct (Z.eqb_spec a b)
  | |- context [?a <=? ?b] => destruct (Z.leb_spec a b)
  end; cbn; try done; lia.
Qed.

(** A stale region is announced as being generated, whatever happens next. *)
Lemma doRegion_stale_log (e : Env) (w : World) (input output : string) (instat : File) :
  stat w input = Some instat → stale w instat output →
  ∃ rest, stderr (doRegion e w input output)
          = stderr w ++ MsgGenerating output input :: rest.
Proof.
  intros Hi Hs. destruct (visitChunks e) as [chunks|what] eqn:Hv.
  2:{ destruct (doRegion_decode_fails e w input output what instat) as [-> _];
        [done..|]. by eexists. }
  destruct (png_outcome_cases (png_outcome e)) as [[Hp Hc]|Hret].
  { destruct (doRegion_encode_fails e w input output instat chunks)
      as (what & -> & _); [done..|]. by eexists. }
  destruct (rename_ok e) eqn:Hr.
  - destruct (doRegion_renames e w input output instat chunks) as [-> _]; [done..|].
    by eexists.
  - destruct (doRegion_rename_fails e w input output instat chunks) as [-> _]; [done..|].
    by eexists.
Qed.

(** The five ways a call of [doRegion] can go: the input cannot be stat'ed;
    the output is up-to-date; the visitor or [writePNG] throws; the [rename]
    fails; the file written is renamed onto the output path. *)
Lemma doRegion_cases (e : Env) (w : World) (input output : string) :
  let w' := doRegion e w input output in
  let tmpfile := output +:+ ".tmp" in
  (stat w input = None ∧ w' = fprintf_stderr w (MsgUnableToStat input))
  ∨ (∃ instat outstat,
       stat w input = Some instat ∧ stat w output = Some outstat
       ∧ mtime_not_newer instat outstat = true
       ∧ w' = fprintf_stderr w (MsgUpToDate output))
  ∨ (∃ instat what,
       stat w input = Some instat ∧ stale w instat output
       ∧ (visitChunks e = Throw what
          ∨ ∃ chunks, visitChunks e = Return chunks ∧ png_outcome e ≠ PngWritten
                      ∧ ∀ n, png_outcome e ≠ FcloseFails n)
       ∧ stderr w' = stderr w ++ [MsgGenerating output input;
                                  MsgFailedToGenerate output what]
       ∧ (∀ p, p ≠ tmpfile → files w' !! p = files w !! p)
       ∧ (unlink_ok e = true → files w' !! tmpfile = None))
  ∨ (∃ instat chunks,
       stat w input = Some instat ∧ stale w instat output
       ∧ visitChunks e = Return chunks
       ∧ (png_outcome e = PngWritten ∨ ∃ n, png_outcome e = FcloseFails n)
       ∧ rename_ok e = false
       ∧ stderr w' = stderr w ++ MsgGenerating output input
                       :: (if utimensat_ok e then [] else [MsgWarnUtime tmpfile])
                       ++ [MsgUnableToSave output]
       ∧ (∀ p, p ≠ tmpfile → files w' !! p = files w !! p)
       ∧ files w' !! tmpfile
         = if unlink_ok e then None
           else Some (renamed_file e instat (files w !! tmpfile) chunks))
  ∨ (∃ instat chunks,
       stat w input = Some instat ∧ stale w instat output
       ∧ visitChunks e = Return chunks
       ∧ (png_outcome e = PngWritten ∨ ∃ n, png_outcome e = FcloseFails n)
       ∧ rename_ok e = true
       ∧ stderr w' = stderr w ++ MsgGenerating output input
                       :: (if utimensat_ok e then [] else [MsgWarnUtime tmpfile])
       ∧ files w' = <[output := renamed_file e instat (files w !! tmpfile) chunks]>
                      (delete tmpfile (files w))).
Proof.
  intros w' tmpfile. subst w' tmpfile.
  destruct (stat w input) as [instat|] eqn:Hi.
  2:{ left. split; [done|]. by apply doRegion_input_missing. }
  destruct (stale_or_not w instat output) as [Hs|(outstat & Ho & Hm)].
  2:{ right; left. exists instat, outstat. split_and!; [done..|].
      by apply (doRegion_up_to_date _ _ _ _ instat outstat). }
  destruct (visitChunks e) as [chunks|what] eqn:Hv.
  2:{ right; right; left. exists instat, what.
      destruct (doRegion_decode_fails e w input output what instat) as [Hl Hf];
        [done..|].
      split_and!; [done|done|by left|done| |].
      - intros p Hp. rewrite Hf. destruct (unlink_ok e); [|done].
        by rewrite lookup_delete_ne.
      - intros Hu. rewrite Hf, Hu. apply lookup_delete_eq. }
  destruct (png_outcome_cases (png_outcome e)) as [[Hp Hc]|Hret].
  { right; right; left.
    destruct (doRegion_encode_fails e w input output instat chunks)
      as (what & Hl & Hf & Ht); [done..|].
    exists instat, what. split_and!; [done|done| |done..].
    right. by exists chunks. }
  destruct (rename_ok e) eqn:Hr.
  - right; right; right; right.
    destruct (doRegion_renames e w input output instat chunks) as [Hl Hf]; [done..|].
    by exists instat, chunks.
  - right; right; right; left.
    destruct (doRegion_rename_fails e w input output instat chunks) as (Hl & Hf & Ht);
      [done..|].
    by exists instat, chunks.
Qed.

(** What [doRegion] can do to the files: it leaves every path but the
    temporary one as it was, or it renames the file it wrote onto the output
    path. *)
Lemma doRegion_files (e : Env) (w : World) (input output : string) :
  let tmpfile := output +:+ ".tmp" in
  let w' := doRegion e w input output in
  (∀ p, p ≠ tmpfile → files w' !! p = files w !! p)
  ∨ ∃ instat chunks,
      stat w input = Some instat ∧ stale w instat output
      ∧ visitChunks e = Return chunks
      ∧ (png_outcome e = PngWritten ∨ ∃ n, png_outcome e = FcloseFails n)
      ∧ rename_ok e = true
      ∧ files w' = <[output := renamed_file e instat (files w !! tmpfile) chunks]>
                     (delete tmpfile (files w)).
Proof.
  intros tmpfile w'. subst tmpfile w'.
  destruct (doRegion_cases e w input output)
    as [[_ Hw]|[(? & ? & _ & _ & _ & Hw)|[(? & ? & _ & _ & _ & _ & Hf & _)
       |[(? & ? & _ & _ & _ & _ & _ & _ & Hf & _)
        |(instat & chunks & Hi & Hs & Hv & Hp & Hr & _ & Hf)]]]].
  - left. by rewrite Hw.
  - left. by rewrite Hw.
  - by left.
  - by left.
  - right. by exists instat, chunks.
Qed.

(** ** The claims about one region *)

(** C1. Once the input has been stat'ed, [doRegion] reports the region as
    up-to-date and does nothing else exactly when the output path can be
    stat'ed and its modification time, compared as the pair (seconds,
    nanoseconds), is greater than or equal to the input's; it announces the
    regeneration exactly when the output is missing or strictly older. In
    that case the region is regenerated: the visitor is run on the input,
    and when it, the encoder and the [rename] succeed, the image composed
    from the chunks it delivered is what the output path holds afterwards,
    in the place of any older file. *)
Theorem staleness_check (e : Env) (w : World) (input output : string) (instat : File) :
  stat w input = Some instat →
  (doRegion e w input output = fprintf_stderr w (MsgUpToDate output)
   ↔ ∃ outstat, stat w output = Some outstat
                ∧ timespec_ge (st_mtim outstat) (st_mtim instat))
  ∧ ((∃ rest, stderr (doRegion e w input output)
              = stderr w ++ MsgGenerating output input :: rest)
     ↔ (stat w output = None
        ∨ ∃ outstat, stat w output = Some outstat
                     ∧ timespec_compare (st_mtim outstat) (st_mtim instat) = Lt))
  ∧ ((stat w output = None
      ∨ ∃ outstat, stat w output = Some outstat
                   ∧ timespec_compare (st_mtim outstat) (st_mtim instat) = Lt) →
     (∀ what, visitChunks e = Throw what →
        new_messages w (doRegion e w input output)
        = [MsgGenerating output input; MsgFailedToGenerate output what])
     ∧ (∀ chunks, visitChunks e = Return chunks → png_outcome e = PngWritten →
          rename_ok e = true →
          content <$> files (doRegion e w input output) !! output
          = Some (PNG (compose empty_image chunks))
          ∧ files (doRegion e w input output) !! (output +:+ ".tmp") = None)).
Proof.
  intros Hi.
  assert (∀ rest, stderr w ++ [MsgUpToDate output]
                  ≠ stderr w ++ MsgGenerating output input :: rest) as Hdiff.
  { intros rest Heq. by apply app_inv_head in Heq. }
  assert (stale w instat output →
          (∀ what, visitChunks e = Throw what →
             new_messages w (doRegion e w input output)
             = [MsgGenerating output input; MsgFailedToGenerate output what])
          ∧ (∀ chunks, visitChunks e = Return chunks → png_outcome e = PngWritten →
               rename_ok e = true →
               content <$> files (doRegion e w input output) !! output
               = Some (PNG (compose empty_image chunks))
               ∧ files (doRegion e w input output) !! (output +:+ ".tmp") = None))
    as Hregen.
  { intros Hs. split.
    - intros what Hv.
      destruct (doRegion_decode_fails e w input output what instat) as [Hl _];
        [done..|].
      unfold new_messages. rewrite Hl. apply drop_app_length.
    - intros chunks Hv Hp Hr.
      destruct (doRegion_publishes e w input output instat chunks) as [_ Hf];
        [done..|].
      rewrite Hf. pose proof (tmpfile_ne output). split.
      + by rewrite lookup_insert_eq.
      + rewrite lookup_insert_ne by done. apply lookup_delete_eq. }
  destruct (stat w output) as [outstat|] eqn:Ho.
  - destruct (mtime_not_newer instat outstat) eqn:Hm.
    + rewrite (doRegion_up_to_date _ _ _ _ instat outstat) by done.
      split; [|split]; [split|split|].
      * intros _. exists outstat. split; [done|]. by apply mtime_not_newer_spec.
      * done.
      * intros [rest Hrest]. cbn in Hrest. by apply Hdiff in Hrest.
      * intros [?|(o & [= <-] & Hlt)]; [done|].
        apply mtime_not_newer_false in Hlt. congruence.
      * intros [?|(o & [= <-] & Hlt)]; [done|].
        apply mtime_not_newer_false in Hlt. congruence.
    + assert (stale w instat output) as Hs by (unfold stale; by rewrite Ho).
      destruct (doRegion_stale_log e w input output instat Hi Hs) as [rest Hrest].
      split; [|split]; [split|split|].
      * intros Heq. rewrite Heq in Hrest. cbn in Hrest. by apply Hdiff in Hrest.
      * intros (o & [= <-] & Hge). apply mtime_not_newer_spec in Hge. congruence.
      * intros _. right. exists outstat. split; [done|]. by apply mtime_not_newer_false.
      * intros _. by exists rest.
      * intros _. by apply Hregen.
  - assert (stale w instat output) as Hs by (unfold stale; by rewrite Ho).
    destruct (doRegion_stale_log e w input output instat Hi Hs) as [rest Hrest].
    split; [|split]; [split|split|].
    + intros Heq. rewrite Heq in Hrest. cbn in Hrest. by apply Hdiff in Hrest.
    + by intros (o & ? & _).
    + intros _. by left.
    + intros _. by exists rest.
    + intros _. by apply Hregen.
Qed.

(** C4, as the code has it. Encoding writes to the temporary path
    [output + ".tmp"] only, and a whole call of [doRegion] changes no path
    but that one and the output. Whenever the final [rename] is reached and
    fails, the error is reported, the output path holds what it held before,
    and [unlink] is called on the temporary file, which removes it when that
    call succeeds. Unless the final [fclose] of the encoder failed, the
    output path afterwards holds either what it held before or the complete
    image, and so no partially written image. *)
Theorem publication_through_tmpfile (e : Env) (w : World) (input output : string) :
  let tmpfile := output +:+ ".tmp" in
  let w' := doRegion e w input output in
  (∀ image p, p ≠ tmpfile →
     files (writePNG e w tmpfile image).1 !! p = files w !! p)
  ∧ (∀ p, p ≠ tmpfile → p ≠ output → files w' !! p = files w !! p)
  ∧ (∀ instat chunks,
       stat w input = Some instat → stale w instat output →
       visitChunks e = Return chunks →
       png_outcome e = PngWritten ∨ (∃ n, png_outcome e = FcloseFails n) →
       rename_ok e = false →
       (unlink_ok e = true → files w' !! tmpfile = None)
       ∧ files w' !! output = files w !! output
       ∧ MsgUnableToSave output ∈ stderr w')
  ∧ ((∀ n, png_outcome e ≠ FcloseFails n) →
     files w' !! output = files w !! output
     ∨ ∃ chunks f, visitChunks e = Return chunks
                   ∧ files w' !! output = Some f
                   ∧ content f = PNG (compose empty_image chunks))
  ∧ ((∀ n, png_outcome e ≠ FcloseFails n) →
     (∀ f n, files w !! output = Some f → content f ≠ Partial n) →
     ∀ f n, files w' !! output = Some f → content f ≠ Partial n).
Proof.
  intros tmpfile w'. subst tmpfile w'. pose proof (tmpfile_ne output) as Hne.
  assert ((∀ n, png_outcome e ≠ FcloseFails n) →
          files (doRegion e w input output) !! output = files w !! output
          ∨ ∃ chunks f, visitChunks e = Return chunks
                        ∧ files (doRegion e w input output) !! output = Some f
                        ∧ content f = PNG (compose empty_image chunks)) as Hout.
  { intros Hc. destruct (doRegion_files e w input output)
      as [Hf|(instat & chunks & _ & _ & Hv & Hp & _ & Hf)].
    - left. by apply Hf.
    - right. exists chunks. eexists. split; [done|]. rewrite Hf, lookup_insert_eq.
      split; [done|]. cbn. unfold written.
      destruct Hp as [->|[n Hp]]; [done|]. by destruct (Hc n). }
  split_and!.
  - intros image p Hp. by apply writePNG_frame.
  - intros p Htmp Hp.
    destruct (doRegion_files e w input output) as [Hf|(? & ? & _ & _ & _ & _ & _ & Hf)];
      [by apply Hf|].
    rewrite Hf, lookup_insert_ne by done. by rewrite lookup_delete_ne.
  - intros instat chunks Hi Hs Hv Hp Hr.
    destruct (doRegion_rename_fails e w input output instat chunks) as (Hl & Hf & Ht);
      [done..|].
    split_and!.
    + intros Hu. by rewrite Ht, Hu.
    + by apply Hf.
    + rewrite Hl. rewrite !elem_of_app. right. rewrite elem_of_cons. right.
      rewrite elem_of_app. right. apply list_elem_of_singleton. done.
  - done.
  - intros Hc Hold f n Hf. destruct (Hout Hc) as [Heq|(chunks & f' & _ & Hf' & Hcont)].
    + apply (Hold f n). by rewrite <- Heq.
    + rewrite Hf in Hf'. injection Hf' as <-. by rewrite Hcont.
Qed.

(** C7, as the code has it. After a regeneration in which the image is
    written and the [rename] succeeds, the output path holds the image; its
    modification and access times are the input's modification time when
    [utimensat] succeeded; when it failed, the failure is a warning only, and
    the image is published with the modification time of its writing. *)
Theorem timestamp_propagation (e : Env) (w : World) (input output : string)
    (instat : File) (chunks : list Visit) :
  stat w input = Some instat → stale w instat output →
  visitChunks e = Return chunks → png_outcome e = PngWritten →
  rename_ok e = true →
  let w' := doRegion e w input output in
  ∃ f, files w' !! output = Some f
       ∧ content f = PNG (compose empty_image chunks)
       ∧ (utimensat_ok e = true →
          st_mtim f = st_mtim instat ∧ st_atim f = st_mtim instat
          ∧ stderr w' = stderr w ++ [MsgGenerating output input])
       ∧ (utimensat_ok e = false →
          st_mtim f = clock e
          ∧ stderr w' = stderr w ++ [MsgGenerating output input;
                                      MsgWarnUtime (output +:+ ".tmp")]).
Proof.
  intros Hi Hs Hv Hp Hr w'. subst w'.
  destruct (doRegion_publishes e w input output instat chunks) as [Hl Hf]; [done..|].
  rewrite Hf, Hl.
  eexists. rewrite lookup_insert_eq. split; [done|]. unfold published_file. cbn.
  split; [done|]. split; intros ->; done.
Qed.

(** C9. A pass starts from a grid of zeros; under the visitor's contract no
    cell is assigned twice during the pass; every cell of a slot for which
    no chunk was delivered is zero in the composed grid, and that grid is
    the image published at the output path. *)
Theorem grid_invariant (chunks : list Visit) :
  visitor_contract chunks →
  empty_image = replicate (DIM * DIM) 0
  ∧ compose empty_image chunks = foldl store empty_image (compose_stores chunks)
  ∧ NoDup (compose_stores chunks).*1
  ∧ (∀ X Zc x z,
       (X < Region_SIZE)%nat → (Zc < Region_SIZE)%nat →
       (x < Chunk_SIZE)%nat → (z < Chunk_SIZE)%nat →
       (X, Zc) ∉ slot <$> chunks →
       cell (compose empty_image chunks) (Zc * Chunk_SIZE + z) (X * Chunk_SIZE + x)
       = Some 0)
  ∧ (∀ e w input output instat,
       stat w input = Some instat → stale w instat output →
       visitChunks e = Return chunks → png_outcome e = PngWritten →
       rename_ok e = true →
       content <$> files (doRegion e w input output) !! output
       = Some (PNG (compose empty_image chunks))).
Proof.
  intros Hc. split_and!.
  - done.
  - apply compose_as_stores.
  - by apply compose_offsets_NoDup.
  - intros X Zc x z HX HZ Hx Hz Habs. destruct Hc as [Hr _].
    rewrite compose_absent by done. unfold cell.
    apply empty_image_lookup, cell_index_lt; by apply column_lt_DIM.
  - intros e w input output instat Hi Hs Hv Hp Hr.
    destruct (doRegion_publishes e w input output instat chunks) as [_ Hf]; [done..|].
    by rewrite Hf, lookup_insert_eq.
Qed.

(** C10. Two [addChunk] calls for different in-range slots commute, and so
    the grid composed from the chunks of a region does not depend on the
    order in which the visitor delivers them: two deliveries of the same
    set of chunks, each slot delivered once, give the same grid. *)
Theorem addChunk_order_independent :
  (∀ image X Zc chunk X' Zc' chunk',
     (X < Region_SIZE)%nat → (Zc < Region_SIZE)%nat →
     (X' < Region_SIZE)%nat → (Zc' < Region_SIZE)%nat →
     (X, Zc) ≠ (X', Zc') →
     addChunk (addChunk image X Zc chunk) X' Zc' chunk'
     = addChunk (addChunk image X' Zc' chunk') X Zc chunk)
  ∧ (∀ image chunks chunks',
       visitor_contract chunks → visitor_contract chunks' →
       (∀ v, v ∈ chunks ↔ v ∈ chunks') →
       compose image chunks = compose image chunks').
Proof.
  split.
  - intros image X Zc chunk X' Zc' chunk' HX _ HX' _ Hne. by apply addChunk_swap.
  - intros image chunks chunks' Hc Hc' Hsame.
    apply compose_Permutation; [|done].
    apply NoDup_Permutation; [by apply visitor_contract_NoDup..|done].
Qed.

(** ** Strings and paths *)

Lemma chars_app (a b : string) : chars (a +:+ b) = chars a ++ chars b.
Proof.
  unfold chars. induction a as [|c a IH]; [done|].
  change (String c a +:+ b) with (String c (a +:+ b)). cbn. by rewrite IH.
Qed.

Lemma chars_length (s : string) : length (chars s) = String.length s.
Proof. unfold chars. induction s as [|c s IH]; cbn; [done|]. by rewrite IH. Qed.

Lemma chars_substr_0 (s : string) (n : nat) : chars (substr_0 s n) = take n (chars s).
Proof.
  unfold chars, substr_0. revert n.
  induction s as [|c s IH]; intros [|n]; cbn; try done. by rewrite IH.
Qed.

Lemma last_char_app (a b : string) :
  b ≠ "" → last_char (a +:+ b) = last_char b.
Proof.
  intros Hb. unfold last_char. rewrite chars_app, last_app.
  destruct (last (chars b)) eqn:Hl; [done|].
  apply last_None in Hl. destruct b; [done|discriminate].
Qed.

Lemma last_char_app_Some (a b : string) (c : ascii) :
  last_char b = Some c → last_char (a +:+ b) = Some c.
Proof.
  intros Hb. rewrite last_char_app; [done|]. intros ->. discriminate.
Qed.

(** The characters that can occur in the output of ["r.%i.%i.mca"]. *)
Lemma print_i_chars (v : Z) : Forall (λ c, c ∈ chars "-0123456789") (chars (print_i v)).
Proof.
  assert (∀ d, Forall (λ c, c ∈ chars "-0123456789") (chars (NilEmpty.string_of_uint d))) as Hu.
  { induction d; cbn; constructor; try done; apply list_elem_of_In; cbn; tauto. }
  assert (∀ d, Forall (λ c, c ∈ chars "-0123456789") (chars (NilZero.string_of_uint d))) as Hz.
  { intros d. unfold NilZero.string_of_uint. destruct d; try apply Hu.
    constructor; [apply list_elem_of_In; cbn; tauto|constructor]. }
  unfold print_i, NilZero.string_of_int. destruct (Z.to_int v).
  - apply Hz.
  - cbn. constructor; [apply list_elem_of_In; cbn; tauto|apply Hz].
Qed.

Lemma format_chars (x z : Z) :
  Forall (λ c, c ∈ chars "r.-0123456789mca") (chars (format_r_i_i_mca x z)).
Proof.
  assert (∀ v, Forall (λ c, c ∈ chars "r.-0123456789mca") (chars (print_i v))) as Hp.
  { intros v. eapply Forall_impl; [apply print_i_chars|].
    intros c Hc. apply list_elem_of_In in Hc. apply list_elem_of_In.
    cbn in *. tauto. }
  unfold format_r_i_i_mca. rewrite !chars_app, !Forall_app. split_and!; try apply Hp.
  all: cbn; repeat constructor; apply list_elem_of_In; cbn; tauto.
Qed.

Lemma chars_inj (a b : string) : chars a = chars b → a = b.
Proof.
  unfold chars. intros Heq.
  rewrite <- (string_of_list_ascii_of_string a), <- (string_of_list_ascii_of_string b).
  by rewrite Heq.
Qed.

(** ** What the filename check accepts *)

(** The comparison of lines 164-167 succeeds exactly when the name is the
    output of the format cut down to the length of the name. *)
Lemma memcmp_snprintf (d_name : string) (x z : Z) :
  let l := (String.length d_name + 1)%nat in
  memcmp_eq (d_name +:+ String zero "") (snprintf_r_i_i_mca l x z) l = true
  ↔ d_name = substr_0 (format_r_i_i_mca x z) (String.length d_name).
Proof.
  intros l. subst l. rewrite Nat.add_1_r. unfold memcmp_eq, snprintf_r_i_i_mca.
  set (n := String.length d_name). set (fmt := format_r_i_i_mca x z).
  rewrite andb_true_iff, String.eqb_eq, Nat.leb_le.
  assert (take (S n) (chars d_name ++ [zero]) = chars d_name ++ [zero]) as Hname.
  { apply take_ge. rewrite length_app, chars_length. cbn. lia. }
  split.
  - intros [Heq Hlen]. apply (f_equal chars) in Heq.
    rewrite !chars_substr_0, !chars_app, chars_substr_0 in Heq.
    change (chars (String zero "")) with [zero] in Heq.
    rewrite <- chars_length, chars_app, length_app, chars_substr_0 in Hlen.
    rewrite Hname in Heq.
    rewrite take_ge in Heq by (rewrite length_app, length_take; cbn [length]; lia).
    apply app_inj_tail in Heq as [Heq _].
    apply chars_inj. by rewrite chars_substr_0.
  - intros Heq. rewrite <- Heq. split; [done|].
    rewrite string_app_length. cbn. lia.
Qed.

Lemma region_filename_spec (d_name : string) (x z : Z) :
  region_filename d_name = Some (x, z)
  ↔ sscanf_r_i_i_mca d_name = Some (x, z)
    ∧ d_name = substr_0 (format_r_i_i_mca x z) (String.length d_name).
Proof.
  unfold region_filename. destruct (sscanf_r_i_i_mca d_name) as [[x' z']|].
  2:{ split; [done|]. by intros [? _]. }
  pose proof (memcmp_snprintf d_name x' z') as Hm. cbn zeta in Hm.
  destruct (memcmp_eq _ _ _).
  - split.
    + intros [= <- <-]. split; [done|]. by apply Hm.
    + by intros [[= <- <-] _].
  - split; [done|]. intros [[= <- <-] Heq]. by apply Hm in Heq.
Qed.

(** A name that its own re-formatting reproduces is accepted. *)
Lemma region_filename_canonical (d_name : string) (x z : Z) :
  sscanf_r_i_i_mca d_name = Some (x, z) → format_r_i_i_mca x z = d_name →
  region_filename d_name = Some (x, z).
Proof.
  intros Hscan Hfmt. apply region_filename_spec. split; [done|].
  rewrite Hfmt. apply chars_inj. rewrite chars_substr_0, <- chars_length.
  by rewrite take_ge.
Qed.

Lemma sscanf_starts_with_r (d_name : string) (x z : Z) :
  sscanf_r_i_i_mca d_name = Some (x, z) → ∃ s, d_name = String "r" (String "." s).
Proof.
  unfold sscanf_r_i_i_mca. intros H.
  destruct d_name as [|c s]; [done|].
  destruct (decide (c = "r"%char)) as [->|Hc].
  2:{ exfalso. revert H. by destruct c as [[] [] [] [] [] [] [] []]. }
  destruct s as [|c s]; [done|].
  destruct (decide (c = "."%char)) as [->|Hc].
  2:{ exfalso. revert H. by destruct c as [[] [] [] [] [] [] [] []]. }
  by eexists.
Qed.

(** An accepted name is not empty and is made of the characters of the
    format's output; its last character is neither [g] nor [p]. *)
Lemma region_filename_last_char (d_name : string) (x z : Z) :
  region_filename d_name = Some (x, z) →
  d_name ≠ ""
  ∧ ∃ c, last_char d_name = Some c ∧ c ≠ "g"%char ∧ c ≠ "p"%char.
Proof.
  intros Hacc. apply region_filename_spec in Hacc as [Hscan Hfmt].
  apply sscanf_starts_with_r in Hscan as [s Hs].
  split; [by rewrite Hs|].
  assert (Forall (λ c, c ∈ chars "r.-0123456789mca") (chars d_name)) as Hall.
  { rewrite Hfmt, chars_substr_0. apply Forall_take, format_chars. }
  unfold last_char. destruct (last (chars d_name)) as [c|] eqn:Hl.
  2:{ apply last_None in Hl. by rewrite Hs in Hl. }
  exists c. split; [done|].
  apply last_Some_elem_of in Hl. rewrite Forall_forall in Hall.
  specialize (Hall c Hl). apply list_elem_of_In in Hall. cbn in Hall.
  split; intros ->; intuition discriminate.
Qed.

Lemma output_path_last_char (outputdir name : string) :
  last_char (output_path outputdir name) = Some "g"%char.
Proof. unfold output_path. by do 3 apply last_char_app_Some. Qed.

Lemma tmpfile_last_char (output : string) :
  last_char (output +:+ ".tmp") = Some "p"%char.
Proof. by apply last_char_app_Some. Qed.

Lemma input_path_last_char (inputdir name : string) :
  name ≠ "" → last_char (input_path inputdir name) = last_char name.
Proof.
  intros Hn. unfold input_path.
  destruct (last_char name) as [c|] eqn:Hc.
  - by do 2 apply last_char_app_Some.
  - apply last_None in Hc. by destruct name.
Qed.

(** The paths of accepted entries never collide across roles: no input path
    is an output path or a temporary path, and no output path is a temporary
    path. *)
Lemma paths_apart (inputdir outputdir outputdir' name name' : string) (x z : Z) :
  region_filename name = Some (x, z) →
  input_path inputdir name ≠ output_path outputdir name'
  ∧ input_path inputdir name ≠ output_path outputdir name' +:+ ".tmp"
  ∧ output_path outputdir' name ≠ output_path outputdir name' +:+ ".tmp".
Proof.
  intros Hacc. apply region_filename_last_char in Hacc as (Hne & c & Hc & Hg & Hp).
  split_and!; intros Heq; apply (f_equal last_char) in Heq.
  - rewrite input_path_last_char, output_path_last_char, Hc in Heq by done. congruence.
  - rewrite input_path_last_char, tmpfile_last_char, Hc in Heq by done. congruence.
  - rewrite output_path_last_char, tmpfile_last_char in Heq. done.
Qed.

Lemma string_app_assoc (a b c : string) : (a +:+ b) +:+ c = a +:+ b +:+ c.
Proof. apply chars_inj. by rewrite !chars_app, app_assoc. Qed.

(** ** Paths and the listings of directories *)

Lemma region_filename_chars (d_name : string) (x z : Z) :
  region_filename d_name = Some (x, z) →
  Forall (λ c, c ∈ chars "r.-0123456789mca") (chars d_name).
Proof.
  intros Hacc. apply region_filename_spec in Hacc as [Hscan Hfmt].
  rewrite Hfmt, chars_substr_0. apply Forall_take, format_chars.
Qed.

Lemma png_no_slash : "/"%char ∉ chars "png".
Proof. intros H. apply list_elem_of_In in H. cbn in H. intuition discriminate. Qed.

(** The output path of an accepted entry names an entry of the output
    directory. *)
Lemma output_path_split (outputdir name : string) (x z : Z) :
  region_filename name = Some (x, z) →
  split_path (output_path outputdir name)
  = Some (outputdir, substr_0 name (size_sub (String.length name) 3) +:+ "png").
Proof.
  intros Hacc. unfold output_path. apply split_path_join.
  rewrite chars_app, chars_substr_0. intros Hin.
  apply elem_of_app in Hin as [Hin|Hin]; [|by apply png_no_slash].
  apply region_filename_chars in Hacc.
  apply (Forall_take _ (size_sub (String.length name) 3)) in Hacc.
  rewrite Forall_forall in Hacc. specialize (Hacc _ Hin).
  apply list_elem_of_In in Hacc. cbn in Hacc. intuition discriminate.
Qed.

Lemma output_path_dirname (outputdir name : string) (x z : Z) :
  region_filename name = Some (x, z) → dirname (output_path outputdir name) = outputdir.
Proof. intros Hacc. unfold dirname. by rewrite (output_path_split _ _ x z). Qed.

(** The names of output and temporary files end in [g] and in [p]: they are
    not names of region files. *)
Lemma output_path_basename (outputdir name : string) :
  last_char (basename (output_path outputdir name)) = Some "g"%char.
Proof.
  unfold output_path. rewrite <- !string_app_assoc.
  rewrite basename_app by apply png_no_slash. by apply last_char_app_Some.
Qed.

Lemma last_char_rejected (name : string) (c : ascii) :
  last_char name = Some c → c = "g"%char ∨ c = "p"%char →
  ¬ is_Some (region_filename name).
Proof.
  intros Hl Hc [[x z] Hacc].
  apply region_filename_last_char in Hacc as (_ & c' & Hc' & Hg & Hp).
  rewrite Hl in Hc'. injection Hc' as <-. by destruct Hc.
Qed.

Lemma output_path_rejected (outputdir name : string) :
  ¬ is_Some (region_filename (basename (output_path outputdir name)))
  ∧ ¬ is_Some (region_filename (basename (output_path outputdir name) +:+ ".tmp")).
Proof.
  split.
  - apply (last_char_rejected _ "g"); [apply output_path_basename|by left].
  - apply (last_char_rejected _ "p"); [by apply last_char_app_Some|by right].
Qed.

(** ** Scanning what was printed *)

Lemma uint_acc_pos (d : Decimal.uint) (a : positive) :
  uint_acc d (Z.pos a) = Z.pos (Pos.of_uint_acc d a).
Proof.
  revert a. induction d; intros a; cbn [uint_acc Pos.of_uint_acc]; [done|..];
    rewrite <- IHd; f_equal; lia.
Qed.

Lemma uint_acc_0 (d : Decimal.uint) : uint_acc d 0 = Z.of_N (Pos.of_uint d).
Proof.
  induction d; cbn [uint_acc Pos.of_uint Z.of_N]; [done|done|..];
    by rewrite <- uint_acc_pos.
Qed.

Lemma uint_acc_to_uint (p : positive) : uint_acc (Pos.to_uint p) 0 = Z.pos p.
Proof. by rewrite uint_acc_0, DecimalPos.Unsigned.of_to. Qed.

(** The decimal digits of a positive number do not start with 0. *)
Lemma to_uint_head (p : positive) : ∀ l, Pos.to_uint p ≠ Decimal.D0 l.
Proof.
  intros l Heq.
  pose proof (DecimalPos.Unsigned.to_of (Pos.to_uint p)) as Hnorm.
  rewrite DecimalPos.Unsigned.of_to in Hnorm. cbn [N.to_uint] in Hnorm.
  rewrite Heq in Hnorm. unfold Decimal.unorm in Hnorm.
  destruct (Decimal.nzhead (Decimal.D0 l)) as [| d | | | | | | | | |] eqn:Hnz.
  - injection Hnorm as ->. by apply (DecimalPos.Unsigned.to_uint_nonzero p).
  - by apply DecimalFacts.nzhead_nonzero in Hnz.
  - discriminate.
  - discriminate.
  - discriminate.
  - discriminate.
  - discriminate.
  - discriminate.
  - discriminate.
  - discriminate.
  - discriminate.
Qed.


Lemma scan_digits_digit (base : Z) (count : nat) (acc v : Z) (c : ascii) (t : string) :
  digit_value base c = Some v →
  scan_digits base count acc (String c t) = scan_digits base (S count) (acc * base + v) t.
Proof. intros Hc. cbn [scan_digits]. by rewrite Hc. Qed.

Lemma scan_digits_uint (d : Decimal.uint) (count : nat) (acc : Z) (rest : string) :
  stops rest →
  scan_digits 10 count acc (NilEmpty.string_of_uint d +:+ rest)
  = ((count + Decimal.nb_digits d)%nat, uint_acc d acc, rest).
Proof.
  intros Hrest. revert count acc.
  induction d; intros count acc; cbn [NilEmpty.string_of_uint Decimal.nb_digits uint_acc].
  { change ("" +:+ rest) with rest. rewrite Nat.add_0_r.
    destruct rest as [|c t]; [done|]. cbn in Hrest. by subst c. }
  all: match goal with
       | |- context [String ?c ?s +:+ ?r] =>
           change (String c s +:+ r) with (String c (s +:+ r))
       end;
       erewrite scan_digits_digit by reflexivity; rewrite IHd;
       by rewrite Nat.add_succ_r.
Qed.

Lemma to_int_clamp_long (v : Z) :
  INT_MIN ≤ v ≤ INT_MAX → to_int (clamp_long v) = v.
Proof.
  unfold INT_MIN, INT_MAX, to_int, clamp_long, LONG_MIN, LONG_MAX. intros Hv.
  rewrite Z.min_r, Z.max_r by lia. rewrite Z.mod_small by lia. lia.
Qed.

Lemma print_i_pos (p : positive) :
  print_i (Z.pos p) = NilEmpty.string_of_uint (Pos.to_uint p).
Proof.
  unfold print_i, NilZero.string_of_int. cbn [Z.to_int].
  unfold NilZero.string_of_uint.
  destruct (Pos.to_uint p) eqn:Hd; try done.
  by apply DecimalPos.Unsigned.to_uint_nonnil in Hd.
Qed.

Lemma print_i_neg (p : positive) :
  print_i (Z.neg p) = String "-" (NilEmpty.string_of_uint (Pos.to_uint p)).
Proof.
  unfold print_i, NilZero.string_of_int. cbn [Z.to_int].
  unfold NilZero.string_of_uint.
  destruct (Pos.to_uint p) eqn:Hd; try done.
  by apply DecimalPos.Unsigned.to_uint_nonnil in Hd.
Qed.

Lemma to_uint_first_char (p : positive) :
  ∃ c t, NilEmpty.string_of_uint (Pos.to_uint p) = String c t
         ∧ c ∈ chars "123456789".
Proof.
  pose proof (to_uint_head p) as Hhead.
  pose proof (DecimalPos.Unsigned.to_uint_nonnil p) as Hnil.
  destruct (Pos.to_uint p); [done|by destruct (Hhead u)|..];
    cbn [NilEmpty.string_of_uint]; eexists _, _; (split; [done|]);
    apply list_elem_of_In; cbn; tauto.
Qed.

(** On a string that starts with a digit from 1 to 9, with or without a
    minus sign before it, [%i] reads a decimal number. *)
Lemma scan_i_decimal (c : ascii) (t : string) :
  c ∈ chars "123456789" →
  scan_i (String c t)
  = (let '(count, v, rest) := scan_digits 10 0 0 (String c t) in
     match count with
     | O => None
     | S _ => Some (to_int (clamp_long v), rest)
     end)
  ∧ scan_i (String "-" (String c t))
    = (let '(count, v, rest) := scan_digits 10 0 0 (String c t) in
       match count with
       | O => None
       | S _ => Some (to_int (clamp_long (- v)), rest)
       end).
Proof.
  intros Hc. apply list_elem_of_In in Hc. cbn in Hc.
  destruct Hc as [<-|[<-|[<-|[<-|[<-|[<-|[<-|[<-|[<-|[]]]]]]]]]]; split; reflexivity.
Qed.

(** What was printed with [%i], followed by a dot or by nothing, is read
    back by [%i]. *)
Lemma scan_i_print_i (v : Z) (rest : string) :
  INT_MIN ≤ v ≤ INT_MAX → stops rest →
  scan_i (print_i v +:+ rest) = Some (v, rest).
Proof.
  intros Hv Hrest. destruct v as [|p|p].
  - change (print_i 0) with "0". destruct rest as [|c t]; [reflexivity|].
    cbn in Hrest. subst c. reflexivity.
  - rewrite print_i_pos.
    destruct (to_uint_first_char p) as (c & t & Heq & Hc).
    pose proof (scan_digits_uint (Pos.to_uint p) 0 0 rest Hrest) as Hscan.
    rewrite Heq in *. change (String c t +:+ rest) with (String c (t +:+ rest)) in *.
    rewrite (proj1 (scan_i_decimal c (t +:+ rest) Hc)), Hscan.
    destruct (Decimal.nb_digits (Pos.to_uint p)) eqn:Hn.
    { apply DecimalFacts.nb_digits_0 in Hn.
      by apply DecimalPos.Unsigned.to_uint_nonnil in Hn. }
    cbn [Nat.add]. by rewrite uint_acc_to_uint, to_int_clamp_long.
  - rewrite print_i_neg.
    destruct (to_uint_first_char p) as (c & t & Heq & Hc).
    pose proof (scan_digits_uint (Pos.to_uint p) 0 0 rest Hrest) as Hscan.
    rewrite Heq in *.
    change (String "-" (String c t) +:+ rest)
      with (String "-" (String c (t +:+ rest))).
    change (String c t +:+ rest) with (String c (t +:+ rest)) in Hscan.
    rewrite (proj2 (scan_i_decimal c (t +:+ rest) Hc)), Hscan.
    destruct (Decimal.nb_digits (Pos.to_uint p)) eqn:Hn.
    { apply DecimalFacts.nb_digits_0 in Hn.
      by apply DecimalPos.Unsigned.to_uint_nonnil in Hn. }
    cbn [Nat.add]. by rewrite uint_acc_to_uint, to_int_clamp_long.
Qed.

Lemma sscanf_region_name (x z : Z) (k : nat) :
  INT_MIN ≤ x ≤ INT_MAX → INT_MIN ≤ z ≤ INT_MAX →
  sscanf_r_i_i_mca (region_name x z k) = Some (x, z).
Proof.
  intros Hx Hz. unfold region_name.
  change ("r." +:+ ?s) with (String "r" (String "." s)).
  change ("." +:+ ?s) with (String "." s).
  cbn [sscanf_r_i_i_mca]. rewrite scan_i_print_i by done.
  rewrite scan_i_print_i; [done..|].
  by destruct k as [|k].
Qed.

(** Every name [r.X.Z.mca] with coordinates in the range of [int] is
    accepted, and so is the name cut off anywhere in its extension. *)
Lemma region_filename_region_name (x z : Z) (k : nat) :
  INT_MIN ≤ x ≤ INT_MAX → INT_MIN ≤ z ≤ INT_MAX →
  region_filename (region_name x z k) = Some (x, z).
Proof.
  intros Hx Hz. apply region_filename_spec. split; [by apply sscanf_region_name|].
  apply chars_inj. rewrite chars_substr_0, <- chars_length.
  unfold region_name, format_r_i_i_mca. rewrite !chars_app, chars_substr_0.
  rewrite !app_assoc.
  set (A := (((chars "r." ++ chars (print_i x)) ++ chars ".") ++ chars (print_i z))).
  rewrite length_app, take_app_add. f_equal.
  rewrite length_take. destruct (Nat.le_ge_cases k (length (chars ".mca"))).
  - by rewrite Nat.min_l by lia.
  - rewrite Nat.min_r by lia. by rewrite !take_ge by lia.
Qed.

(** ** The error stream only grows *)

Lemma new_messages_app (w w' : World) (msgs : list Msg) :
  stderr w' = stderr w ++ msgs → new_messages w w' = msgs.
Proof. intros Heq. unfold new_messages. rewrite Heq. apply drop_app_length. Qed.

(** Every call of [doRegion] returns and reports on its region: it adds at
    least one line to [stderr] and takes none away. *)
Lemma doRegion_reports (e : Env) (w : World) (input output : string) :
  ∃ msgs, msgs ≠ [] ∧ stderr (doRegion e w input output) = stderr w ++ msgs.
Proof.
  destruct (stat w input) as [instat|] eqn:Hi.
  2:{ rewrite doRegion_input_missing by done. by eexists [_]. }
  destruct (stale_or_not w instat output) as [Hs|(outstat & Ho & Hm)].
  2:{ rewrite (doRegion_up_to_date _ _ _ _ instat outstat) by done. by eexists [_]. }
  destruct (doRegion_stale_log e w input output instat Hi Hs) as [rest ->].
  by eexists (_ :: _).
Qed.

Lemma main_entry_reports (inputdir outputdir : string) (e : Env) (st : Loop)
    (d_name : string) :
  ∃ msgs, stderr (world (main_entry inputdir outputdir e st d_name))
          = stderr (world st) ++ msgs.
Proof.
  unfold main_entry. destruct (region_filename d_name) as [[x z]|].
  - cbn. destruct (doRegion_reports e (world st) (input_path inputdir d_name)
                     (output_path outputdir d_name)) as (msgs & _ & ->).
    by eexists.
  - exists []. by rewrite app_nil_r.
Qed.

Lemma main_loop_reports (inputdir outputdir : string) (oracle : nat → Env)
    (entries : list string) (i : nat) (st : Loop) :
  ∃ msgs, stderr (world (main_loop inputdir outputdir oracle i entries st))
          = stderr (world st) ++ msgs.
Proof.
  revert i st. induction entries as [|d_name entries IH]; intros i st.
  - exists []. by rewrite app_nil_r.
  - cbn [main_loop].
    destruct (IH (S i) (main_entry inputdir outputdir (oracle i) st d_name)) as [later ->].
    destruct (main_entry_reports inputdir outputdir (oracle i) st d_name) as [msgs ->].
    exists (msgs ++ later). by rewrite app_assoc.
Qed.

(** The loop changes no listing but that of the output directory, and adds
    or removes no name of a region file in any. *)
Lemma main_loop_listings (inputdir outputdir : string) (oracle : nat → Env)
    (entries : list string) (i : nat) (st : Loop) :
  same_listings (λ name, is_Some (region_filename name)) outputdir
    (dirs (world st))
    (dirs (world (main_loop inputdir outputdir oracle i entries st))).
Proof.
  revert i st. induction entries as [|d_name entries IH]; intros i st.
  { apply same_listings_refl. }
  cbn [main_loop]. eapply same_listings_trans; [|apply IH].
  unfold main_entry.
  destruct (region_filename d_name) as [[x z]|] eqn:Hacc; [|apply same_listings_refl].
  cbn [world]. rewrite <- (output_path_dirname outputdir d_name x z Hacc) at 1.
  destruct (output_path_rejected outputdir d_name) as [Ho Ht].
  by apply doRegion_same_listings.
Qed.

(** After the loop the listing of a directory holds the same names of
    region files, in the same order. *)
Lemma main_loop_accepted (inputdir outputdir : string) (oracle : nat → Env)
    (entries : list string) (i : nat) (st : Loop) (d : string) (l : list string) :
  dirs (world st) !! d = Some l →
  ∃ l', dirs (world (main_loop inputdir outputdir oracle i entries st)) !! d = Some l'
        ∧ accepted l' = accepted l.
Proof.
  intros Hl.
  destruct (main_loop_listings inputdir outputdir oracle entries i st d) as [_ Hf].
  rewrite Hl in Hf.
  destruct (dirs (world (main_loop inputdir outputdir oracle i entries st)) !! d)
    as [l'|]; [|done].
  exists l'. split; [done|]. by injection Hf.
Qed.

(** The loop goes through the listing entry by entry: what it does with the
    entries after a given one starts from whatever the earlier ones left. *)
Lemma main_loop_app (inputdir outputdir : string) (oracle : nat → Env)
    (before after : list string) (i : nat) (st : Loop) :
  main_loop inputdir outputdir oracle i (before ++ after) st
  = main_loop inputdir outputdir oracle (i + length before) after
      (main_loop inputdir outputdir oracle i before st).
Proof.
  revert i st. induction before as [|d_name before IH]; intros i st.
  - cbn. by rewrite Nat.add_0_r.
  - cbn [app main_loop length]. rewrite IH. by rewrite Nat.add_succ_r.
Qed.

Lemma main_entry_accepted (inputdir outputdir : string) (e : Env) (st : Loop)
    (d_name : string) (x z : Z) :
  region_filename d_name = Some (x, z) →
  world (main_entry inputdir outputdir e st d_name)
  = doRegion e (world st) (input_path inputdir d_name) (output_path outputdir d_name).
Proof. intros Hacc. unfold main_entry. by rewrite Hacc. Qed.

(** ** A run without warnings or errors *)

Ltac not_quiet H :=
  cbn in H; rewrite ?Forall_app, ?Forall_cons, ?Forall_singleton in H; cbn in H;
  intuition.

(** If [doRegion] printed neither a warning nor an error, the region was
    up-to-date, or the file written was renamed onto the output path with
    the input's time stamps. *)
Lemma doRegion_quiet (e : Env) (w : World) (input output : string) :
  Forall quiet (new_messages w (doRegion e w input output)) →
  (∃ instat outstat,
     stat w input = Some instat ∧ stat w output = Some outstat
     ∧ mtime_not_newer instat outstat = true
     ∧ files (doRegion e w input output) = files w)
  ∨ (∃ instat chunks,
       stat w input = Some instat ∧ stale w instat output
       ∧ utimensat_ok e = true
       ∧ files (doRegion e w input output)
         = <[output := renamed_file e instat (files w !! (output +:+ ".tmp")) chunks]>
             (delete (output +:+ ".tmp") (files w))).
Proof.
  destruct (doRegion_cases e w input output)
    as [[_ Hw]|[(instat & outstat & Hi & Ho & Hm & Hw)|[(? & ? & _ & _ & _ & Hl & _)
       |[(? & ? & _ & _ & _ & _ & _ & Hl & _)
        |(instat & chunks & Hi & Hs & Hv & Hp & Hr & Hl & Hf)]]]].
  - rewrite Hw. erewrite new_messages_app by done. intros Hq. by not_quiet Hq.
  - rewrite Hw. intros _. left. by exists instat, outstat.
  - erewrite new_messages_app by done. intros Hq. by not_quiet Hq.
  - erewrite new_messages_app by done. intros Hq.
    destruct (utimensat_ok e); by not_quiet Hq.
  - erewrite new_messages_app by done. intros Hq. right.
    exists instat, chunks. split_and!; [done..| |done].
    destruct (utimensat_ok e); [done|]. by not_quiet Hq.
Qed.

Lemma settled_files (w w' : World) (input output : string) :
  files w' = files w → settled w input output → settled w' input output.
Proof. unfold settled, stat. by intros ->. Qed.

(** After a call without warning or error the region is settled, and so is
    every region that was settled before, as long as its paths are neither
    the temporary path nor, for its input, the output path of the call. *)
Lemma doRegion_quiet_settles (e : Env) (w : World) (input output : string) :
  input ≠ output → input ≠ output +:+ ".tmp" →
  Forall quiet (new_messages w (doRegion e w input output)) →
  settled (doRegion e w input output) input output
  ∧ ∀ input' output',
      input' ≠ output → input' ≠ output +:+ ".tmp" → output' ≠ output +:+ ".tmp" →
      settled w input' output' →
      settled (doRegion e w input output) input' output'.
Proof.
  intros Hio Hit Hq. pose proof (tmpfile_ne output) as Hne.
  destruct (doRegion_quiet e w input output Hq)
    as [(instat & outstat & Hi & Ho & Hm & Hf)|(instat & chunks & Hi & Hs & Hu & Hf)].
  - split.
    + apply (settled_files w); [done|]. by exists instat, outstat.
    + intros input' output' _ _ _. by apply settled_files.
  - assert (stat (doRegion e w input output) input = Some instat) as Hi'.
    { unfold stat in *. rewrite Hf, lookup_insert_ne, lookup_delete_ne; done. }
    split.
    + eexists instat, _. split; [done|]. split.
      * unfold stat. rewrite Hf. apply lookup_insert_eq.
      * apply mtime_not_newer_refl. unfold renamed_file; cbn. by rewrite Hu.
    + intros input' output' Hio' Hit' Hot' (i' & o' & Hi'' & Ho' & Hm').
      assert (stat (doRegion e w input output) input' = Some i') as Hin.
      { unfold stat in *. rewrite Hf, lookup_insert_ne, lookup_delete_ne; done. }
      destruct (decide (output' = output)) as [->|Hoo].
      * eexists i', _. split; [done|]. split.
        -- unfold stat. rewrite Hf. apply lookup_insert_eq.
        -- unfold stale in Hs. rewrite Ho' in Hs.
           apply (mtime_not_newer_trans instat i' o'); [done..|].
           unfold renamed_file; cbn. by rewrite Hu.
      * exists i', o'. split; [done|]. split; [|done].
        unfold stat in *. rewrite Hf, lookup_insert_ne, lookup_delete_ne; done.
Qed.

(** The first run: if the loop prints no warning and no error, every
    accepted entry is settled at the end. *)
Lemma main_loop_quiet_settles (inputdir outputdir : string) (oracle : nat → Env)
    (entries : list string) (i : nat) (st : Loop) (earlier : list string) :
  let final := main_loop inputdir outputdir oracle i entries st in
  Forall quiet (new_messages (world st) (world final)) →
  (∀ name, name ∈ earlier →
     is_Some (region_filename name)
     ∧ settled (world st) (input_path inputdir name) (output_path outputdir name)) →
  ∀ name, name ∈ earlier ++ accepted entries →
    settled (world final) (input_path inputdir name) (output_path outputdir name).
Proof.
  revert i st earlier. induction entries as [|d_name entries IH];
    intros i st earlier final Hq Hearlier name Hname.
  { unfold accepted in Hname. rewrite filter_nil, app_nil_r in Hname.
    by apply Hearlier. }
  subst final. cbn [main_loop] in *.
  set (st' := main_entry inputdir outputdir (oracle i) st d_name) in *.
  destruct (main_entry_reports inputdir outputdir (oracle i) st d_name) as [msgs Hmsgs].
  fold st' in Hmsgs.
  destruct (main_loop_reports inputdir outputdir oracle entries (S i) st') as [later Hlater].
  rewrite Hmsgs, <- app_assoc in Hlater.
  rewrite (new_messages_app _ _ _ Hlater) in Hq. apply Forall_app in Hq as [Hq1 Hq2].
  assert (Forall quiet (new_messages (world st')
            (world (main_loop inputdir outputdir oracle (S i) entries st')))) as Hq'.
  { erewrite new_messages_app; [done|]. by rewrite Hlater, Hmsgs, <- app_assoc. }
  unfold accepted in Hname. rewrite filter_cons in Hname.
  destruct (decide (is_Some (region_filename d_name))) as [[[x z] Hacc]|Hrej].
  - apply (IH (S i) st' (earlier ++ [d_name])); [done| |].
    2:{ rewrite <- app_assoc. done. }
    assert (world st' = doRegion (oracle i) (world st) (input_path inputdir d_name)
                          (output_path outputdir d_name)) as Hw.
    { subst st'. unfold main_entry. by rewrite Hacc. }
    destruct (paths_apart inputdir outputdir outputdir d_name d_name x z Hacc)
      as (Hio & Hit & _).
    rewrite <- (new_messages_app _ _ _ Hmsgs), Hw in Hq1.
    destruct (doRegion_quiet_settles _ _ _ _ Hio Hit Hq1) as [Hself Hothers].
    intros n Hn. apply elem_of_app in Hn as [Hn|Hn].
    + destruct (Hearlier n Hn) as [[[x' z'] Hacc'] Hset]. split; [by eexists|].
      rewrite Hw.
      destruct (paths_apart inputdir outputdir outputdir n d_name x' z' Hacc')
        as (Hio' & Hit' & Hot').
      by apply Hothers.
    + apply list_elem_of_singleton in Hn as ->. split; [by eexists|]. by rewrite Hw.
  - apply (IH (S i) st' earlier); [done| |done].
    assert (st' = st) as ->; [|done].
    subst st'. unfold main_entry.
    destruct (region_filename d_name) as [[x z]|]; [|done]. by destruct Hrej.
Qed.

(** The second run: when every accepted entry is settled, the loop reports
    each of them as up-to-date and changes no file. *)
Lemma main_loop_settled (inputdir outputdir : string) (oracle : nat → Env)
    (entries : list string) (i : nat) (st : Loop) :
  let final := main_loop inputdir outputdir oracle i entries st in
  (∀ name, name ∈ accepted entries →
     settled (world st) (input_path inputdir name) (output_path outputdir name)) →
  files (world final) = files (world st)
  ∧ stderr (world final)
    = stderr (world st) ++ ((λ name, MsgUpToDate (output_path outputdir name))
                              <$> accepted entries).
Proof.
  revert i st. induction entries as [|d_name entries IH]; intros i st final Hset.
  { subst final. cbn. by rewrite app_nil_r. }
  subst final. cbn [main_loop].
  set (st' := main_entry inputdir outputdir (oracle i) st d_name).
  unfold accepted in *. rewrite filter_cons in *.
  destruct (decide (is_Some (region_filename d_name))) as [[[x z] Hacc]|Hrej].
  - destruct (Hset d_name) as (instat & outstat & Hi & Ho & Hm); [left|].
    assert (world st' = fprintf_stderr (world st)
                          (MsgUpToDate (output_path outputdir d_name))) as Hw.
    { subst st'. unfold main_entry. rewrite Hacc. cbn.
      by apply (doRegion_up_to_date _ _ _ _ instat outstat). }
    destruct (IH (S i) st') as [Hf Hl].
    { intros name Hname. apply (settled_files (world st)); [by rewrite Hw|].
      apply Hset. by right. }
    rewrite Hf, Hl, Hw. cbn. split; [done|]. by rewrite <- app_assoc.
  - assert (st' = st) as ->.
    { subst st'. unfold main_entry.
      destruct (region_filename d_name) as [[x z]|]; [|done]. by destruct Hrej. }
    by apply IH.
Qed.

(** ** Paths a call does not touch *)

Lemma doRegion_frame (e : Env) (w : World) (input output p : string) :
  p ≠ output → p ≠ output +:+ ".tmp" →
  files (doRegion e w input output) !! p = files w !! p.
Proof.
  intros Hp Htmp.
  destruct (doRegion_files e w input output) as [Hf|(? & ? & _ & _ & _ & _ & _ & Hf)];
    [by apply Hf|].
  rewrite Hf, lookup_insert_ne by done. by rewrite lookup_delete_ne.
Qed.

Lemma main_loop_frame (inputdir outputdir : string) (oracle : nat → Env)
    (entries : list string) (i : nat) (st : Loop) (p : string) :
  (∀ name, name ∈ accepted entries →
     p ≠ output_path outputdir name ∧ p ≠ output_path outputdir name +:+ ".tmp") →
  files (world (main_loop inputdir outputdir oracle i entries st)) !! p
  = files (world st) !! p.
Proof.
  revert i st. induction entries as [|d_name entries IH]; intros i st Hp; [done|].
  cbn [main_loop]. unfold accepted in Hp. rewrite filter_cons in Hp.
  destruct (decide (is_Some (region_filename d_name))) as [[[x z] Hacc]|Hrej].
  - rewrite IH by (intros name Hname; apply Hp; by right).
    rewrite (main_entry_accepted _ _ _ _ _ x z) by done.
    destruct (Hp d_name) as [Hout Htmp]; [left|]. by apply doRegion_frame.
  - rewrite IH by done. unfold main_entry.
    destruct (region_filename d_name) as [[x z]|]; [|done]. by destruct Hrej.
Qed.

Lemma settled_frame (w w' : World) (input output : string) :
  files w' !! input = files w !! input → files w' !! output = files w !! output →
  settled w input output → settled w' input output.
Proof. unfold settled, stat. by intros -> ->. Qed.

(** A settled region stays settled through the entries of a listing whose
    output paths are not its own. *)
Lemma main_loop_keeps_settled (inputdir outputdir : string) (oracle : nat → Env)
    (entries : list string) (i : nat) (st : Loop) (name : string) :
  is_Some (region_filename name) →
  (∀ n, n ∈ accepted entries → output_path outputdir n ≠ output_path outputdir name) →
  settled (world st) (input_path inputdir name) (output_path outputdir name) →
  settled (world (main_loop inputdir outputdir oracle i entries st))
    (input_path inputdir name) (output_path outputdir name).
Proof.
  intros [[x z] Hacc] Hdistinct. apply settled_frame.
  - apply main_loop_frame. intros n Hn.
    by destruct (paths_apart inputdir outputdir outputdir name n x z Hacc) as (? & ? & _).
  - apply main_loop_frame. intros n Hn. split.
    + intros Heq. by apply (Hdistinct n).
    + by destruct (paths_apart inputdir outputdir outputdir name n x z Hacc) as (_ & _ & ?).
Qed.

(** ** The claims about a batch *)


(** C6, as the code has it. [main] returns 1 exactly when fewer than two
    arguments were given ([argc < 3]) or the [region] directory cannot be
    opened, and 0 in every other case, whatever happens to the regions:
    arguments after the second do not make the argument count wrong. *)
Theorem exit_code (oracle : nat → Env) (argv : list string) (w : World) :
  let code := (main oracle argv w).2 in
  let fatal := (length argv < 3)%nat
               ∨ dirs w !! (nth 1 argv "" +:+ "/region") = None in
  (code = 1 ↔ fatal) ∧ (code = 0 ↔ ¬ fatal).
Proof.
  intros code fatal. subst code fatal. unfold main.
  destruct (Z.ltb_spec (Z.of_nat (length argv)) 3) as [Hlt|Hge]; cbn.
  - assert ((length argv < 3)%nat) as Hargc by lia.
    split; split; [by left|done|done|]. intros Hn. destruct Hn. by left.
  - destruct (dirs w !! (nth 1 argv "" +:+ "/region")) as [entries|] eqn:Hdir; cbn.
    + assert (¬ ((length argv < 3)%nat ∨ Some entries = None)) as Hnf
        by (intros [?|?]; [lia|done]).
      split; split; done.
    + split; split; [by right|done|done|]. intros Hn. destruct Hn. by right.
Qed.

(** Arguments after the second are not looked at. *)
Lemma main_extra_arguments (oracle : nat → Env) (a0 a1 a2 : string)
    (more : list string) (w : World) :
  main oracle (a0 :: a1 :: a2 :: more) w = main oracle [a0; a1; a2] w.
Proof.
  unfold main. cbn [nth].
  replace (Z.of_nat (length (a0 :: a1 :: a2 :: more)) <? 3) with false
    by (symmetry; apply Z.ltb_ge; cbn [length]; lia).
  done.
Qed.

(** The second run of [main] on the world a first run left, when the first
    run printed neither a warning nor an error. *)
Lemma main_twice_quiet (oracle1 oracle2 : nat → Env) (argv : list string) (w : World) :
  let w1 := world (main oracle1 argv w).1 in
  let w2 := world (main oracle2 argv w1).1 in
  Forall quiet (new_messages w w1) →
  ∃ entries,
    dirs w !! (nth 1 argv "" +:+ "/region") = Some entries
    ∧ files w2 = files w1
    ∧ new_messages w1 w2
      = (λ name, MsgUpToDate (output_path (nth 2 argv "") name)) <$> accepted entries.
Proof.
  intros w1 w2 Hq. subst w1 w2. revert Hq. unfold main.
  destruct (Z.ltb_spec (Z.of_nat (length argv)) 3) as [Hlt|Hge]; cbn [fst world].
  { erewrite new_messages_app by done. intros Hq. by not_quiet Hq. }
  set (inputdir := nth 1 argv "" +:+ "/region"). set (outputdir := nth 2 argv "").
  destruct (dirs w !! inputdir) as [entries|] eqn:Hdir; cbn [fst world].
  2:{ erewrite new_messages_app by done. intros Hq. by not_quiet Hq. }
  set (start1 := {| world := w; minX := INT_MAX; maxX := INT_MIN;
                    minZ := INT_MAX; maxZ := INT_MIN |}).
  destruct (main_loop_accepted inputdir outputdir oracle1 entries 0 start1
              inputdir entries Hdir) as (entries' & Hdir' & Hacc).
  set (st1 := main_loop inputdir outputdir oracle1 0 entries start1) in *.
  rewrite Hdir'. cbn [fst world].
  intros Hq.
  exists entries. split; [done|].
  set (start2 := {| world := world st1; minX := INT_MAX; maxX := INT_MIN;
                    minZ := INT_MAX; maxZ := INT_MIN |}).
  destruct (main_loop_settled inputdir outputdir oracle2 entries' 0 start2) as [Hf Hl].
  { intros name Hname. cbn [world]. rewrite Hacc in Hname.
    apply (main_loop_quiet_settles inputdir outputdir oracle1 entries 0 start1 []);
      [done| |done].
    intros n Hn. by apply elem_of_nil in Hn. }
  rewrite Hacc in Hl. split; [done|]. by apply new_messages_app.
Qed.

(** C8, as the code has it. A region for which the first run printed
    neither a warning nor an error (it was up-to-date, or it was published
    with the input's time stamps) is classified as up-to-date by the second
    run, the inputs and the listing being the same and no other accepted
    entry having the same output path. And if the whole first run of [main]
    printed neither a warning nor an error, the second run regenerates
    nothing: it leaves every file as it is and reports every accepted entry
    as up-to-date, whatever the surroundings would do to it. *)
Theorem second_run_up_to_date :
  (∀ inputdir outputdir oracle1 oracle2 before name after (st1 st2 : Loop),
     let input := input_path inputdir name in
     let output := output_path outputdir name in
     let reached1 := main_loop inputdir outputdir oracle1 0 before st1 in
     let after1 := main_loop inputdir outputdir oracle1 0 (before ++ name :: after) st1 in
     let reached2 := main_loop inputdir outputdir oracle2 0 before st2 in
     is_Some (region_filename name) →
     (∀ n, n ∈ accepted (before ++ after) →
           output_path outputdir n ≠ output_path outputdir name) →
     Forall quiet (new_messages (world reached1)
                     (doRegion (oracle1 (length before)) (world reached1) input output)) →
     files (world st2) = files (world after1) →
     doRegion (oracle2 (length before)) (world reached2) input output
     = fprintf_stderr (world reached2) (MsgUpToDate output))
  ∧ (∀ oracle1 oracle2 argv w,
       let w1 := world (main oracle1 argv w).1 in
       let w2 := world (main oracle2 argv w1).1 in
       Forall quiet (new_messages w w1) →
       ∃ entries,
         dirs w !! (nth 1 argv "" +:+ "/region") = Some entries
         ∧ files w2 = files w1
         ∧ new_messages w1 w2
           = (λ name, MsgUpToDate (output_path (nth 2 argv "") name))
               <$> accepted entries).
Proof.
  split; [|apply main_twice_quiet].
  intros inputdir outputdir oracle1 oracle2 before name after st1 st2
    input output reached1 after1 reached2 Hacc Hdistinct Hq Hsame.
  assert (∀ n, n ∈ accepted before → output_path outputdir n ≠ output) as Hbefore.
  { intros n Hn. apply Hdistinct. unfold accepted in *. rewrite filter_app.
    apply elem_of_app. by left. }
  assert (∀ n, n ∈ accepted after → output_path outputdir n ≠ output) as Hafter.
  { intros n Hn. apply Hdistinct. unfold accepted in *. rewrite filter_app.
    apply elem_of_app. by right. }
  destruct Hacc as [[x z] Hacc].
  destruct (paths_apart inputdir outputdir outputdir name name x z Hacc) as (Hio & Hit & _).
  destruct (doRegion_quiet_settles _ _ _ _ Hio Hit Hq) as [Hset _].
  assert (settled (world after1) input output) as Hset1.
  { subst after1. rewrite main_loop_app. cbn [main_loop].
    apply main_loop_keeps_settled; [by eexists|done|].
    by rewrite Nat.add_0_l, (main_entry_accepted _ _ _ _ _ x z). }
  assert (settled (world reached2) input output) as (instat & outstat & Hi & Ho & Hm).
  { subst reached2. apply main_loop_keeps_settled; [by eexists|done|].
    by apply (settled_files (world after1)). }
  by apply (doRegion_up_to_date _ _ _ _ instat outstat).
Qed.

(** * Further properties of the code *)

(** ** [doRegion] *)

Lemma stale_not_up_to_date (w : World) (instat outstat : File) (output : string) :
  stale w instat output → stat w output = Some outstat →
  mtime_not_newer instat outstat = true → False.
Proof. unfold stale. intros Hs Ho Hm. rewrite Ho in Hs. congruence. Qed.

(** X1. When [doRegion] attempts a regeneration, the temporary path
    [output + ".tmp"] names no file afterwards if the file written was
    renamed onto the output path, or if the [unlink] that follows a failure
    succeeds, whatever was at that path before. The result of that [unlink]
    is not examined: when it fails, the temporary path keeps what the pass
    left there, which is what it held before when the visitor threw or
    [fopen] failed, the cut-off file after a write error, and the file
    written after a failed [rename]. *)
Theorem tmpfile_removed (e : Env) (w : World) (input output : string)
    (instat : File) :
  stat w input = Some instat → stale w instat output →
  let tmpfile := output +:+ ".tmp" in
  let w' := doRegion e w input output in
  (∀ chunks, visitChunks e = Return chunks →
     png_outcome e = PngWritten ∨ (∃ n, png_outcome e = FcloseFails n) →
     rename_ok e = true → files w' !! tmpfile = None)
  ∧ (unlink_ok e = true → files w' !! tmpfile = None)
  ∧ (unlink_ok e = false →
     (∀ what, visitChunks e = Throw what → files w' !! tmpfile = files w !! tmpfile)
     ∧ (∀ chunks, visitChunks e = Return chunks → png_outcome e = FopenFails →
          files w' !! tmpfile = files w !! tmpfile)
     ∧ (∀ chunks n, visitChunks e = Return chunks → png_outcome e = WriteError n →
          content <$> files w' !! tmpfile = Some (Partial n))
     ∧ (∀ chunks, visitChunks e = Return chunks → png_outcome e = PngWritten →
          rename_ok e = false →
          content <$> files w' !! tmpfile = Some (PNG (compose empty_image chunks)))).
Proof.
  intros Hi Hs tmpfile w'. subst tmpfile w'. pose proof (tmpfile_ne output) as Hne.
  assert (∀ chunks, visitChunks e = Return chunks →
            png_outcome e = PngWritten ∨ (∃ n, png_outcome e = FcloseFails n) →
            rename_ok e = true →
            files (doRegion e w input output) !! (output +:+ ".tmp") = None) as Hrenamed.
  { intros chunks Hv Hp Hr.
    destruct (doRegion_renames e w input output instat chunks) as [_ Hf]; [done..|].
    rewrite Hf, lookup_insert_ne by done. apply lookup_delete_eq. }
  split; [done|]. split.
  - intros Hu.
    destruct (doRegion_cases e w input output)
      as [[Hn _]|[(? & outstat & [= <-]%(eq_trans (eq_sym Hi)) & Ho & Hm & _)
         |[(? & ? & _ & _ & _ & _ & _ & Ht)
          |[(? & ? & _ & _ & _ & _ & _ & _ & _ & Ht)
           |(? & chunks & _ & _ & Hv & Hp & Hr & _)]]]].
    + congruence.
    + by destruct (stale_not_up_to_date w instat outstat output).
    + by apply Ht.
    + by rewrite Ht, Hu.
    + by apply (Hrenamed chunks).
  - intros Hu. split_and!.
    + intros what Hv.
      destruct (doRegion_decode_fails e w input output what instat) as [_ Hf];
        [done..|].
      by rewrite Hf, Hu.
    + intros chunks Hv Hp. rewrite (doRegion_stale _ _ _ _ instat) by done.
      unfold doRegion_try, writePNG. by rewrite Hv, Hp, Hu.
    + intros chunks n Hv Hp. rewrite (doRegion_stale _ _ _ _ instat) by done.
      unfold doRegion_try, writePNG. rewrite Hv, Hp, Hu. cbn.
      by rewrite lookup_alter_eq, lookup_insert_eq.
    + intros chunks Hv Hp Hr.
      destruct (doRegion_rename_fails e w input output instat chunks) as (_ & _ & Ht);
        [done..|by left|done|].
      rewrite Ht, Hu. cbn. unfold written. by rewrite Hp.
Qed.

(** X2. A regeneration that fails (the visitor or [writePNG] throws, or the
    rename fails) leaves the region as stale as it was: the input and the
    output path hold what they held, so the next call of [doRegion] for the
    region attempts the regeneration again. *)
Theorem failed_region_retried (e e' : Env) (w : World) (input output : string)
    (instat : File) :
  stat w input = Some instat → stale w instat output →
  input ≠ output → input ≠ output +:+ ".tmp" →
  (∃ what, visitChunks e = Throw what)
    ∨ (png_outcome e ≠ PngWritten ∧ ∀ n, png_outcome e ≠ FcloseFails n)
    ∨ rename_ok e = false →
  let w' := doRegion e w input output in
  files w' !! input = files w !! input
  ∧ files w' !! output = files w !! output
  ∧ ∃ rest, stderr (doRegion e' w' input output)
            = stderr w' ++ MsgGenerating output input :: rest.
Proof.
  intros Hi Hs Hio Hit Hfail w'. pose proof (tmpfile_ne output) as Hne.
  assert (∀ p, p ≠ output +:+ ".tmp" → files w' !! p = files w !! p) as Hf.
  { subst w'.
    destruct (doRegion_files e w input output)
      as [Hf|(? & chunks & _ & _ & Hv & Hp & Hr & _)]; [done|].
    exfalso. destruct Hfail as [[what Hthrow]|[[Hnp Hnc]|Hnr]]; [congruence| |congruence].
    destruct Hp as [?|[n ?]]; [done|]. by destruct (Hnc n). }
  assert (files w' !! input = files w !! input) as Hin by (by apply Hf).
  assert (files w' !! output = files w !! output) as Hout by (by apply Hf).
  split; [done|]. split; [done|].
  apply (doRegion_stale_log e' w' input output instat).
  - unfold stat in *. by rewrite Hin.
  - unfold stale, stat in *. by rewrite Hout.
Qed.

(** X15. The result of the final [fclose] of [writePNG] is not examined:
    when it fails after [n] bytes have reached the file, and [utimensat] and
    the [rename] succeed, [doRegion] prints the generating line only, the
    output path holds the file cut off after [n] bytes with the time stamps
    of the input, and the next call for the region finds it up-to-date and
    leaves it there. *)
Theorem fclose_failure_unreported (e e' : Env) (w : World) (input output : string)
    (instat : File) (chunks : list Visit) (n : nat) :
  stat w input = Some instat → stale w instat output →
  input ≠ output → input ≠ output +:+ ".tmp" →
  visitChunks e = Return chunks → png_outcome e = FcloseFails n →
  utimensat_ok e = true → rename_ok e = true →
  let w' := doRegion e w input output in
  new_messages w w' = [MsgGenerating output input]
  ∧ files w' !! output
    = Some {| content := Partial n; st_mtim := st_mtim instat; st_atim := st_mtim instat |}
  ∧ doRegion e' w' input output = fprintf_stderr w' (MsgUpToDate output).
Proof.
  intros Hi Hs Hio Hit Hv Hp Hu Hr w'. subst w'.
  destruct (doRegion_renames e w input output instat chunks) as [Hl Hf];
    [done..|right; by exists n|done|].
  rewrite Hu in Hl.
  assert (files (doRegion e w input output) !! output
          = Some {| content := Partial n; st_mtim := st_mtim instat;
                    st_atim := st_mtim instat |}) as Hout.
  { rewrite Hf, lookup_insert_eq. unfold renamed_file, written. by rewrite Hp, Hu. }
  split; [by apply new_messages_app|]. split; [done|].
  eapply (doRegion_up_to_date _ _ _ _ instat).
  - unfold stat in *. rewrite Hf, lookup_insert_ne, lookup_delete_ne; done.
  - exact Hout.
  - by apply mtime_not_newer_refl.
Qed.

(** ** The tile compositor and the rows of the image *)

Lemma compose_length (image : list Z) (chunks : list Visit) :
  length (compose image chunks) = length image.
Proof. rewrite compose_as_stores. apply foldl_store_length. Qed.

(** X3. After a whole pass under the visitor's contract, every column of
    every delivered chunk is in the grid at its place: later chunks do not
    disturb what earlier ones stored, and the grid keeps its [DIM * DIM]
    cells. *)
Theorem compose_cell (chunks : list Visit) (v : Visit) (x z : nat) :
  visitor_contract chunks → v ∈ chunks →
  (x < Chunk_SIZE)%nat → (z < Chunk_SIZE)%nat →
  cell (compose empty_image chunks)
    (v.1.2 * Chunk_SIZE + z) (v.1.1 * Chunk_SIZE + x)
  = Some (htonl (getColor (blocks (getTopLayer v.2) x z)))
  ∧ length (compose empty_image chunks) = (DIM * DIM)%nat.
Proof.
  intros Hc Hv Hx Hz. split; [|by rewrite compose_length, empty_image_length].
  pose proof Hc as [Hr Hs]. rewrite Forall_forall in Hr. destruct (Hr v Hv) as [HX HZ].
  unfold cell. rewrite compose_as_stores. apply foldl_store_in.
  - by apply compose_offsets_NoDup.
  - unfold compose_stores. apply list_elem_of_bind. exists v. split; [|done].
    apply elem_of_addChunk_stores. by exists x, z.
  - rewrite empty_image_length. apply cell_index_lt; by apply column_lt_DIM.
Qed.

(** X4. A second chunk stored at the slot of an earlier one replaces it
    entirely: the grid is the one the second chunk alone gives. In
    particular storing the same chunk twice changes nothing. *)
Theorem addChunk_overwrites (image : list Z) (X Zc : nat) (chunk chunk' : Chunk) :
  (X < Region_SIZE)%nat →
  addChunk (addChunk image X Zc chunk) X Zc chunk' = addChunk image X Zc chunk'.
Proof.
  intros HX. apply list_eq. intros i.
  destruct (decide (i ∈ (addChunk_stores X Zc chunk').*1)) as [Hin|Hout].
  - destruct (decide (i < length image)%nat) as [Hlt|Hge].
    + apply list_elem_of_fmap in Hin as ([j u] & Hj & Hw). cbn in Hj. subst j.
      rewrite !addChunk_as_stores.
      rewrite (foldl_store_in _ _ i u); [|by apply addChunk_offsets_NoDup|done|].
      * symmetry. apply foldl_store_in; [by apply addChunk_offsets_NoDup|done..].
      * by rewrite foldl_store_length.
    + rewrite !lookup_ge_None_2; [done|..]; rewrite ?addChunk_length; lia.
  - rewrite !addChunk_frame; [done|done| |done].
    intros Hi. apply Hout.
    apply elem_of_addChunk_offsets in Hi. by apply elem_of_addChunk_offsets.
Qed.

Lemma block_of_column (X x : nat) :
  (x < Chunk_SIZE)%nat → ((X * Chunk_SIZE + x) / Chunk_SIZE)%nat = X.
Proof.
  intros Hx. symmetry. apply (Nat.div_unique _ _ X x); [done|lia].
Qed.

(** X14. [addChunk] changes cells of the block of its own slot only: a cell
    in a row or a column of another chunk slot holds afterwards what it
    held before. *)
Theorem addChunk_block_only (image : list Z) (X Zc : nat) (chunk : Chunk) (r c : nat) :
  (X < Region_SIZE)%nat → (c < DIM)%nat →
  (r / Chunk_SIZE)%nat ≠ Zc ∨ (c / Chunk_SIZE)%nat ≠ X →
  cell (addChunk image X Zc chunk) r c = cell image r c.
Proof.
  intros HX Hc Hother. unfold cell. apply addChunk_frame. intros Hi.
  apply elem_of_addChunk_offsets in Hi as (x & z & Hx & Hz & Heq).
  apply cell_index_inj in Heq as [-> ->]; [|done|by apply column_lt_DIM].
  rewrite !block_of_column in Hother by done. by destruct Hother.
Qed.

Lemma pixel_bytes_bind (row : list Z) (c : nat) (v : Z) :
  row !! c = Some v → pixel_bytes (row ≫= memory_bytes) c = memory_bytes v.
Proof.
  unfold pixel_bytes. revert c. induction row as [|u row IH]; intros c Hc; [done|].
  cbn [mbind list_bind]. destruct c as [|c].
  - injection Hc as ->. rewrite Nat.mul_0_r. cbn [drop].
    unfold memory_bytes. by destruct host_big_endian.
  - cbn in Hc. rewrite <- (IH c Hc).
    replace (4 * S c)%nat with (length (memory_bytes u) + 4 * c)%nat
      by (unfold memory_bytes; destruct host_big_endian; cbn; lia).
    by rewrite drop_app_add.
Qed.

Lemma memory_bytes_length (v : Z) : length (memory_bytes v) = 4%nat.
Proof. unfold memory_bytes. by destruct host_big_endian. Qed.

Lemma byte_of_range (v k : Z) : 0 ≤ byte_of v k ≤ 255.
Proof.
  unfold byte_of.
  assert (Z.land (Z.shiftr v (8 * k)) 0xff = Z.shiftr v (8 * k) mod 256) as ->
    by (apply (Z.land_ones _ 8); lia).
  pose proof (Z.mod_pos_bound (Z.shiftr v (8 * k)) 256 eq_refl) as Hb. lia.
Qed.

Lemma bind_memory_bytes_length (row : list Z) :
  length (row ≫= memory_bytes) = (4 * length row)%nat.
Proof.
  induction row as [|u row IH]; [done|].
  cbn [mbind list_bind length]. rewrite length_app, memory_bytes_length.
  fold (row ≫= memory_bytes). lia.
Qed.

Lemma image_row_lookup (data : list Z) (r c : nat) :
  (c < DIM)%nat → image_row data r !! c = cell data r c.
Proof.
  intros Hc. unfold image_row, cell, cell_index.
  rewrite lookup_take_lt by done. by rewrite lookup_drop.
Qed.

Lemma image_row_length (data : list Z) (r : nat) :
  length data = (DIM * DIM)%nat → (r < DIM)%nat → length (image_row data r) = DIM.
Proof.
  intros Hlen Hr. unfold image_row. rewrite length_take, length_drop, Hlen. nia.
Qed.

(** X5. For a grid of [DIM * DIM] cells [writePNG] hands [DIM] rows of
    [4 * DIM] bytes each to the encoder, every byte between 0 and 255, and
    the pixel in row [r], column [c] is the four bytes of the cell
    [image[r][c]] in address order; for a cell stored by [addChunk] these are
    the bytes of the colour, most significant first, on a host of either
    byte order. *)
Theorem row_pointers_pixels (data : list Z) :
  length data = (DIM * DIM)%nat →
  length (row_pointers data) = DIM
  ∧ Forall (λ row, length row = (4 * DIM)%nat ∧ Forall (λ b, 0 ≤ b ≤ 255) row)
      (row_pointers data)
  ∧ (∀ r c v, (r < DIM)%nat → (c < DIM)%nat → cell data r c = Some v →
       ∃ row, row_pointers data !! r = Some row
              ∧ pixel_bytes row c = memory_bytes v)
  ∧ (∀ r c color, (r < DIM)%nat → (c < DIM)%nat →
       cell data r c = Some (htonl color) →
       ∃ row, row_pointers data !! r = Some row
              ∧ pixel_bytes row c = network_bytes color).
Proof.
  intros Hlen.
  assert (∀ r c v, (r < DIM)%nat → (c < DIM)%nat → cell data r c = Some v →
            ∃ row, row_pointers data !! r = Some row
                   ∧ pixel_bytes row c = memory_bytes v) as Hpix.
  { intros r c v Hr Hc Hcell. eexists. split.
    - unfold row_pointers. rewrite list_lookup_fmap, lookup_seq_lt by done. done.
    - apply pixel_bytes_bind. by rewrite image_row_lookup. }
  split_and!.
  - unfold row_pointers. by rewrite length_fmap, length_seq.
  - unfold row_pointers. apply Forall_fmap, Forall_forall. intros r Hr.
    apply elem_of_seq in Hr. cbn. split.
    + rewrite bind_memory_bytes_length, image_row_length; [done..|lia].
    + apply Forall_forall. intros b Hb. apply list_elem_of_bind in Hb as (u & Hb & _).
      unfold memory_bytes in Hb. destruct host_big_endian;
        repeat (apply elem_of_cons in Hb as [->|Hb]; [apply byte_of_range|]);
        by apply elem_of_nil in Hb.
  - done.
  - intros r c color Hr Hc Hcell. destruct (Hpix r c _ Hr Hc Hcell) as (row & Hrow & Hb).
    exists row. split; [done|]. by rewrite Hb, htonl_network_order.
Qed.

(** ** The loop of [main] *)

Lemma to_int_range (v : Z) : INT_MIN ≤ to_int v ≤ INT_MAX.
Proof.
  unfold to_int, INT_MIN, INT_MAX.
  pose proof (Z.mod_pos_bound (v + 2147483648) 4294967296 eq_refl). lia.
Qed.

Lemma scan_i_range (s rest : string) (v : Z) :
  scan_i s = Some (v, rest) → INT_MIN ≤ v ≤ INT_MAX.
Proof.
  unfold scan_i. intros H. repeat case_match; simplify_eq; apply to_int_range.
Qed.

Lemma sscanf_range (d_name : string) (x z : Z) :
  sscanf_r_i_i_mca d_name = Some (x, z) →
  INT_MIN ≤ x ≤ INT_MAX ∧ INT_MIN ≤ z ≤ INT_MAX.
Proof.
  intros Hscan. destruct (sscanf_starts_with_r _ _ _ Hscan) as [s ->].
  cbn [sscanf_r_i_i_mca] in Hscan.
  destruct (scan_i s) as [[x' rest]|] eqn:Hx; [|done].
  destruct rest as [|c rest]; [done|].
  destruct (decide (c = "."%char)) as [->|Hc].
  2:{ exfalso. revert Hscan. by destruct c as [[] [] [] [] [] [] [] []]. }
  destruct (scan_i rest) as [[z' rest']|] eqn:Hz; [|done].
  injection Hscan as <- <-.
  split; [by eapply scan_i_range|by eapply scan_i_range].
Qed.

Lemma region_filename_range (d_name : string) (x z : Z) :
  region_filename d_name = Some (x, z) →
  INT_MIN ≤ x ≤ INT_MAX ∧ INT_MIN ≤ z ≤ INT_MAX.
Proof.
  intros H. apply region_filename_spec in H as [H _]. by apply (sscanf_range d_name).
Qed.

(** How one entry moves the bounding box. *)
Lemma main_entry_box (inputdir outputdir : string) (e : Env) (st : Loop)
    (d_name : string) :
  let st' := main_entry inputdir outputdir e st d_name in
  match region_filename d_name with
  | Some (x, z) =>
      minX st' = Z.min x (minX st) ∧ maxX st' = Z.max x (maxX st)
      ∧ minZ st' = Z.min z (minZ st) ∧ maxZ st' = Z.max z (maxZ st)
  | None => st' = st
  end.
Proof.
  intros st'. subst st'. unfold main_entry.
  destruct (region_filename d_name) as [[x z]|]; [|done]. cbn.
  destruct (Z.ltb_spec x (minX st)), (Z.ltb_spec z (minZ st)),
    (Z.gtb_spec x (maxX st)), (Z.gtb_spec z (maxZ st)); lia.
Qed.

Lemma coordinates_cons (d_name : string) (entries : list string) :
  coordinates (d_name :: entries)
  = match region_filename d_name with
    | Some c => c :: coordinates entries
    | None => coordinates entries
    end.
Proof. done. Qed.

(** The box after the loop: it has only grown, it holds the coordinates of
    every accepted entry, and each of its four bounds is the one the loop
    started with or a coordinate of an accepted entry. *)
Lemma main_loop_box (inputdir outputdir : string) (oracle : nat → Env)
    (entries : list string) (i : nat) (st : Loop) :
  let final := main_loop inputdir outputdir oracle i entries st in
  (minX final ≤ minX st ∧ maxX st ≤ maxX final
   ∧ minZ final ≤ minZ st ∧ maxZ st ≤ maxZ final)
  ∧ (∀ x z, (x, z) ∈ coordinates entries →
       minX final ≤ x ≤ maxX final ∧ minZ final ≤ z ≤ maxZ final)
  ∧ (minX final = minX st ∨ minX final ∈ (coordinates entries).*1)
  ∧ (maxX final = maxX st ∨ maxX final ∈ (coordinates entries).*1)
  ∧ (minZ final = minZ st ∨ minZ final ∈ (coordinates entries).*2)
  ∧ (maxZ final = maxZ st ∨ maxZ final ∈ (coordinates entries).*2).
Proof.
  revert i st. induction entries as [|d_name entries IH]; intros i st final.
  { subst final. cbn. split; [lia|]. split.
    - intros x z H. by apply elem_of_nil in H.
    - split_and!; by left. }
  subst final. cbn [main_loop].
  set (st' := main_entry inputdir outputdir (oracle i) st d_name).
  destruct (IH (S i) st') as (G & Hin & H1 & H2 & H3 & H4).
  pose proof (main_entry_box inputdir outputdir (oracle i) st d_name) as Hbox.
  fold st' in Hbox. cbn zeta in Hbox. rewrite coordinates_cons.
  destruct (region_filename d_name) as [[x0 z0]|] eqn:Hacc.
  2:{ by rewrite Hbox in *. }
  destruct Hbox as (B1 & B2 & B3 & B4). rewrite !fmap_cons. cbn [fst snd].
  split; [lia|]. split; [|split; [|split; [|split]]].
  - intros x z Hxz. apply elem_of_cons in Hxz as [[= -> ->]|Hxz]; [lia|by apply Hin].
  - destruct H1 as [H1|H1]; [|right; by right].
    rewrite H1, B1. destruct (Z.min_spec x0 (minX st)) as [[_ ->]|[_ ->]];
      [right; left|by left].
  - destruct H2 as [H2|H2]; [|right; by right].
    rewrite H2, B2. destruct (Z.max_spec x0 (maxX st)) as [[_ ->]|[_ ->]];
      [by left|right; left].
  - destruct H3 as [H3|H3]; [|right; by right].
    rewrite H3, B3. destruct (Z.min_spec z0 (minZ st)) as [[_ ->]|[_ ->]];
      [right; left|by left].
  - destruct H4 as [H4|H4]; [|right; by right].
    rewrite H4, B4. destruct (Z.max_spec z0 (maxZ st)) as [[_ ->]|[_ ->]];
      [by left|right; left].
Qed.

Lemma coordinates_range (entries : list string) (x z : Z) :
  (x, z) ∈ coordinates entries →
  INT_MIN ≤ x ≤ INT_MAX ∧ INT_MIN ≤ z ≤ INT_MAX.
Proof.
  unfold coordinates. intros H. apply list_elem_of_omap in H as (name & _ & Hacc).
  by apply region_filename_range in Hacc.
Qed.

(** X6. When [main] has gone through the directory, the bounding box holds
    the coordinates of every accepted entry; if at least one entry was
    accepted, each of its four bounds is a coordinate of an accepted entry
    (the box is the smallest one); if none was, the box is still the empty
    one [main] starts with, [INT_MAX] and [INT_MIN] the wrong way round. *)
Theorem bounding_box (oracle : nat → Env) (argv : list string) (w : World)
    (entries : list string) :
  (3 ≤ length argv)%nat →
  dirs w !! (nth 1 argv "" +:+ "/region") = Some entries →
  let box := (main oracle argv w).1 in
  (∀ x z, (x, z) ∈ coordinates entries →
     minX box ≤ x ≤ maxX box ∧ minZ box ≤ z ≤ maxZ box)
  ∧ (coordinates entries ≠ [] →
     minX box ∈ (coordinates entries).*1 ∧ maxX box ∈ (coordinates entries).*1
     ∧ minZ box ∈ (coordinates entries).*2 ∧ maxZ box ∈ (coordinates entries).*2)
  ∧ (coordinates entries = [] →
     minX box = INT_MAX ∧ maxX box = INT_MIN
     ∧ minZ box = INT_MAX ∧ maxZ box = INT_MIN).
Proof.
  intros Hargc Hdir box. subst box. unfold main.
  replace (Z.of_nat (length argv) <? 3) with false by (symmetry; apply Z.ltb_ge; lia).
  rewrite Hdir. cbn [fst].
  set (start := {| world := w; minX := INT_MAX; maxX := INT_MIN;
                   minZ := INT_MAX; maxZ := INT_MIN |}).
  destruct (main_loop_box (nth 1 argv "" +:+ "/region") (nth 2 argv "") oracle
              entries 0 start) as (_ & Hin & H1 & H2 & H3 & H4).
  cbn [minX maxX minZ maxZ start] in *.
  split; [done|]. split.
  - intros Hne. destruct (coordinates entries) as [|[x0 z0] rest] eqn:Hcs; [done|].
    destruct (Hin x0 z0) as [Hx Hz]; [left|].
    destruct (coordinates_range entries x0 z0) as [Rx Rz]; [rewrite Hcs; left|].
    rewrite !fmap_cons in *. cbn [fst snd] in *. split_and!.
    + destruct H1 as [H1|H1]; [|done]. assert (x0 = INT_MAX) by lia.
      rewrite H1. subst x0. left.
    + destruct H2 as [H2|H2]; [|done]. assert (x0 = INT_MIN) by lia.
      rewrite H2. subst x0. left.
    + destruct H3 as [H3|H3]; [|done]. assert (z0 = INT_MAX) by lia.
      rewrite H3. subst z0. left.
    + destruct H4 as [H4|H4]; [|done]. assert (z0 = INT_MIN) by lia.
      rewrite H4. subst z0. left.
  - intros Hnil. rewrite Hnil in *. cbn in *.
    split_and!; [destruct H1 as [?|H]|destruct H2 as [?|H]|destruct H3 as [?|H]
                |destruct H4 as [?|H]]; try done; by apply elem_of_nil in H.
Qed.

(** X7. [main] creates, replaces or removes files only at the output paths
    and temporary paths it derives from the accepted entries: every other
    path holds afterwards what it held before, and in particular no region
    file that was read is changed. It changes no listing but that of the
    output directory, and after it every listing holds the names of region
    files it held before, in the same order. *)
Theorem main_touches_outputs_only (oracle : nat → Env) (argv : list string)
    (w : World) :
  let inputdir := nth 1 argv "" +:+ "/region" in
  let outputdir := nth 2 argv "" in
  let w' := world (main oracle argv w).1 in
  (∀ p,
     (∀ entries name, dirs w !! inputdir = Some entries → name ∈ accepted entries →
        p ≠ output_path outputdir name ∧ p ≠ output_path outputdir name +:+ ".tmp") →
     files w' !! p = files w !! p)
  ∧ (∀ entries name, dirs w !! inputdir = Some entries → name ∈ accepted entries →
       files w' !! input_path inputdir name = files w !! input_path inputdir name)
  ∧ (∀ d, d ≠ outputdir → dirs w' !! d = dirs w !! d)
  ∧ (∀ d l, dirs w !! d = Some l →
       ∃ l', dirs w' !! d = Some l' ∧ accepted l' = accepted l).
Proof.
  intros inputdir outputdir w'.
  assert (∀ p,
    (∀ entries name, dirs w !! inputdir = Some entries → name ∈ accepted entries →
       p ≠ output_path outputdir name ∧ p ≠ output_path outputdir name +:+ ".tmp") →
    files w' !! p = files w !! p) as Hframe.
  { intros p Hp. subst w'. unfold main.
    destruct (Z.of_nat (length argv) <? 3); [done|].
    fold inputdir outputdir.
    destruct (dirs w !! inputdir) as [entries|] eqn:Hdir; [|done]. cbn [fst].
    rewrite main_loop_frame; [done|]. intros name Hname. by apply (Hp entries). }
  split; [done|]. split; [|split].
  - intros entries name Hdir Hname. apply Hframe.
    intros entries' name' Hdir' Hname'.
    apply list_elem_of_filter in Hname as [[[x z] Hacc] _].
    by destruct (paths_apart inputdir outputdir outputdir name name' x z Hacc)
      as (? & ? & _).
  - intros d Hd. subst w'. unfold main. destruct (Z.of_nat (length argv) <? 3); [done|].
    fold inputdir outputdir.
    destruct (dirs w !! inputdir) as [entries|] eqn:Hdir; [|done]. cbn [fst].
    by apply main_loop_listings.
  - intros d l Hl. subst w'. unfold main.
    destruct (Z.of_nat (length argv) <? 3); [by exists l|].
    fold inputdir outputdir.
    destruct (dirs w !! inputdir) as [entries|] eqn:Hdir; [|by exists l]. cbn [fst].
    by apply main_loop_accepted.
Qed.

(** ** Region file names *)

Lemma format_region_name (x z : Z) : format_r_i_i_mca x z = region_name x z 4.
Proof. done. Qed.

(** X8. Every name [r.X.Z.mca] that the format gives for coordinates in the
    range of [int] is accepted by the filename check, with these
    coordinates: scanning undoes printing. Two different pairs of
    coordinates therefore never give the same name. *)
Theorem region_filename_format (x z : Z) :
  INT_MIN ≤ x ≤ INT_MAX → INT_MIN ≤ z ≤ INT_MAX →
  region_filename (format_r_i_i_mca x z) = Some (x, z)
  ∧ ∀ x' z', INT_MIN ≤ x' ≤ INT_MAX → INT_MIN ≤ z' ≤ INT_MAX →
      format_r_i_i_mca x' z' = format_r_i_i_mca x z → x' = x ∧ z' = z.
Proof.
  intros Hx Hz. split.
  - rewrite format_region_name. by apply region_filename_region_name.
  - intros x' z' Hx' Hz' Heq.
    pose proof (region_filename_region_name x z 4 Hx Hz) as H.
    pose proof (region_filename_region_name x' z' 4 Hx' Hz') as H'.
    rewrite <- !format_region_name in *. rewrite Heq in H'.
    rewrite H in H'. by injection H' as -> ->.
Qed.




(** ** Which names the filename check accepts *)

Lemma scan_digits_rest_chars (P : ascii → Prop) (base : Z) (count : nat) (acc : Z)
    (s : string) :
  Forall P (chars s) → Forall P (chars (scan_digits base count acc s).2).
Proof.
  revert count acc. induction s as [|c t IH]; intros count acc Hs; [done|].
  cbn [scan_digits]. destruct (digit_value base c); [|done].
  apply IH. by apply Forall_cons in Hs as [_ ?].
Qed.

Lemma skip_space_chars (P : ascii → Prop) (s : string) :
  Forall P (chars s) → Forall P (chars (skip_space s)).
Proof.
  induction s as [|c t IH]; intros Hs; [done|].
  cbn [skip_space]. destruct (isspace c); [|done].
  apply IH. by apply Forall_cons in Hs as [_ ?].
Qed.

(** What [%i] leaves unread is made of characters of its input. *)
Lemma scan_i_rest_chars (P : ascii → Prop) (s rest : string) (v : Z) :
  Forall P (chars s) → scan_i s = Some (v, rest) → Forall P (chars rest).
Proof.
  intros Hs. apply skip_space_chars in Hs. unfold scan_i.
  destruct (skip_space s) as [|c1 s1] eqn:Hskip; [done|].
  assert (∀ b n a t, Forall P (chars t) →
            ∀ count v' rest', scan_digits b n a t = (count, v', rest') →
            Forall P (chars rest')) as Hscan.
  { intros b n a t Ht count v' rest' Heq.
    pose proof (scan_digits_rest_chars P b n a t Ht) as H. by rewrite Heq in H. }
  assert (∀ t c, Forall P (chars (String c t)) → Forall P (chars t)) as Htail.
  { intros t c H. by apply Forall_cons in H as [_ ?]. }
  intros H. repeat case_match; simplify_eq;
    repeat match goal with
    | H : Forall P (chars (String _ ?t)) |- _ =>
        lazymatch goal with
        | _ : Forall P (chars t) |- _ => fail
        | _ => pose proof (Htail _ _ H)
        end
    end;
    match goal with
    | Hd : scan_digits ?b ?n ?a ?t = (_, _, ?r) |- Forall P (chars ?r) =>
        apply (Hscan b n a t ltac:(assumption) _ _ _ Hd)
    end.
Qed.

Lemma digit_value_range (c : ascii) (d : Z) :
  digit_value 10 c = Some d → 0 ≤ d ≤ 9.
Proof.
  unfold digit_value. intros H.
  repeat case_match; simplify_eq; lia.
Qed.

Lemma scan_digits_value (count : nat) (acc : Z) (s : string) :
  (scan_digits 10 count acc s).1.2 = dec_value acc s.
Proof.
  revert count acc. induction s as [|c t IH]; intros count acc; [done|].
  cbn [scan_digits dec_value]. destruct (digit_value 10 c); [apply IH|done].
Qed.

Lemma dec_value_ge (acc : Z) (s : string) : 0 ≤ acc → acc ≤ dec_value acc s.
Proof.
  revert acc. induction s as [|c t IH]; intros acc Hacc; [done|].
  cbn [dec_value]. destruct (digit_value 10 c) as [d|] eqn:Hd; [|done].
  apply digit_value_range in Hd. etrans; [|apply IH]; lia.
Qed.

Lemma dec_value_grows (acc : Z) (c : ascii) (t : string) :
  0 ≤ acc → is_Some (digit_value 10 c) → 10 * acc ≤ dec_value acc (String c t).
Proof.
  intros Hacc [d Hd]. cbn [dec_value]. rewrite Hd.
  apply digit_value_range in Hd. etrans; [|apply dec_value_ge]; lia.
Qed.

Lemma dec_value_app (acc : Z) (s1 s2 : string) :
  Forall (λ c, is_Some (digit_value 10 c)) (chars s1) →
  dec_value acc (s1 +:+ s2) = dec_value (dec_value acc s1) s2.
Proof.
  revert acc. induction s1 as [|c t IH]; intros acc Hs; [done|].
  change (String c t +:+ s2) with (String c (t +:+ s2)).
  apply Forall_cons in Hs as [[d Hd] Hs]. cbn [dec_value]. rewrite Hd. by apply IH.
Qed.

Lemma string_of_uint_digits (d : Decimal.uint) :
  Forall (λ c, is_Some (digit_value 10 c)) (chars (NilEmpty.string_of_uint d)).
Proof. induction d; cbn; constructor; try done; by eexists. Qed.

Lemma string_app_nil_r (s : string) : s +:+ "" = s.
Proof. apply chars_inj. by rewrite chars_app, app_nil_r. Qed.

Lemma dec_value_to_uint (p : positive) :
  dec_value 0 (NilEmpty.string_of_uint (Pos.to_uint p)) = Z.pos p.
Proof.
  rewrite <- (scan_digits_value 0).
  rewrite <- (string_app_nil_r (NilEmpty.string_of_uint (Pos.to_uint p))).
  rewrite scan_digits_uint by done. cbn [fst snd]. apply uint_acc_to_uint.
Qed.

(** A string cut in two. *)
Lemma substr_0_split (s : string) (n : nat) :
  ∃ s2, s = substr_0 s n +:+ s2
        ∧ String.length s2 = (String.length s - n)%nat.
Proof.
  unfold substr_0. revert n. induction s as [|c t IH]; intros [|n]; cbn [substring].
  - by exists "".
  - by exists "".
  - by exists (String c t).
  - destruct (IH n) as (s2 & Heq & Hlen). exists s2.
    change (String c (substring 0 n t) +:+ s2) with (String c (substring 0 n t +:+ s2)).
    by rewrite <- Heq.
Qed.

Lemma nonzero_digit_value (c : ascii) :
  c ∈ chars "123456789" → ∃ d, digit_value 10 c = Some d ∧ 1 ≤ d ≤ 9.
Proof.
  intros Hc. apply list_elem_of_In in Hc. cbn in Hc.
  destruct Hc as [<-|[<-|[<-|[<-|[<-|[<-|[<-|[<-|[<-|[]]]]]]]]]];
    eexists; (split; [reflexivity|vm_compute; split; discriminate]).
Qed.

(** The digits of a positive number cut short read as a smaller number. *)
Lemma dec_value_prefix (p : positive) (c : ascii) (t : string) (m : nat) :
  NilEmpty.string_of_uint (Pos.to_uint p) = String c t →
  (m < String.length t)%nat →
  1 ≤ dec_value 0 (String c (substr_0 t m)) < Z.pos p.
Proof.
  intros Heq Hm.
  destruct (to_uint_first_char p) as (c' & t' & Heq' & Hc).
  rewrite Heq in Heq'. injection Heq' as <- <-.
  pose proof (string_of_uint_digits (Pos.to_uint p)) as Hdig. rewrite Heq in Hdig.
  destruct (substr_0_split t m) as (t2 & Ht & Hlen).
  assert (Forall (λ c, is_Some (digit_value 10 c)) (chars (String c (substr_0 t m))))
    as Hdig1.
  { apply Forall_cons in Hdig as [Hc' Hdig]. apply Forall_cons. split; [done|].
    rewrite chars_substr_0. by apply Forall_take. }
  assert (1 ≤ dec_value 0 (String c (substr_0 t m))) as Hone.
  { destruct (nonzero_digit_value c Hc) as (d & Hd & Hrange).
    cbn [dec_value]. rewrite Hd. etrans; [|apply dec_value_ge]; lia. }
  split; [done|].
  pose proof (dec_value_to_uint p) as Hval. rewrite Heq, Ht in Hval.
  change (String c (substr_0 t m +:+ t2))
    with (String c (substr_0 t m) +:+ t2) in Hval.
  rewrite dec_value_app in Hval by done.
  destruct t2 as [|c2 t2]; [cbn in Hlen; lia|].
  assert (is_Some (digit_value 10 c2)) as Hc2.
  { apply Forall_cons in Hdig as [_ Hdig]. rewrite Ht, chars_app, Forall_app in Hdig.
    destruct Hdig as [_ Hdig]. by apply Forall_cons in Hdig as [? _]. }
  pose proof (dec_value_grows (dec_value 0 (String c (substr_0 t m))) c2 t2
                ltac:(lia) Hc2). lia.
Qed.

(** What [%i] printed, cut short, is not read back as the same number. *)
Lemma scan_i_proper_prefix (v : Z) (m : nat) (r : string) :
  INT_MIN ≤ v ≤ INT_MAX → (m < String.length (print_i v))%nat →
  scan_i (substr_0 (print_i v) m) ≠ Some (v, r).
Proof.
  unfold INT_MIN, INT_MAX. intros Hv Hm. destruct v as [|p|p].
  - change (print_i 0) with "0" in *. cbn in Hm.
    assert (m = 0%nat) as -> by lia. done.
  - rewrite print_i_pos in *.
    destruct (to_uint_first_char p) as (c & t & Heq & Hc). rewrite Heq in *.
    destruct m as [|m]; [done|]. cbn [String.length] in Hm.
    change (substr_0 (String c t) (S m)) with (String c (substr_0 t m)).
    destruct (dec_value_prefix p c t m Heq ltac:(lia)) as [Hone Hless].
    rewrite (proj1 (scan_i_decimal c (substr_0 t m) Hc)).
    pose proof (scan_digits_value 0 0 (String c (substr_0 t m))) as Hval.
    destruct (scan_digits 10 0 0 (String c (substr_0 t m))) as [[count v'] rest].
    cbn [fst snd] in Hval. destruct count; [done|].
    intros [= Hz _]. rewrite to_int_clamp_long in Hz
      by (unfold INT_MIN, INT_MAX; lia). lia.
  - rewrite print_i_neg in *.
    destruct (to_uint_first_char p) as (c & t & Heq & Hc). rewrite Heq in *.
    destruct m as [|[|m]]; [done|done|]. cbn [String.length] in Hm.
    change (substr_0 (String "-" (String c t)) (S (S m)))
      with (String "-" (String c (substr_0 t m))).
    destruct (dec_value_prefix p c t m Heq ltac:(lia)) as [Hone Hless].
    rewrite (proj2 (scan_i_decimal c (substr_0 t m) Hc)).
    pose proof (scan_digits_value 0 0 (String c (substr_0 t m))) as Hval.
    destruct (scan_digits 10 0 0 (String c (substr_0 t m))) as [[count v'] rest].
    cbn [fst snd] in Hval. destruct count; [done|].
    intros [= Hz _]. rewrite to_int_clamp_long in Hz
      by (unfold INT_MIN, INT_MAX; lia). lia.
Qed.

Lemma substr_0_app_le (a b : string) (j : nat) :
  (j ≤ String.length a)%nat → substr_0 (a +:+ b) j = substr_0 a j.
Proof.
  intros Hj. apply chars_inj. rewrite !chars_substr_0, chars_app.
  apply take_app_le. by rewrite chars_length.
Qed.

Lemma substr_0_app_ge (a b : string) (j : nat) :
  (String.length a ≤ j)%nat →
  substr_0 (a +:+ b) j = a +:+ substr_0 b (j - String.length a).
Proof.
  intros Hj. apply chars_inj. rewrite chars_app, !chars_substr_0, chars_app.
  rewrite <- chars_length. apply take_app_ge. by rewrite chars_length.
Qed.

(** X10. The filename check accepts exactly the names [r.X.Z.mca] with both
    coordinates printed in decimal as [%i] prints an [int], and these names
    cut off within the extension ([r.X.Z], [r.X.Z.], [r.X.Z.m],
    [r.X.Z.mc]); the coordinates it reads are [X] and [Z]. Nothing else is
    accepted: no leading zeros or signs, no hexadecimal or octal numbers,
    no white space, nothing after the extension. *)
Theorem region_filename_accepted_names (d_name : string) (x z : Z) :
  region_filename d_name = Some (x, z)
  ↔ (INT_MIN ≤ x ≤ INT_MAX ∧ INT_MIN ≤ z ≤ INT_MAX
     ∧ ∃ k, (k ≤ 4)%nat ∧ d_name = region_name x z k).
Proof.
  split.
  2:{ intros (Hx & Hz & k & _ & ->). by apply region_filename_region_name. }
  intros Hacc. destruct (region_filename_range d_name x z Hacc) as [Hx Hz].
  split; [done|]. split; [done|].
  apply region_filename_spec in Hacc as [Hscan Hfmt].
  destruct (sscanf_starts_with_r _ _ _ Hscan) as [s ->].
  set (G := print_i x +:+ "." +:+ print_i z +:+ ".mca").
  assert (s = substr_0 G (String.length s)) as Hs.
  { unfold format_r_i_i_mca in Hfmt. fold G in Hfmt.
    change ("r." +:+ G) with (String "r" (String "." G)) in Hfmt.
    cbn [String.length] in Hfmt.
    change (substr_0 (String "r" (String "." G)) (S (S (String.length s))))
      with (String "r" (String "." (substr_0 G (String.length s)))) in Hfmt.
    by injection Hfmt. }
  cbn [sscanf_r_i_i_mca] in Hscan.
  destruct (Nat.le_gt_cases (String.length s) (String.length (print_i x)))
    as [Hshort|Hlong].
  { exfalso. unfold G in Hs. rewrite substr_0_app_le in Hs by done.
    assert (Forall (λ c, c ∈ chars "-0123456789") (chars s)) as Hchars.
    { rewrite Hs, chars_substr_0. apply Forall_take, print_i_chars. }
    destruct (scan_i s) as [[x' rest]|] eqn:Hx'; [|done].
    pose proof (scan_i_rest_chars _ _ _ _ Hchars Hx') as Hrest.
    destruct rest as [|c rest]; [done|].
    apply Forall_cons in Hrest as [Hc _].
    destruct (decide (c = "."%char)) as [->|Hdot].
    - apply list_elem_of_In in Hc. cbn in Hc. intuition discriminate.
    - revert Hscan. by destruct c as [[] [] [] [] [] [] [] []]. }
  unfold G in Hs. rewrite substr_0_app_ge in Hs by lia.
  set (j := (String.length s - String.length (print_i x))%nat) in *.
  destruct j as [|m] eqn:Hj; [lia|].
  change ("." +:+ ?t) with (String "." t) in Hs.
  change (substr_0 (String "." (print_i z +:+ ".mca")) (S m))
    with (String "." (substr_0 (print_i z +:+ ".mca") m)) in Hs.
  set (t := substr_0 (print_i z +:+ ".mca") m) in *.
  rewrite Hs in Hscan. rewrite scan_i_print_i in Hscan by done.
  destruct (scan_i t) as [[z' r]|] eqn:Hz'; [|done].
  injection Hscan as ->.
  destruct (Nat.le_gt_cases (String.length (print_i z)) m) as [Hfull|Hcut].
  2:{ exfalso. unfold t in Hz'. rewrite substr_0_app_le in Hz' by lia.
      by apply scan_i_proper_prefix in Hz'. }
  unfold t in Hs. rewrite substr_0_app_ge in Hs by done.
  set (k := (m - String.length (print_i z))%nat) in *.
  exists (Nat.min k 4). split; [lia|].
  rewrite Hs. unfold region_name.
  change ("r." +:+ ?u) with (String "r" (String "." u)).
  change ("." +:+ ?u) with (String "." u). do 5 f_equal.
  apply chars_inj. rewrite !chars_substr_0.
  destruct (Nat.le_gt_cases k 4).
  - by rewrite Nat.min_l.
  - rewrite Nat.min_r by lia. by rewrite !take_ge by (cbn; lia).
Qed.

(** ** Byte order *)

Lemma bswap_32_involutive (x : Z) : bswap_32 (bswap_32 x) = Z.land x 0xffffffff.
Proof.
  change 0xffffffff with (Z.ones 32). apply Z.bits_inj'. intros m Hm.
  rewrite Z.land_spec, Z.testbit_ones_nonneg by lia.
  rewrite testbit_bswap_32 by lia.
  destruct (Z.ltb_spec m 8); [|destruct (Z.ltb_spec m 16);
    [|destruct (Z.ltb_spec m 24); [|destruct (Z.ltb_spec m 32)]]];
    rewrite ?testbit_bswap_32 by lia;
    repeat match goal with
    | |- context [?a <? ?b] => destruct (Z.ltb_spec a b); try lia
    end; rewrite ?andb_true_r, ?andb_false_r; try done; f_equal; lia.
Qed.

Lemma land_32_range (x : Z) : 0 ≤ Z.land x 0xffffffff < 4294967296.
Proof.
  assert (Z.land x 0xffffffff = x mod 4294967296) as ->
    by (apply (Z.land_ones x 32); lia).
  by apply Z.mod_pos_bound.
Qed.

Lemma bswap_32_range (x : Z) : 0 ≤ bswap_32 x < 4294967296.
Proof.
  assert (bswap_32 x = Z.land (bswap_32 x) 0xffffffff) as ->; [|apply land_32_range].
  change 0xffffffff with (Z.ones 32). apply Z.bits_inj'. intros m Hm.
  rewrite Z.land_spec, Z.testbit_ones_nonneg by lia.
  rewrite testbit_bswap_32 by lia.
  repeat match goal with
  | |- context [?a <? ?b] => destruct (Z.ltb_spec a b); try lia
  end; by rewrite ?andb_true_r, ?andb_false_r.
Qed.

(** X11. The cell [htonl] gives for a colour is again a 32-bit value, and
    the colour is recovered from it by the same conversion: no two colours
    are stored as the same cell. *)
Theorem htonl_lossless :
  (∀ color, 0 ≤ htonl color < 4294967296)
  ∧ (∀ color, 0 ≤ color < 4294967296 → htonl (htonl color) = color)
  ∧ (∀ color color',
       0 ≤ color < 4294967296 → 0 ≤ color' < 4294967296 →
       htonl color = htonl color' → color = color').
Proof.
  assert (∀ color, 0 ≤ color < 4294967296 → htonl (htonl color) = color) as Hinv.
  { intros color Hc.
    assert (Z.land color 0xffffffff = color) as Hmask.
    { assert (Z.land color 0xffffffff = color mod 4294967296) as ->
        by (apply (Z.land_ones color 32); lia).
      by apply Z.mod_small. }
    unfold htonl. destruct host_big_endian.
    - by rewrite !Hmask.
    - by rewrite bswap_32_involutive. }
  split_and!.
  - intros color. unfold htonl. destruct host_big_endian;
      [apply land_32_range|apply bswap_32_range].
  - done.
  - intros color color' Hc Hc' Heq.
    rewrite <- (Hinv color), <- (Hinv color') by done. by rewrite Heq.
Qed.

(** ** What [stderr] tells *)

(** What a call of [doRegion] can print. *)
Lemma doRegion_messages (e : Env) (w : World) (input output : string) :
  let w' := doRegion e w input output in
  let tmpfile := output +:+ ".tmp" in
  (new_messages w w' = [MsgUnableToStat input] ∧ files w' = files w)
  ∨ (new_messages w w' = [MsgUpToDate output] ∧ files w' = files w)
  ∨ (∃ what, new_messages w w'
             = [MsgGenerating output input; MsgFailedToGenerate output what]
             ∧ ∀ p, p ≠ tmpfile → files w' !! p = files w !! p)
  ∨ (∃ warn, new_messages w w'
             = MsgGenerating output input :: warn ++ [MsgUnableToSave output]
             ∧ (warn = [] ∨ warn = [MsgWarnUtime tmpfile])
             ∧ ∀ p, p ≠ tmpfile → files w' !! p = files w !! p)
  ∨ (∃ warn, new_messages w w' = MsgGenerating output input :: warn
             ∧ (warn = [] ∨ warn = [MsgWarnUtime tmpfile])
             ∧ is_Some (files w' !! output)).
Proof.
  intros w' tmpfile. subst w' tmpfile.
  destruct (doRegion_cases e w input output)
    as [[_ Hw]|[(? & ? & _ & _ & _ & Hw)|[(? & what & _ & _ & _ & Hl & Hf & _)
       |[(? & ? & _ & _ & _ & _ & _ & Hl & Hf & _)
        |(? & ? & _ & _ & _ & _ & _ & Hl & Hf)]]]].
  - left. rewrite Hw. by erewrite new_messages_app by done.
  - right; left. rewrite Hw. by erewrite new_messages_app by done.
  - right; right; left. exists what. by erewrite new_messages_app by done.
  - right; right; right; left. erewrite new_messages_app by done.
    eexists. split; [done|]. split; [|done].
    destruct (utimensat_ok e); [by left|by right].
  - right; right; right; right. erewrite new_messages_app by done.
    eexists. split; [done|]. split.
    + destruct (utimensat_ok e); [by left|by right].
    + rewrite Hf, lookup_insert_eq. by eexists.
Qed.

Lemma doRegion_line_count (e : Env) (w : World) (input output : string) :
  (1 ≤ length (new_messages w (doRegion e w input output)) ≤ 3)%nat.
Proof.
  destruct (doRegion_messages e w input output)
    as [[Hm _]|[[Hm _]|[(what & Hm & _)|[(warn & Hm & Hw & _)|(warn & Hm & Hw & _)]]]];
    rewrite Hm; try (cbn; lia); destruct Hw as [-> | ->]; cbn; lia.
Qed.

(** X12. A call of [doRegion] prints between one and three lines. When one
    of them reports an error (the input cannot be stat'ed, the generation
    failed, the image cannot be saved), the output path holds afterwards
    exactly what it held before: the file at the output path changes only
    in a call that reports no error. *)
Theorem error_line_means_output_kept (e : Env) (w : World) (input output : string) :
  let w' := doRegion e w input output in
  (1 ≤ length (new_messages w w') ≤ 3)%nat
  ∧ ((MsgUnableToStat input ∈ new_messages w w'
      ∨ (∃ what, MsgFailedToGenerate output what ∈ new_messages w w')
      ∨ MsgUnableToSave output ∈ new_messages w w') →
     files w' !! output = files w !! output)
  ∧ (files w' !! output ≠ files w !! output →
     Forall (λ m, m = MsgGenerating output input
                  ∨ m = MsgWarnUtime (output +:+ ".tmp")) (new_messages w w')).
Proof.
  intros w'. pose proof (tmpfile_ne output) as Hne.
  destruct (doRegion_messages e w input output)
    as [[Hm Hf]|[[Hm Hf]|[(what & Hm & Hf)|[(warn & Hm & Hw & Hf)|(warn & Hm & Hw & Hf)]]]];
    fold w' in Hm, Hf; rewrite Hm.
  - rewrite Hf. split; [cbn; lia|]. split; [done|]. intros Hch; exfalso; by apply Hch.
  - rewrite Hf. split; [cbn; lia|]. split; [done|]. intros Hch; exfalso; by apply Hch.
  - rewrite (Hf output) by done. split; [cbn; lia|]. split; [done|].
    intros Hch; exfalso; by apply Hch.
  - rewrite (Hf output) by done. split.
    { destruct Hw as [-> | ->]; cbn; lia. }
    split; [done|]. intros Hch; exfalso; by apply Hch.
  - split.
    { destruct Hw as [-> | ->]; cbn; lia. }
    split.
    + intros [Herr|[[what Herr]|Herr]]; exfalso;
        destruct Hw as [-> | ->];
        repeat (apply elem_of_cons in Herr as [Herr|Herr]; [discriminate|]);
        by apply elem_of_nil in Herr.
    + intros _. destruct Hw as [-> | ->];
        repeat (apply Forall_cons; split; [first [by left|by right]|]);
        constructor.
Qed.

Lemma new_messages_trans (w w' w'' : World) (msgs msgs' : list Msg) :
  stderr w' = stderr w ++ msgs → stderr w'' = stderr w' ++ msgs' →
  new_messages w w'' = new_messages w w' ++ new_messages w' w''.
Proof.
  intros H1 H2. rewrite (new_messages_app w w' msgs), (new_messages_app w' w'' msgs')
    by done.
  apply new_messages_app. by rewrite H2, H1, app_assoc.
Qed.

(** X13. The loop of [main] prints at least one and at most three lines for
    every accepted entry and nothing for the others: a listing without any
    acceptable name (an empty directory, or only [.] and [..]) leaves
    [stderr] and the files as they were. *)
Theorem main_loop_lines (inputdir outputdir : string) (oracle : nat → Env)
    (entries : list string) (i : nat) (st : Loop) :
  let final := main_loop inputdir outputdir oracle i entries st in
  let lines := length (new_messages (world st) (world final)) in
  (length (accepted entries) ≤ lines ≤ 3 * length (accepted entries))%nat
  ∧ (accepted entries = [] → world final = world st).
Proof.
  revert i st. induction entries as [|d_name entries IH]; intros i st final lines.
  { subst lines final. cbn. unfold new_messages. rewrite drop_all. cbn.
    split; [lia|done]. }
  subst lines final. cbn [main_loop].
  set (st' := main_entry inputdir outputdir (oracle i) st d_name).
  destruct (main_entry_reports inputdir outputdir (oracle i) st d_name) as [msgs Hmsgs].
  fold st' in Hmsgs.
  destruct (main_loop_reports inputdir outputdir oracle entries (S i) st')
    as [later Hlater].
  rewrite (new_messages_trans _ _ _ _ _ Hmsgs Hlater), length_app.
  destruct (IH (S i) st') as [Hcount Hnone]. cbn zeta in Hcount.
  unfold accepted in *. rewrite filter_cons.
  destruct (decide (is_Some (region_filename d_name))) as [[[x z] Hacc]|Hrej].
  - split; [|done]. cbn [length].
    assert (1 ≤ length (new_messages (world st) (world st')) ≤ 3)%nat; [|lia].
    subst st'. rewrite (main_entry_accepted _ _ _ _ _ x z) by done.
    apply doRegion_line_count.
  - assert (st' = st) as Hst.
    { subst st'. unfold main_entry.
      destruct (region_filename d_name) as [[x z]|]; [|done]. by destruct Hrej. }
    rewrite Hst in *. split.
    + assert (new_messages (world st) (world st) = []) as ->
        by (unfold new_messages; apply drop_all).
      cbn [length]. lia.
    + done.
Qed.

End MinedMap.

(** ** Compositing and filename validation on concrete sizes and names *)

(** C2. For a chunk at the in-range slot [(X, Zc)] and a column [(x, z)] of
    it, [addChunk] leaves in the grid cell of row [Zc * Chunk_SIZE + z] and
    column [X * Chunk_SIZE + x] the colour of the column's top block passed
    through [htonl], which lies in memory in network byte order. With a
    chunk side of 16, the column [(x = 3, z = 5)] of the chunk at [(1, 0)]
    lands in row 5, column 19. *)
Theorem addChunk_writes_column :
  (∀ Region_SIZE Chunk_SIZE host_big_endian image X Zc chunk x z,
     (X < Region_SIZE)%nat → (Zc < Region_SIZE)%nat →
     (x < Chunk_SIZE)%nat → (z < Chunk_SIZE)%nat →
     length image = (DIM Region_SIZE Chunk_SIZE * DIM Region_SIZE Chunk_SIZE)%nat →
     let color := getColor (blocks (getTopLayer chunk) x z) in
     cell Region_SIZE Chunk_SIZE
       (addChunk Region_SIZE Chunk_SIZE host_big_endian image X Zc chunk)
       (Zc * Chunk_SIZE + z) (X * Chunk_SIZE + x)
     = Some (htonl host_big_endian color)
     ∧ memory_bytes host_big_endian (htonl host_big_endian color)
       = network_bytes color)
  ∧ (∀ Region_SIZE host_big_endian image chunk,
       (1 < Region_SIZE)%nat →
       length image = (DIM Region_SIZE 16 * DIM Region_SIZE 16)%nat →
       cell Region_SIZE 16 (addChunk Region_SIZE 16 host_big_endian image 1 0 chunk) 5 19
       = Some (htonl host_big_endian (getColor (blocks (getTopLayer chunk) 3 5)))).
Proof.
  split.
  - intros RS CS be image X Zc chunk x z HX HZ Hx Hz Hlen color. split.
    + by apply addChunk_lookup.
    + apply htonl_network_order.
  - intros RS be image chunk HRS Hlen.
    apply (addChunk_lookup RS 16 be image 1 0 chunk 3 5); [lia..|done].
Qed.

(** The two names of the specification. *)
Lemma region_filename_examples :
  region_filename "r.01.2.mca" = None
  ∧ region_filename "r.-5.10.mca" = Some (-5, 10).
Proof. split; reflexivity. Qed.

(** C3. The check of lines 163-168 compares the name with the output of the
    format cut down to the length of the name, so that it also accepts a
    name that stops short of the full output: the entry [r.1.2] is taken as
    the region (1, 2), although the format gives [r.1.2.mca] for these
    coordinates, and [main] derives the output name [r.png] from it. *)
Theorem region_filename_accepts_truncated :
  region_filename "r.1.2" = Some (1, 2)
  ∧ format_r_i_i_mca 1 2 = "r.1.2.mca"
  ∧ format_r_i_i_mca 1 2 ≠ "r.1.2"
  ∧ output_path "out" "r.1.2" = "out/r.png".
Proof. split_and!; [reflexivity..|discriminate|reflexivity]. Qed.

(** ** The theorems at work on the sample data *)

Lemma staleness_check_witness :
  let input := "data/region/r.0.0.mca" in
  let output := "out/r.0.0.png" in
  let image := compose 1 1 false (empty_image 1 1) [(0%nat, 0%nat, sample_chunk)] in
  (stat sample_older_world input = Some sample_region
   ∧ content <$> files sample_older_world !! output = Some (PNG [])
   ∧ content <$> files (doRegion 1 1 false all_succeeds sample_older_world input output)
                   !! output
     = Some (PNG image))
  ∧ (stat sample_newer_world input = Some sample_region
     ∧ doRegion 1 1 false all_succeeds sample_newer_world input output
       = fprintf_stderr sample_newer_world (MsgUpToDate output))
  ∧ (stat sample_world input = Some sample_region
     ∧ content <$> files (doRegion 1 1 false all_succeeds sample_world input output)
                     !! output
       = Some (PNG image)).
Proof.
  intros input output image. split; [|split].
  - split; [reflexivity|]. split; [reflexivity|].
    apply (proj2 (proj2 (proj2 (staleness_check 1 1 false all_succeeds sample_older_world
                                  input output sample_region eq_refl))
                   ltac:(right; eexists; split; reflexivity))
             [(0%nat, 0%nat, sample_chunk)]); reflexivity.
  - split; [reflexivity|].
    apply (proj1 (staleness_check 1 1 false all_succeeds sample_newer_world
                    input output sample_region eq_refl)).
    eexists. split; [reflexivity|]. discriminate.
  - split; [reflexivity|].
    apply (proj2 (proj2 (proj2 (staleness_check 1 1 false all_succeeds sample_world
                                  input output sample_region eq_refl))
                   ltac:(left; reflexivity))
             [(0%nat, 0%nat, sample_chunk)]); reflexivity.
Defined.

Lemma addChunk_writes_column_witness :
  cell 2 16 (addChunk 2 16 false (empty_image 2 16) 1 0 sample_chunk) 5 19
  = Some (htonl false (getColor (blocks (getTopLayer sample_chunk) 3 5))).
Proof.
  apply (proj2 addChunk_writes_column 2%nat false (empty_image 2 16) sample_chunk);
    [lia|reflexivity].
Defined.

Lemma publication_through_tmpfile_witness :
  let w' := doRegion 1 1 false rename_fails sample_older_world
              "data/region/r.0.0.mca" "out/r.0.0.png" in
  stat sample_older_world "data/region/r.0.0.mca" = Some sample_region
  ∧ rename_ok rename_fails = false
  ∧ files w' !! "out/r.0.0.png.tmp" = None
  ∧ files w' !! "out/r.0.0.png" = Some (sample_image 40)
  ∧ MsgUnableToSave "out/r.0.0.png" ∈ stderr w'.
Proof.
  intros w'. split; [reflexivity|]. split; [reflexivity|].
  destruct (proj1 (proj2 (proj2 (publication_through_tmpfile 1 1 false rename_fails
                                   sample_older_world
                                   "data/region/r.0.0.mca" "out/r.0.0.png")))
              sample_region [(0%nat, 0%nat, sample_chunk)])
    as (Htmp & Hout & Hmsg); [reflexivity|reflexivity|reflexivity|left; reflexivity|reflexivity|].
  split; [exact (Htmp eq_refl)|]. split; [exact Hout|exact Hmsg].
Defined.


Lemma timestamp_propagation_witness :
  let w' := doRegion 1 1 false all_succeeds sample_world
              "data/region/r.0.0.mca" "out/r.0.0.png" in
  utimensat_ok all_succeeds = true
  ∧ ∃ f, files w' !! "out/r.0.0.png" = Some f
         ∧ st_mtim f = st_mtim sample_region
         ∧ st_atim f = st_mtim sample_region.
Proof.
  intros w'. split; [reflexivity|].
  destruct (timestamp_propagation 1 1 false all_succeeds sample_world
              "data/region/r.0.0.mca" "out/r.0.0.png" sample_region
              [(0%nat, 0%nat, sample_chunk)])
    as (f & Hf & _ & Hset & _); [reflexivity|exact I|reflexivity..|].
  exists f. split; [exact Hf|].
  destruct (Hset eq_refl) as (Hm & Ha & _). split; [exact Hm|exact Ha].
Defined.

Lemma second_run_up_to_date_witness :
  let w1 := world (main 1 1 false (λ _, all_succeeds) sample_argv sample_world).1 in
  let w2 := world (main 1 1 false (λ _, rename_fails) sample_argv w1).1 in
  Forall quiet (new_messages sample_world w1)
  ∧ files w2 = files w1
  ∧ new_messages w1 w2 = [MsgUpToDate "out/r.0.0.png"].
Proof.
  intros w1 w2.
  assert (Forall quiet (new_messages sample_world w1)) as Hq.
  { vm_compute. repeat constructor. }
  split; [exact Hq|].
  destruct (proj2 (second_run_up_to_date 1 1 false) (λ _, all_succeeds) (λ _, rename_fails)
              sample_argv sample_world Hq) as (entries & Hdir & Hf & Hm).
  split; [exact Hf|].
  injection Hdir as <-. exact Hm.
Defined.

Lemma grid_invariant_witness :
  visitor_contract 2 [(0%nat, 0%nat, sample_chunk)]
  ∧ cell 2 1 (compose 2 1 false (empty_image 2 1) [(0%nat, 0%nat, sample_chunk)]) 1 1
    = Some 0.
Proof.
  assert (visitor_contract 2 [(0%nat, 0%nat, sample_chunk)]) as Hc.
  { split.
    - repeat constructor; cbn; lia.
    - repeat constructor. intros H. inversion H. }
  split; [exact Hc|].
  destruct (grid_invariant 2 1 false [(0%nat, 0%nat, sample_chunk)] Hc)
    as (_ & _ & _ & Habs & _).
  apply (Habs 1%nat 1%nat 0%nat 0%nat); [lia..|].
  intros H. apply list_elem_of_singleton in H. discriminate H.
Defined.

Lemma addChunk_order_independent_witness :
  addChunk 2 1 false (addChunk 2 1 false (empty_image 2 1) 0 0 sample_chunk) 1 0 sample_chunk
  = addChunk 2 1 false (addChunk 2 1 false (empty_image 2 1) 1 0 sample_chunk) 0 0 sample_chunk.
Proof.
  apply (proj1 (addChunk_order_independent 2 1 false)); [lia..|discriminate].
Defined.

(** ** Where the code departs from the specification *)

(** C4 as stated fails. When the [rename] fails and the [unlink] after it
    fails too, the temporary file is not removed: the error is reported and
    the file written stays at the temporary path. And when the final
    [fclose] of [writePNG] fails, no error is reported and the file cut off
    after 4096 bytes is renamed onto the output path, in the place of the
    complete image that was there. *)
Lemma unchecked_unlink_and_fclose :
  let input := "data/region/r.0.0.mca" in
  let output := "out/r.0.0.png" in
  let w1 := doRegion 1 1 false unlink_fails sample_older_world input output in
  let w2 := doRegion 1 1 false fclose_fails sample_older_world input output in
  (rename_ok unlink_fails = false
   ∧ new_messages sample_older_world w1
     = [MsgGenerating output input; MsgUnableToSave output]
   ∧ files sample_older_world !! (output +:+ ".tmp") = None
   ∧ content <$> files w1 !! (output +:+ ".tmp")
     = Some (PNG (compose 1 1 false (empty_image 1 1) [(0%nat, 0%nat, sample_chunk)])))
  ∧ (content <$> files sample_older_world !! output = Some (PNG [])
     ∧ new_messages sample_older_world w2 = [MsgGenerating output input]
     ∧ content <$> files w2 !! output = Some (Partial 4096)).
Proof.
  intros input output w1 w2. split; split_and!; reflexivity.
Qed.

(** C6 as stated fails. With three arguments, where the usage line names
    two, the argument count is wrong, and [main] goes through the regions
    and returns 0 all the same. *)
Lemma extra_argument_exits_0 :
  let argv := ["MinedMap"; "data"; "out"; "extra"] in
  let code := (main 1 1 false (λ _, all_succeeds) argv sample_world).2 in
  length argv ≠ 3%nat
  ∧ code = 0
  ∧ ¬ (code = 1
       ↔ length argv ≠ 3%nat ∨ dirs sample_world !! (nth 1 argv "" +:+ "/region") = None).
Proof.
  intros argv code. split; [discriminate|]. split; [reflexivity|].
  intros [_ H]. discriminate H. left. discriminate.
Qed.

(** C7 as stated fails: when [utimensat] fails the region is still
    regenerated and published without any error, and the published file
    carries the time of its writing (10 s), not the modification time of the
    input (50 s). *)
Lemma timestamp_not_propagated :
  let w' := doRegion 1 1 false utimensat_fails sample_world
              "data/region/r.0.0.mca" "out/r.0.0.png" in
  stat sample_world "data/region/r.0.0.mca" = Some sample_region
  ∧ stderr w' = [MsgGenerating "out/r.0.0.png" "data/region/r.0.0.mca";
                 MsgWarnUtime "out/r.0.0.png.tmp"]
  ∧ ∃ f, files w' !! "out/r.0.0.png" = Some f
         ∧ content f = PNG (compose 1 1 false (empty_image 1 1)
                              [(0%nat, 0%nat, sample_chunk)])
         ∧ st_mtim f = {| tv_sec := 10; tv_nsec := 0 |}
         ∧ st_mtim f ≠ st_mtim sample_region.
Proof.
  intros w'. split; [reflexivity|]. split; [reflexivity|].
  eexists. split; [reflexivity|]. split; [reflexivity|]. split; [reflexivity|].
  discriminate.
Qed.

(** C8 as stated fails: a first run in which [utimensat] fails publishes the
    region without error, with the time of its writing (10 s) as time stamp;
    the inputs being unchanged (50 s), the second run finds the output older
    than the input and regenerates the region. *)
Lemma second_run_regenerates :
  let w1 := world (main 1 1 false (λ _, utimensat_fails) sample_argv sample_world).1 in
  let w2 := world (main 1 1 false (λ _, all_succeeds) sample_argv w1).1 in
  new_messages sample_world w1
  = [MsgGenerating "out/r.0.0.png" "data/region/r.0.0.mca";
     MsgWarnUtime "out/r.0.0.png.tmp"]
  ∧ content <$> files w1 !! "out/r.0.0.png"
    = Some (PNG (compose 1 1 false (empty_image 1 1) [(0%nat, 0%nat, sample_chunk)]))
  ∧ files w1 !! "data/region/r.0.0.mca" = files sample_world !! "data/region/r.0.0.mca"
  ∧ new_messages w1 w2 = [MsgGenerating "out/r.0.0.png" "data/region/r.0.0.mca"]
  ∧ new_messages w1 w2 ≠ [MsgUpToDate "out/r.0.0.png"].
Proof.
  intros w1 w2. split_and!; [reflexivity..|]. discriminate.
Qed.

(** ** The further properties at work on the sample data *)

Lemma tmpfile_removed_witness :
  stat sample_world "data/region/r.0.0.mca" = Some sample_region
  ∧ unlink_ok rename_fails = true
  ∧ files (doRegion 1 1 false rename_fails sample_world
             "data/region/r.0.0.mca" "out/r.0.0.png") !! "out/r.0.0.png.tmp" = None.
Proof.
  split; [reflexivity|]. split; [reflexivity|].
  apply (proj1 (proj2 (tmpfile_removed 1 1 false rename_fails sample_world
                         "data/region/r.0.0.mca" "out/r.0.0.png" sample_region
                         eq_refl I))).
  reflexivity.
Defined.

Lemma failed_region_retried_witness :
  let w' := doRegion 1 1 false decode_fails sample_world
              "data/region/r.0.0.mca" "out/r.0.0.png" in
  visitChunks decode_fails = Throw "bad region"
  ∧ ∃ rest, stderr (doRegion 1 1 false all_succeeds w'
                      "data/region/r.0.0.mca" "out/r.0.0.png")
            = stderr w' ++ MsgGenerating "out/r.0.0.png" "data/region/r.0.0.mca" :: rest.
Proof.
  intros w'. split; [reflexivity|].
  apply (failed_region_retried 1 1 false decode_fails all_succeeds sample_world
           "data/region/r.0.0.mca" "out/r.0.0.png" sample_region);
    [reflexivity|exact I|discriminate|discriminate|].
  left. exists "bad region". reflexivity.
Defined.

Lemma compose_cell_witness :
  cell 2 1 (compose 2 1 false (empty_image 2 1) [(1%nat, 0%nat, sample_chunk)]) 0 1
  = Some (htonl false 0x11223344).
Proof.
  apply (compose_cell 2 1 false [(1%nat, 0%nat, sample_chunk)]
           (1%nat, 0%nat, sample_chunk) 0 0).
  - split; [repeat constructor; cbn; lia|]. repeat constructor. intros H. inversion H.
  - left.
  - lia.
  - lia.
Defined.

Lemma addChunk_overwrites_witness :
  addChunk 2 1 false (addChunk 2 1 false (empty_image 2 1) 1 0 sample_chunk)
    1 0 sample_chunk
  = addChunk 2 1 false (empty_image 2 1) 1 0 sample_chunk.
Proof. apply (addChunk_overwrites 2 1 false). lia. Defined.

Lemma row_pointers_pixels_witness :
  length (row_pointers 2 1 false
            (compose 2 1 false (empty_image 2 1) [(1%nat, 0%nat, sample_chunk)])) = 2%nat.
Proof.
  apply (row_pointers_pixels 2 1 false). reflexivity.
Defined.

Lemma bounding_box_witness :
  let box := (main 1 1 false (λ _, all_succeeds) sample_argv sample_box_world).1 in
  coordinates ["."; "r.-2.3.mca"; "notes.txt"; "r.4.-1.mca"; ".."] = [(-2, 3); (4, -1)]
  ∧ (minX box ≤ -2 ≤ maxX box ∧ minZ box ≤ 3 ≤ maxZ box)
  ∧ (minX box, maxX box, minZ box, maxZ box) = (-2, 4, -1, 3).
Proof.
  intros box. split; [reflexivity|]. split; [|reflexivity].
  apply (bounding_box 1 1 false (λ _, all_succeeds) sample_argv sample_box_world
           ["."; "r.-2.3.mca"; "notes.txt"; "r.4.-1.mca"; ".."]).
  - cbn. lia.
  - reflexivity.
  - left.
Defined.

Lemma main_touches_outputs_only_witness :
  let w' := world (main 1 1 false (λ _, all_succeeds) sample_argv sample_out_world).1 in
  files w' !! "data/region/r.0.0.mca" = files sample_out_world !! "data/region/r.0.0.mca"
  ∧ dirs w' !! "data/region" = dirs sample_out_world !! "data/region".
Proof.
  intros w'.
  destruct (main_touches_outputs_only 1 1 false (λ _, all_succeeds)
              sample_argv sample_out_world) as (_ & Hin & Hdir & _).
  split.
  - apply (Hin [".."; "."; "r.0.0.mca"] "r.0.0.mca").
    + reflexivity.
    + vm_compute. left.
  - apply Hdir. discriminate.
Defined.

(** The listing of the output directory after a run: the name of the image
    has come in, that of the temporary file has come and gone. *)
Lemma main_listing_example :
  let w' := world (main 1 1 false (λ _, all_succeeds) sample_argv sample_out_world).1 in
  dirs w' !! "out" = Some ["."; ".."; "r.0.0.png"]
  ∧ dirs w' !! "data/region" = Some [".."; "."; "r.0.0.mca"].
Proof. split; reflexivity. Qed.

Lemma region_filename_format_witness :
  region_filename (format_r_i_i_mca (-5) 10) = Some (-5, 10).
Proof.
  apply (region_filename_format (-5) 10); unfold INT_MIN, INT_MAX; lia.
Defined.


Lemma region_filename_accepted_names_witness :
  region_filename "r.-5.10.mca" = Some (-5, 10).
Proof.
  apply (region_filename_accepted_names "r.-5.10.mca" (-5) 10).
  split; [unfold INT_MIN, INT_MAX; lia|]. split; [unfold INT_MIN, INT_MAX; lia|].
  exists 4%nat. split; [lia|reflexivity].
Defined.

Lemma htonl_lossless_witness :
  htonl false (htonl false 0x11223344) = 0x11223344.
Proof. apply (proj1 (proj2 (htonl_lossless false))). lia. Defined.

Lemma error_line_means_output_kept_witness :
  let w' := doRegion 1 1 false rename_fails sample_world
              "data/region/r.0.0.mca" "out/r.0.0.png" in
  MsgUnableToSave "out/r.0.0.png" ∈ new_messages sample_world w'
  ∧ files w' !! "out/r.0.0.png" = files sample_world !! "out/r.0.0.png".
Proof.
  intros w'.
  assert (MsgUnableToSave "out/r.0.0.png" ∈ new_messages sample_world w') as Herr.
  { vm_compute. right. left. }
  split; [exact Herr|].
  apply (proj1 (proj2 (error_line_means_output_kept 1 1 false rename_fails sample_world
                         "data/region/r.0.0.mca" "out/r.0.0.png"))).
  right. right. exact Herr.
Defined.

Lemma main_loop_lines_witness :
  let start := {| world := sample_world; minX := INT_MAX; maxX := INT_MIN;
                  minZ := INT_MAX; maxZ := INT_MIN |} in
  accepted [".."; "."] = []
  ∧ world (main_loop 1 1 false "data/region" "out" (λ _, all_succeeds) 0
             [".."; "."] start) = sample_world.
Proof.
  intros start. split; [reflexivity|].
  apply (proj2 (main_loop_lines 1 1 false "data/region" "out" (λ _, all_succeeds)
                  [".."; "."] 0 start)).
  reflexivity.
Defined.

Lemma addChunk_block_only_witness :
  cell 2 1 (addChunk 2 1 false (empty_image 2 1) 1 0 sample_chunk) 1 1 = Some 0.
Proof.
  apply (addChunk_block_only 2 1 false (empty_image 2 1) 1 0 sample_chunk 1 1);
    [lia|cbn; lia|].
  left. discriminate.
Defined.

Lemma fclose_failure_unreported_witness :
  let input := "data/region/r.0.0.mca" in
  let output := "out/r.0.0.png" in
  let w' := doRegion 1 1 false fclose_fails sample_older_world input output in
  stat sample_older_world input = Some sample_region
  ∧ png_outcome fclose_fails = FcloseFails 4096
  ∧ new_messages sample_older_world w' = [MsgGenerating output input]
  ∧ content <$> files w' !! output = Some (Partial 4096)
  ∧ doRegion 1 1 false all_succeeds w' input output
    = fprintf_stderr w' (MsgUpToDate output).
Proof.
  intros input output w'. split; [reflexivity|]. split; [reflexivity|].
  destruct (fclose_failure_unreported 1 1 false fclose_fails all_succeeds
              sample_older_world input output sample_region
              [(0%nat, 0%nat, sample_chunk)] 4096%nat)
    as (Hm & Hf & Hup); [reflexivity|reflexivity|discriminate|discriminate|reflexivity..|].
  split; [exact Hm|]. split; [|exact Hup].
  exact (f_equal (fmap content) Hf).
Defined.
